(** * fe-fwk-book: the template compiler and the hash router

    A shallow embedding of
    - [packages/compiler/src/compile.js] (class [TemplateCompiler]),
    - [packages/runtime/src/router.js] (class [HashRouter], asynchronous,
      with guards and redirect routes), and
    - the synchronous, guard-less [HashRouter] of [src/unnamed/part_000],
    followed by the properties proved about them.

    Part I holds the definitions, Parts II to VI the lemmas. *)

From Stdlib Require Import NArith ZArith String Ascii Lia Wellfounded.
From stdpp Require Import base tactics option list gmap.

Set Default Proof Using "Type".
Set Warnings "-register-all,-clear-no-such-hyp".
Open Scope Z_scope.
Open Scope nat_scope.

(* ===================================================================== *)
(** * Part I: definitions *)
(* ===================================================================== *)

(** ** JavaScript strings

    A JavaScript string is a sequence of UTF-16 code units; a code unit is a
    number below 65536, kept here as an [N]. *)

Abbreviation jsstring := (list N).

Module Js.

(** A literal of the source, written as a Rocq string (ASCII only). *)
Definition lit (s : string) : jsstring :=
  N_of_ascii <$> list_ascii_of_string s.
Global Arguments lit : simpl never.

(** [s.slice(start, end)]: a negative index counts from the end, both are
    clamped to [0 .. s.length]; a missing [end] is [s.length]. *)
Definition clampIndex (len : nat) (i : Z) : nat :=
  if (i <? 0)%Z then Z.to_nat (Z.max (Z.of_nat len + i) 0)
  else Nat.min (Z.to_nat i) len.

Definition slice (s : jsstring) (start : Z) (stop : option Z) : jsstring :=
  let len := length s in
  let from := clampIndex len start in
  let to := match stop with Some e => clampIndex len e | None => len end in
  take (to - from) (drop from s).

(** The characters [\s] matches, which are also the ones [trim] removes:
    WhiteSpace and LineTerminator of ECMAScript. *)
Definition isSpace (c : N) : bool :=
  ((9 <=? c) && (c <=? 13) || (c =? 32) || (c =? 160) || (c =? 5760)
   || (8192 <=? c) && (c <=? 8202) || (c =? 8232) || (c =? 8233)
   || (c =? 8239) || (c =? 8287) || (c =? 12288) || (c =? 65279))%N.

Fixpoint trimStart (s : jsstring) : jsstring :=
  match s with
  | c :: s' => if isSpace c then trimStart s' else s
  | [] => []
  end.

Definition trimEnd (s : jsstring) : jsstring := rev (trimStart (rev s)).

Definition trim (s : jsstring) : jsstring := trimEnd (trimStart s).

(** [lines.join(sep)]. *)
Fixpoint join (sep : jsstring) (parts : list jsstring) : jsstring :=
  match parts with
  | [] => []
  | [p] => p
  | p :: rest => p ++ sep ++ join sep rest
  end.

Definition comma : N := 44.
Definition newline : N := 10.
Definition space : N := 32.
Definition gt : N := 62.
Definition lt : N := 60.
Definition quote : N := 34.

(** [/,\s*$/.test(s)]: a comma followed by white space only, up to the end. *)
Definition endsWithComma (s : jsstring) : bool :=
  match trimStart (rev s) with
  | c :: _ => (c =? comma)%N
  | [] => false
  end.

(** [/^\s*[\)\]:]/.test(s)]: after leading white space, one of [)], []] and
    [:]. *)
Definition startsWithClosing (s : jsstring) : bool :=
  match trimStart s with
  | c :: _ => ((c =? 41) || (c =? 93) || (c =? 58))%N
  | [] => false
  end.

(** [s.replace(/\n/g, ' ')]. *)
Definition replaceNewlines (s : jsstring) : jsstring :=
  (fun c => if (c =? newline)%N then space else c) <$> s.

(** [s.replace(/>\s+</g, '><')], read left to right.  [pending] is [Some ws]
    after a [>] that has been copied to the output, [ws] being the white
    space seen since and not yet copied: it is dropped when a [<] follows
    (and [ws] is not empty), and copied otherwise. *)
Fixpoint collapseBetweenTags (pending : option jsstring) (s : jsstring)
  : jsstring :=
  match s with
  | [] => default [] pending
  | c :: s' =>
      match pending with
      | None =>
          c :: collapseBetweenTags (if (c =? gt)%N then Some [] else None) s'
      | Some ws =>
          if isSpace c then collapseBetweenTags (Some (ws ++ [c])) s'
          else if (c =? lt)%N then c :: collapseBetweenTags None s'
          else ws ++ c ::
               collapseBetweenTags (if (c =? gt)%N then Some [] else None) s'
      end
  end.

End Js.

(** ** The template compiler ([packages/compiler/src/compile.js]) *)

Module Compiler.
Import Js.

(** An object with string values, as [node.attributes] is. *)
Abbreviation Attrs := (list (jsstring * jsstring)).

(** A node of the parsed template.  [nodeType] 1 is an element and 3 a text
    node; [#addNode] ignores every other kind. *)
Inductive Node :=
| ElementNode (rawTagName : jsstring) (attributes : Attrs)
              (childNodes : list Node)
| TextNode (rawText : jsstring)
| OtherNode (nodeType : N).

(** Induction on a node, with the property at hand for every child. *)
Section NodeInduction.
Variable P : Node -> Prop.
Hypothesis element :
  forall tag attributes children,
    Forall P children -> P (ElementNode tag attributes children).
Hypothesis text : forall rawText, P (TextNode rawText).
Hypothesis other : forall nodeType, P (OtherNode nodeType).

Fixpoint Node_nested_ind (n : Node) : P n :=
  match n with
  | ElementNode tag attributes children =>
      element tag attributes children
        ((fix all (ns : list Node) : Forall P ns :=
            match ns with
            | [] => List.Forall_nil P
            | n' :: ns' =>
                List.Forall_cons P n' ns' (Node_nested_ind n') (all ns')
            end) children)
  | TextNode rawText => text rawText
  | OtherNode nodeType => other nodeType
  end.
End NodeInduction.

(** The [directives] object of [splitAttributes]: ['for' in directives] is
    [is_Some (dFor d)], and [directives.for] its value. *)
Record Directives := {
  dFor : option jsstring;
  dShow : option jsstring;
}.

Record SplitAttributes := {
  attrs : Attrs;
  bindings : Attrs;
  events : Attrs;
  directives : Directives;
}.

(** What [formatForDirective] returns. *)
Record ForDirective := {
  line : jsstring;
  closing : jsstring;
}.

(** The functions [compile.js] imports from [node-html-parser] and from its
    sibling modules; the compiler is stated over any such functions.
    [parse] gives the [childNodes] of the root it returns. *)
Class Helpers := {
  parse : jsstring -> list Node;
  normalizeTagName : jsstring -> jsstring;
  splitAttributes : Attrs -> SplitAttributes;
  extractProps : Attrs -> Attrs -> Attrs -> jsstring;
  formatForDirective : jsstring -> ForDirective;
  addThisContext : jsstring -> jsstring;
  interpolateVariables : jsstring -> jsstring;
}.

(** The private fields [#lines], [#stack] ([stack[0]] is the head) and
    [#imports]. *)
Record State := {
  lines : list jsstring;
  stack : list jsstring;
  imports : gset jsstring;
}.

(** How a step can go wrong. [TypeError]: the source calls [.slice] on
    [undefined]. [UndefinedLine]: [#stack.shift()] on an empty stack gives
    [undefined], which the source would push as a line; the model stops
    there (see [compile_total]: [compile] never gets there). *)
Inductive Failure := TypeError | UndefinedLine.

Inductive Res (A : Type) :=
| Ok (a : A)
| Err (e : Failure).
Arguments Ok {A} a.
Arguments Err {A} e.

(** A failure ends the run: [x ← m; k] goes on with [k] when [m] is [Ok]. *)
#[global] Instance bind : MBind Res := fun A B k m =>
  match m with
  | Ok a => k a
  | Err e => Err e
  end.

Definition hFragment : jsstring := lit "hFragment".
Definition hElement : jsstring := lit "h".
Definition hString : jsstring := lit "hString".

(** [#reset]. *)
Definition reset : State :=
  {| lines := [lit "function render() {"; lit "return ("];
     stack := [lit ")"; lit "}"];
     imports := ∅ |}.

(** [this.#lines.push(l)]. *)
Definition pushLine (l : jsstring) (st : State) : State :=
  {| lines := lines st ++ [l]; stack := stack st; imports := imports st |}.

(** [this.#stack.unshift(l)]. *)
Definition unshift (l : jsstring) (st : State) : State :=
  {| lines := lines st; stack := l :: stack st; imports := imports st |}.

(** [this.#imports.add(name)]. *)
Definition addImport (name : jsstring) (st : State) : State :=
  {| lines := lines st; stack := stack st;
     imports := {[ name ]} ∪ imports st |}.

(** The body of [#addLineFromStack] once [line] has been shifted off the
    stack: the clean-up of the previous line, then the push. *)
Definition appendLine (ls : list jsstring) (l : jsstring) : list jsstring :=
  let prevIdx := length ls - 1 in
  match last ls with
  | Some prevLine =>
      if endsWithComma prevLine && startsWithClosing l
      then <[prevIdx := slice prevLine 0 (Some (-1)%Z)]> ls ++ [l]
      else ls ++ [l]
  | None => ls ++ [l]
  end.

(** [#addLineFromStack]. *)
Definition addLineFromStack (st : State) : Res State :=
  match stack st with
  | l :: stack' =>
      Ok {| lines := appendLine (lines st) l; stack := stack';
            imports := imports st |}
  | [] => Err UndefinedLine
  end.

(** [while (closingsCount--) this.#addLineFromStack()]. *)
Fixpoint addLinesFromStack (closingsCount : nat) (st : State) : Res State :=
  match closingsCount with
  | 0 => Ok st
  | S n => st' ← addLineFromStack st; addLinesFromStack n st'
  end.

(** The two assignments between [-- start --] and [-- end --] of
    [#addElement]: the last line loses its last two characters and
    [stack[0]] its first one. *)
Definition openLoop (st : State) : Res State :=
  match last (lines st), stack st with
  | Some prev, top :: rest =>
      Ok {| lines := <[length (lines st) - 1 := slice prev 0 (Some (-2)%Z)]>
                       (lines st);
            stack := slice top 1 None :: rest;
            imports := imports st |}
  | _, _ => Err TypeError
  end.

Section WithHelpers.
Context `{Helpers}.

(** [#addText]. *)
Definition addText (rawText : jsstring) (st : State) : State :=
  let text := trim rawText in
  match text with
  | [] => st
  | _ :: _ =>
      addImport hString
        (pushLine (lit "hString(" ++ interpolateVariables text ++ lit "),") st)
  end.

(** The part of [#addElement] before the children: the [for] opener, the
    [show] opener and the element opener, each with its closer put on the
    stack; the result comes with [closingsCount]. *)
Definition forOpener (d : Directives) (acc : nat * State)
  : Res (nat * State) :=
  match dFor d with
  | Some expr =>
      let f := formatForDirective expr in
      st ← openLoop acc.2;
      Ok (S acc.1, unshift (closing f) (pushLine (line f) st))
  | None => Ok acc
  end.

Definition showOpener (d : Directives) (acc : nat * State) : nat * State :=
  match dShow d with
  | Some expr =>
      let condition := addThisContext expr in
      (S acc.1, unshift (lit ": null") (pushLine (condition ++ lit " ?") acc.2))
  | None => acc
  end.

Definition elementOpener (tag props : jsstring) (st : State) : State :=
  unshift (lit "]),")
    (addImport hElement
       (pushLine (lit "h(" ++ tag ++ lit ", " ++ props ++ lit ", [") st)).

Definition openElement (rawTagName : jsstring) (attributes : Attrs)
  (st : State) : Res (nat * State) :=
  let tag := normalizeTagName rawTagName in
  let split := splitAttributes attributes in
  let props := extractProps (attrs split) (bindings split) (events split) in
  acc ← forOpener (directives split) (1, st);
  let acc := showOpener (directives split) acc in
  Ok (acc.1, elementOpener tag props acc.2).

(** [#addNode], with [#addElement] in its element case. *)
Fixpoint addNode (node : Node) (st : State) {struct node} : Res State :=
  match node with
  | ElementNode rawTagName attributes childNodes =>
      opened ← openElement rawTagName attributes st;
      st' ← (fix forEach (nodes : list Node) (st : State) : Res State :=
                match nodes with
                | [] => Ok st
                | n :: nodes' =>
                    st' ← addNode n st; forEach nodes' st'
                end) childNodes opened.2;
      addLinesFromStack opened.1 st'
  | TextNode rawText => Ok (addText rawText st)
  | OtherNode _ => Ok st
  end.

(** [for (const node of childNodes) this.#addNode(node)]. *)
Fixpoint addNodes (nodes : list Node) (st : State) : Res State :=
  match nodes with
  | [] => Ok st
  | n :: nodes' => st' ← addNode n st; addNodes nodes' st'
  end.

(** [while (this.#stack.length) this.#addLineFromStack()]: one turn for each
    entry of the stack, as each turn shifts one entry off. *)
Definition drainStack (st : State) : Res State :=
  addLinesFromStack (length (stack st)) st.

(** [normalize]. *)
Definition normalize (str : jsstring) : jsstring :=
  trim (collapseBetweenTags None (replaceNewlines str)).

(** The fragment wrapper of [compile]. *)
Definition openFragment (st : State) : State :=
  unshift (lit "])")
    (addImport hFragment (pushLine (lit "h(Fragment, {}, [") st)).

Record Compiled := {
  compiledImports : gset jsstring;
  code : jsstring;
}.

(** [compile]. *)
Definition compile (template : jsstring) : Res Compiled :=
  let childNodes := parse (normalize template) in
  let st :=
    if decide (1 < length childNodes) then openFragment reset else reset in
  st ← addNodes childNodes st;
  st ← drainStack st;
  Ok {| compiledImports := imports st; code := join (lit " ") (lines st) |}.

End WithHelpers.

(** *** What the walk keeps

    [linesKept ls ls']: [ls] is not empty, and [ls'] is [ls] with its last
    line possibly cut at the end and lines added after it. *)
Definition linesKept (ls ls' : list jsstring) : Prop :=
  1 <= length ls /\ length ls <= length ls' /\
  take (length ls - 1) ls' = take (length ls - 1) ls /\
  exists prev prev', last ls = Some prev /\
    ls' !! (length ls - 1) = Some prev' /\ prev' `prefix_of` prev.

(** [stackKept s s']: [s] is not empty, and [s'] is [s] with its head
    possibly cut at the front. *)
Definition stackKept (s s' : list jsstring) : Prop :=
  exists k top rest, s = top :: rest /\ s' = drop k top :: rest.

(** [kept st st']: the lines and the stack are kept in this sense, and the
    imports only grow, by [h] and [hString] at most. *)
Definition kept (st st' : State) : Prop :=
  linesKept (lines st) (lines st') /\
  stackKept (stack st) (stack st') /\
  imports st ⊆ imports st' /\
  imports st' ⊆ {[ hElement; hString ]} ∪ imports st.

(** A node walks: from a state with a line and a closer, [#addNode] ends
    without an error and keeps what [kept] says. *)
Definition walks `{Helpers} (node : Node) : Prop :=
  forall st, lines st <> [] -> stack st <> [] ->
    exists st', addNode node st = Ok st' /\ kept st st'.

(** What [#addLineFromStack] leaves of the previous line [prev] when it
    appends [l]. *)
Definition cleanPrev (prev l : jsstring) : jsstring :=
  if endsWithComma prev && startsWithClosing l
  then slice prev 0 (Some (-1)%Z) else prev.

(** *** Stand-ins for the examples

    The examples need the imported helpers to be some functions. These are
    stand-ins, not the repository's: [parse] answers with the forest it is
    given (what the parser makes of the example's template); a tag is put
    between quotes; the directives are the attributes [for] and [show]; the
    props are [{}]; a loop is [each(<expr>, () =>] ... [)]; a condition gets
    [this.] in front; a text is put between back quotes.  The general lemmas
    do not depend on them. *)
Definition attribute (name : jsstring) (a : Attrs) : option jsstring :=
  snd <$> List.find (fun kv => bool_decide (kv.1 = name)) a.

Definition sampleHelpers (forest : list Node) : Helpers :=
  {| parse := fun _ => forest;
     normalizeTagName := fun tag => lit "'" ++ tag ++ lit "'";
     splitAttributes := fun a =>
       {| attrs := a; bindings := []; events := [];
          directives := {| dFor := attribute (lit "for") a;
                           dShow := attribute (lit "show") a |} |};
     extractProps := fun _ _ _ => lit "{}";
     formatForDirective := fun expr =>
       {| line := lit "each(" ++ expr ++ lit ", () =>";
          closing := lit ")" |};
     addThisContext := fun expr => lit "this." ++ expr;
     interpolateVariables := fun text => lit "`" ++ text ++ lit "`" |}.


(** [<div><p for='a in as'></p><p for='b in bs'></p><span></span></div>] *)
Definition twoLoopsTemplate : jsstring :=
  lit "<div><p for='a in as'></p><p for='b in bs'></p><span></span></div>".

Definition twoLoops : Node :=
  ElementNode (lit "div") []
    [ElementNode (lit "p") [(lit "for", lit "a in as")] [];
     ElementNode (lit "p") [(lit "for", lit "b in bs")] [];
     ElementNode (lit "span") [] []].

(** [/,\s*[\)\]:]/.test(s)]: somewhere in [s] a comma is followed, after
    white space only, by one of [)], []] and [:]. *)
Fixpoint commaBeforeClosing (s : jsstring) : bool :=
  match s with
  | [] => false
  | c :: s' => (c =? comma)%N && startsWithClosing s' || commaBeforeClosing s'
  end.

End Compiler.

(** ** The hash router

    What both routers share: routes, matchers, the browser they run in and
    the effects an observer sees. *)

Module Routing.
Import Js.

(** An object with string values, as [params] and [query] are. *)
Abbreviation Dict := (list (jsstring * jsstring)).

(** A route as the user writes it: [{ path, component }] or
    [{ path, redirect }].  A component is an opaque value, known here by a
    number. *)
Record Route := {
  path : jsstring;
  component : option N;
  redirect : option jsstring;
}.

(** What [makeRouteMatcher] (of [route-matchers], not among the files at
    hand) makes of a route.  The router only calls these. *)
Record RouteMatcher := {
  route : Route;
  checkMatch : jsstring -> bool;
  extractParams : jsstring -> Dict;
  extractQuery : jsstring -> Dict;
}.

(** Modelled from the spec: [matcher.isRedirect], a field [makeRouteMatcher]
    sets. The spec's data model says that [redirect] marks a redirect-only
    route, so the field is read off the route: [Some target] stands for an
    [isRedirect] that holds, [target] being [matcher.route.redirect]. *)
Definition isRedirect (m : RouteMatcher) : option jsstring :=
  redirect (route m).

(** The values a guard can resolve to. *)
Inductive JsValue :=
| VUndefined
| VNull
| VBool (b : bool)
| VNumber (n : Z)
| VString (s : jsstring)
| VObject (fields : list (jsstring * JsValue)).

(** How the promise a guard returns settles. *)
Inductive Settled :=
| Fulfilled (v : JsValue)
| Rejected (reason : JsValue).

(** A guard, called with [from?.path] ([None] is [undefined]) and
    [to?.path].  A guard is taken to be a function of its arguments that
    settles and leaves the router alone. *)
Abbreviation RouteGuard := (option jsstring -> jsstring -> Settled).

(** What an observer sees, in the order it happens: the warning on the
    console, the writes to the history, the listener added to the window,
    the event handed to the dispatcher (what the subscribers do with it is
    theirs), and the calls of the guards. *)
Inductive Event :=
| Warn (message : jsstring)
| ReplaceState (url : jsstring)
| PushState (url : jsstring)
| AddEventListener (listener : nat)
| Dispatch (from : option Route) (to : Route)
| GuardCall (index : nat) (from : option jsstring) (to : jsstring).

Inductive Exception :=
| TypeError
| GuardRejection (reason : JsValue).

(** The router's private fields, and after them the browser: the hash of
    [document.location], the [popstate] listeners of [window], and the log of
    what happened. [onPopState] is the identity of the arrow function kept in
    [#onPopState]. *)
Record State := {
  matchers : list RouteMatcher;
  matchedRoute : option Route;
  params : Dict;
  query : Dict;
  guards : list RouteGuard;
  isInitialized : bool;
  onPopState : nat;
  hash : jsstring;
  listeners : list nat;
  events : list Event;
}.

(** [new HashRouter(routes)], given the matchers [makeRouteMatcher] made of
    the routes, in a browser in state ([hash], [listeners], [events]). *)
Definition newRouter (ms : list RouteMatcher) (self : nat) (h : jsstring)
  (ls : list nat) (evs : list Event) : State :=
  {| matchers := ms; matchedRoute := None; params := []; query := [];
     guards := []; isInitialized := false; onPopState := self;
     hash := h; listeners := ls; events := evs |}.

(** The events [es] happen, in this order. *)
Definition logEvents (es : list Event) (st : State) : State :=
  {| matchers := matchers st; matchedRoute := matchedRoute st;
     params := params st; query := query st; guards := guards st;
     isInitialized := isInitialized st; onPopState := onPopState st;
     hash := hash st; listeners := listeners st;
     events := events st ++ es |}.

Definition emit (e : Event) (st : State) : State := logEvents [e] st.

(** The three assignments to [#matchedRoute], [#params] and [#query]. *)
Definition setMatch (r : option Route) (p q : Dict) (st : State) : State :=
  {| matchers := matchers st; matchedRoute := r; params := p; query := q;
     guards := guards st; isInitialized := isInitialized st;
     onPopState := onPopState st; hash := hash st;
     listeners := listeners st; events := events st |}.

Definition setInitialized (b : bool) (st : State) : State :=
  {| matchers := matchers st; matchedRoute := matchedRoute st;
     params := params st; query := query st; guards := guards st;
     isInitialized := b; onPopState := onPopState st; hash := hash st;
     listeners := listeners st; events := events st |}.

Definition setHash (h : jsstring) (st : State) : State :=
  {| matchers := matchers st; matchedRoute := matchedRoute st;
     params := params st; query := query st; guards := guards st;
     isInitialized := isInitialized st; onPopState := onPopState st;
     hash := h; listeners := listeners st; events := events st |}.

Definition setListeners (ls : list nat) (st : State) : State :=
  {| matchers := matchers st; matchedRoute := matchedRoute st;
     params := params st; query := query st; guards := guards st;
     isInitialized := isInitialized st; onPopState := onPopState st;
     hash := hash st; listeners := ls; events := events st |}.

(** [addGuard]. *)
Definition addGuard (g : RouteGuard) (st : State) : State :=
  {| matchers := matchers st; matchedRoute := matchedRoute st;
     params := params st; query := query st; guards := guards st ++ [g];
     isInitialized := isInitialized st; onPopState := onPopState st;
     hash := hash st; listeners := listeners st; events := events st |}.

(** *** The browser: the hash of a URL

    [pushState] and [replaceState] hand their URL to the URL parser of the
    browser (URL Standard), with the URL of the document as the base. As
    far as the hash goes, the parser
    - removes the C0 controls and the spaces at both ends of the input, and
      the tabs and newlines anywhere in it;
    - takes what follows the first [#] as the fragment; and
    - percent-encodes, as UTF-8, every code point of it that is in the
      fragment percent-encode set: the C0 controls, the space, the double
      quote, [<], [>], the back quote and everything above [~].
    [document.location.hash] is then [#] and the fragment, or the empty
    string for an empty fragment and for a URL without one. *)
Definition isC0ControlOrSpace (c : N) : bool := (c <=? 32)%N.

Definition isTabOrNewline (c : N) : bool :=
  ((c =? 9) || (c =? 10) || (c =? 13))%N.

Fixpoint dropC0 (s : jsstring) : jsstring :=
  match s with
  | c :: s' => if isC0ControlOrSpace c then dropC0 s' else s
  | [] => []
  end.

Definition stripC0 (s : jsstring) : jsstring :=
  rev (dropC0 (rev (dropC0 s))).

Definition isHighSurrogate (c : N) : bool :=
  ((55296 <=? c) && (c <=? 56319))%N.

Definition isLowSurrogate (c : N) : bool :=
  ((56320 <=? c) && (c <=? 57343))%N.

(** The code points of a string of code units: a surrogate pair is one code
    point, and a surrogate that stands alone is U+FFFD. *)
Fixpoint scalarValues (s : jsstring) : list N :=
  match s with
  | [] => []
  | c :: s' =>
      if isHighSurrogate c then
        match s' with
        | low :: s'' =>
            if isLowSurrogate low
            then (65536 + (c - 55296) * 1024 + (low - 56320))%N
                 :: scalarValues s''
            else 65533%N :: scalarValues s'
        | [] => [65533%N]
        end
      else if isLowSurrogate c then 65533%N :: scalarValues s'
      else c :: scalarValues s'
  end.

(** The bytes of a code point in UTF-8. *)
Definition utf8 (cp : N) : list N :=
  (if cp <? 128 then [cp]
   else if cp <? 2048 then [192 + cp / 64; 128 + cp mod 64]
   else if cp <? 65536 then
     [224 + cp / 4096; 128 + (cp / 64) mod 64; 128 + cp mod 64]
   else
     [240 + cp / 262144; 128 + (cp / 4096) mod 64; 128 + (cp / 64) mod 64;
      128 + cp mod 64])%N.

Definition hexDigit (n : N) : N :=
  (if n <? 10 then 48 + n else 55 + n)%N.

(** [%] and the two upper-case hexadecimal digits of a byte. *)
Definition percentEncode (byte : N) : jsstring :=
  [37; hexDigit (byte / 16); hexDigit (byte mod 16)]%N.

Definition inFragmentPercentEncodeSet (cp : N) : bool :=
  ((cp <=? 32) || (cp =? 34) || (cp =? 60) || (cp =? 62) || (cp =? 96)
   || (126 <? cp))%N.

Definition encodeFragment (fragment : jsstring) : jsstring :=
  flat_map
    (fun cp =>
       if inFragmentPercentEncodeSet cp
       then flat_map percentEncode (utf8 cp)
       else [cp])
    (scalarValues fragment).

(** What follows the first [#], if there is one. *)
Fixpoint fragmentOf (input : jsstring) : option jsstring :=
  match input with
  | [] => None
  | c :: input' => if (c =? 35)%N then Some input' else fragmentOf input'
  end.

(** [document.location.hash] after the URL became [url], resolved against
    the URL of the document. *)
Definition hashOfUrl (url : jsstring) : jsstring :=
  let input :=
    List.filter (fun c => negb (isTabOrNewline c)) (stripC0 url) in
  match fragmentOf input with
  | Some fragment =>
      match encodeFragment fragment with
      | [] => []
      | (_ :: _) as encoded => 35%N :: encoded
      end
  | None => []
  end.

(** A character the parser leaves as it is, at the end of a URL too: a
    printable ASCII character other than the space, the double quote,
    [<], [>] and the back quote. *)
Definition isPlain (c : N) : bool :=
  ((33 <=? c) && (c <=? 126)
   && negb ((c =? 34) || (c =? 60) || (c =? 62) || (c =? 96)))%N.

(** [window.history.replaceState({}, '', url)]. *)
Definition replaceState (url : jsstring) (st : State) : State :=
  setHash (hashOfUrl url) (emit (ReplaceState url) st).

(** [#pushState]: [window.history.pushState({}, '', `#${path}`)]. *)
Definition pushState (p : jsstring) (st : State) : State :=
  let url := lit "#" ++ p in
  setHash (hashOfUrl url) (emit (PushState url) st).

(** [window.addEventListener('popstate', this.#onPopState)]: the browser
    keeps a listener once. *)
Definition addEventListener (st : State) : State :=
  let st := emit (AddEventListener (onPopState st)) st in
  if decide (onPopState st ∈ listeners st) then st
  else setListeners (listeners st ++ [onPopState st]) st.

(** [#currentRouteHash]. *)
Definition currentRouteHash (st : State) : jsstring :=
  match hash st with
  | [] => lit "/"
  | h => slice h 1 None
  end.

(** [console.warn(`[Router] No route matches path "${path}"`)]. *)
Definition warnNoRoute (p : jsstring) (st : State) : State :=
  emit (Warn (lit "[Router] No route matches path " ++ [quote] ++ p
              ++ [quote])) st.

(** [this.#matchers.find((matcher) => matcher.checkMatch(path))]. *)
Definition findMatcher (p : jsstring) (st : State) : option RouteMatcher :=
  List.find (fun m => checkMatch m p) (matchers st).

(** *** Stand-ins for the examples

    [exactMatcher] stands for what [makeRouteMatcher] makes of a route
    without parameters: it matches the route's own path and nothing else. *)
Definition exactMatcher (r : Route) : RouteMatcher :=
  {| route := r;
     checkMatch := fun p => bool_decide (p = path r);
     extractParams := fun _ => [];
     extractQuery := fun _ => [] |}.

Definition routeHome : Route :=
  {| path := lit "/"; component := Some 0%N; redirect := None |}.
Definition routeOne : Route :=
  {| path := lit "/one"; component := Some 1%N; redirect := None |}.
Definition routeTwo : Route :=
  {| path := lit "/two"; component := Some 2%N; redirect := None |}.
Definition routeOld : Route :=
  {| path := lit "/old"; component := None; redirect := Some (lit "/one") |}.
Definition routeLoop : Route :=
  {| path := lit "/loop"; component := None;
     redirect := Some (lit "/loop") |}.

(** A router over these routes, in a browser at [#/] with no listener and
    nothing logged, with the guards [gs] added in this order. *)
Definition sampleRouter (gs : list RouteGuard) : State :=
  foldl (fun st g => addGuard g st)
    (newRouter
       (exactMatcher <$> [routeHome; routeOne; routeTwo; routeOld; routeLoop])
       0 (lit "#/") [] [])
    gs.

Definition allowGuard : RouteGuard := fun _ _ => Fulfilled (VBool true).
Definition blockGuard : RouteGuard := fun _ _ => Fulfilled (VBool false).
Definition silentGuard : RouteGuard := fun _ _ => Fulfilled VUndefined.
(** [async (from, to) => to === '/two' ? { path: '/one' } : true] *)
Definition divertGuard : RouteGuard := fun _ to =>
  if bool_decide (to = lit "/two")
  then Fulfilled (VObject [(lit "path", VString (lit "/one"))])
  else Fulfilled (VBool true).

End Routing.

(** ** [packages/runtime/src/router.js]

    One call at a time: what another call of [navigateTo] does while this
    one awaits a guard is not part of the model. *)

Module Router.
Import Js Routing.

(** [NavigationGuardResult]. *)
Record NavigationGuardResult := {
  shouldRedirect : bool;
  shouldNavigate : bool;
  redirectPath : option jsstring;
}.

(** [result.path]: reading a property of [undefined] or [null] throws; a
    boolean, a number and a string have no [path]; an object has the one
    among its fields, if any. *)
Definition getPath (result : JsValue) : Exception + JsValue :=
  match result with
  | VUndefined | VNull => inl TypeError
  | VBool _ | VNumber _ | VString _ => inr VUndefined
  | VObject fields =>
      inr (default VUndefined
             (snd <$> List.find (fun kv => bool_decide (kv.1 = lit "path"))
                        fields))
  end.

(** The loop of [#canChangeRoute] over the guards from number [index] on.
    Every call of a guard is logged. *)
Fixpoint canChangeRouteFrom (index : nat) (gs : list RouteGuard)
  (from : option jsstring) (to : jsstring) (st : State)
  : (Exception + NavigationGuardResult) * State :=
  match gs with
  | [] =>
      (inr {| shouldRedirect := false; shouldNavigate := true;
              redirectPath := None |}, st)
  | guard :: gs' =>
      let st := emit (GuardCall index from to) st in
      match guard from to with
      | Rejected reason => (inl (GuardRejection reason), st)
      | Fulfilled (VBool false) =>
          (inr {| shouldRedirect := false; shouldNavigate := false;
                  redirectPath := None |}, st)
      | Fulfilled result =>
          match getPath result with
          | inl e => (inl e, st)
          | inr (VString p) =>
              (inr {| shouldRedirect := true; shouldNavigate := false;
                      redirectPath := Some p |}, st)
          | inr _ => canChangeRouteFrom (S index) gs' from to st
          end
      end
  end.

(** [#canChangeRoute]. *)
Definition canChangeRoute (from : option jsstring) (to : jsstring)
  (st : State) : (Exception + NavigationGuardResult) * State :=
  canChangeRouteFrom 0 (guards st) from to st.

(** Which [return] of [navigateTo] ended the call. The source resolves to
    [undefined] at each of them; [Threw] is a rejected promise. *)
Inductive Outcome :=
| NoMatch
| Blocked
| Committed
| Threw (e : Exception).

(** [navigateTo]. The source calls itself on a redirect with no bound, so
    the model counts the calls: [None] when [fuel] calls were not enough.
    [#canChangeRoute] sets [shouldRedirect] together with a path
    ([verdict_redirect_path]), so the branch without one is never taken. *)
Fixpoint navigateTo (fuel : nat) (p : jsstring) (st : State)
  : option (Outcome * State) :=
  match fuel with
  | 0 => None
  | S fuel' =>
      match findMatcher p st with
      | None =>
          Some (NoMatch, setMatch None [] [] (warnNoRoute p st))
      | Some matcher =>
          match isRedirect matcher with
          | Some target => navigateTo fuel' target st
          | None =>
              let from := matchedRoute st in
              let to := route matcher in
              match canChangeRoute (path <$> from) (path to) st with
              | (inl e, st) => Some (Threw e, st)
              | (inr r, st) =>
                  if shouldRedirect r then
                    match redirectPath r with
                    | Some target => navigateTo fuel' target st
                    | None => Some (Threw TypeError, st)
                    end
                  else if shouldNavigate r then
                    let st :=
                      setMatch (Some (route matcher))
                        (extractParams matcher p) (extractQuery matcher p) st
                    in
                    let st := pushState p st in
                    Some (Committed, emit (Dispatch from to) st)
                  else Some (Blocked, st)
              end
          end
      end
  end.

(** *** Views of the guard chain, for the statements

    What one turn of the loop of [#canChangeRoute] does with a settled
    guard: [passes] when the loop goes on to the next guard, [diverts] with
    the path when it returns a redirection. *)
Definition passes (s : Settled) : bool :=
  match s with
  | Fulfilled (VBool false) => false
  | Fulfilled result =>
      match getPath result with
      | inr (VString _) => false
      | inr _ => true
      | inl _ => false
      end
  | Rejected _ => false
  end.

Definition diverts (s : Settled) : option jsstring :=
  match s with
  | Fulfilled (VBool false) => None
  | Fulfilled result =>
      match getPath result with
      | inr (VString p) => Some p
      | _ => None
      end
  | Rejected _ => None
  end.

(** An allow as the spec has it: [true] or [undefined]. *)
Definition specAllows (s : Settled) : bool :=
  match s with
  | Fulfilled (VBool true) | Fulfilled VUndefined => true
  | _ => false
  end.

(** The log of the calls of the guards number [index] to [index + n - 1]. *)
Definition guardCalls (index n : nat) (from : option jsstring)
  (to : jsstring) : list Event :=
  (fun i => GuardCall i from to) <$> seq index n.

Definition isGuardCall (e : Event) : bool :=
  match e with
  | GuardCall _ _ _ => true
  | _ => false
  end.

Definition isDispatch (e : Event) : bool :=
  match e with
  | Dispatch _ _ => true
  | _ => false
  end.

(** What the guards from [gs] on decide, and how many of them are called;
    [canChangeRouteFrom_verdict] relates it to [#canChangeRoute]. *)
Fixpoint verdict (gs : list RouteGuard) (from : option jsstring)
  (to : jsstring) : (Exception + NavigationGuardResult) * nat :=
  match gs with
  | [] =>
      (inr {| shouldRedirect := false; shouldNavigate := true;
              redirectPath := None |}, 0)
  | guard :: gs' =>
      match guard from to with
      | Rejected reason => (inl (GuardRejection reason), 1)
      | Fulfilled (VBool false) =>
          (inr {| shouldRedirect := false; shouldNavigate := false;
                  redirectPath := None |}, 1)
      | Fulfilled result =>
          match getPath result with
          | inl e => (inl e, 1)
          | inr (VString p) =>
              (inr {| shouldRedirect := true; shouldNavigate := false;
                      redirectPath := Some p |}, 1)
          | inr _ =>
              let v := verdict gs' from to in (v.1, S v.2)
          end
      end
  end.

(** The approved branch of [navigateTo]: the state after the navigation to
    [p], matched by [matcher], is committed. *)
Definition commit (matcher : RouteMatcher) (p : jsstring) (st : State)
  : State :=
  emit (Dispatch (matchedRoute st) (route matcher))
    (pushState p
       (setMatch (Some (route matcher)) (extractParams matcher p)
          (extractQuery matcher p) st)).

(** Where [navigateTo p] calls itself, if it does: the target of a
    redirect-only route, or the path a guard redirects to. *)
Definition nextPath (st : State) (p : jsstring) : option jsstring :=
  match findMatcher p st with
  | None => None
  | Some matcher =>
      match isRedirect matcher with
      | Some target => Some target
      | None =>
          match (verdict (guards st) (path <$> matchedRoute st)
                   (path (route matcher))).1 with
          | inr r => if shouldRedirect r then redirectPath r else None
          | inl _ => None
          end
      end
  end.

(** [#matchCurrentRoute]. *)
Definition matchCurrentRoute (fuel : nat) (st : State)
  : option (Outcome * State) :=
  navigateTo fuel (currentRouteHash st) st.

(** How an [async] method without a value ends. *)
Inductive Completion :=
| Resolved
| RejectedWith (e : Exception).

(** [init]. *)
Definition init (fuel : nat) (st : State) : option (Completion * State) :=
  if isInitialized st then Some (Resolved, st)
  else
    let st :=
      match hash st with
      | [] => replaceState (lit "#/") st
      | _ => st
      end in
    let st := addEventListener st in
    match matchCurrentRoute fuel st with
    | None => None
    | Some (Threw e, st) => Some (RejectedWith e, st)
    | Some (_, st) => Some (Resolved, setInitialized true st)
    end.

End Router.

(** ** The chain of calls of [navigateTo], and one turn of the guards *)

Module Chain.
Import Js Routing Router.

(** The path of the last call in the chain of calls that [navigateTo(p)]
    starts: [p] when [navigateTo(p)] does not call itself, and otherwise the
    last path of the chain of the path it calls itself with. [None] when
    the chain has more than [fuel] calls. *)
Fixpoint finalPath (fuel : nat) (st : State) (p : jsstring)
  : option jsstring :=
  match fuel with
  | 0 => None
  | S fuel' =>
      match nextPath st p with
      | Some q => finalPath fuel' st q
      | None => Some p
      end
  end.

(** One turn of the loop of [#canChangeRoute], on the settled result of the
    guard: what the loop returns or throws in this turn, or [None] when it
    goes on to the next guard. *)
Definition turn (s : Settled) : option (Exception + NavigationGuardResult) :=
  match s with
  | Rejected reason => Some (inl (GuardRejection reason))
  | Fulfilled (VBool false) =>
      Some (inr {| shouldRedirect := false; shouldNavigate := false;
                   redirectPath := None |})
  | Fulfilled result =>
      match getPath result with
      | inl e => Some (inl e)
      | inr (VString p) =>
          Some (inr {| shouldRedirect := true; shouldNavigate := false;
                       redirectPath := Some p |})
      | inr _ => None
      end
  end.

End Chain.

(** ** The router of [src/unnamed/part_000]: synchronous, without guards and
    without redirect routes *)

Module SyncRouter.
Import Js Routing.

(** [#matchRoute]. *)
Definition matchRoute (p : jsstring) (st : State) : State :=
  match findMatcher p st with
  | Some matcher =>
      let from := matchedRoute st in
      let to := route matcher in
      let st :=
        setMatch (Some (route matcher)) (extractParams matcher p)
          (extractQuery matcher p) st in
      emit (Dispatch from to) st
  | None => setMatch None [] [] st
  end.

(** [navigateTo]. *)
Definition navigateTo (p : jsstring) (st : State) : State :=
  let st := matchRoute p st in
  match matchedRoute st with
  | Some _ => pushState p st
  | None => warnNoRoute p st
  end.

(** [#matchCurrentRoute]. *)
Definition matchCurrentRoute (st : State) : State :=
  matchRoute (currentRouteHash st) st.

(** [init]. *)
Definition init (st : State) : State :=
  if isInitialized st then st
  else
    let st :=
      match hash st with
      | [] => replaceState (lit "#/") st
      | _ => st
      end in
    let st := addEventListener st in
    let st := matchCurrentRoute st in
    setInitialized true st.

End SyncRouter.

(** ** The browser fires [popstate]

    The user goes back or forward, or types a hash into the address bar:
    the browser is at the hash [h] and fires [popstate]. A router whose
    listener is among the listeners of the window runs [#onPopState], which
    is [#matchCurrentRoute]; for another router nothing happens ([None] in
    the place of the outcome). *)

Module Popstate.
Import Js Routing.

Definition listening (st : State) : bool :=
  bool_decide (onPopState st ∈ listeners st).

(** [router.js]. *)
Definition popstate (h : jsstring) (fuel : nat) (st : State)
  : option (option Router.Outcome * State) :=
  let st := setHash h st in
  if listening st then
    match Router.matchCurrentRoute fuel st with
    | Some (outcome, st) => Some (Some outcome, st)
    | None => None
    end
  else Some (None, st).

(** [part_000]. *)
Definition syncPopstate (h : jsstring) (st : State) : State :=
  let st := setHash h st in
  if listening st then SyncRouter.matchCurrentRoute st else st.

End Popstate.

(** ** One more view of the guard chain *)

Module Guarding.
Import Js Routing.

(** What one turn of the loop of [#canChangeRoute] throws, if it throws: the
    reason of a guard that rejects, or the [TypeError] of [result.path] on
    [undefined] and on [null]. *)
Definition throws (s : Settled) : option Exception :=
  match s with
  | Rejected reason => Some (GuardRejection reason)
  | Fulfilled VUndefined | Fulfilled VNull => Some TypeError
  | Fulfilled _ => None
  end.

(** [async () => { throw 'no' }] and [async () => null]. *)
Definition rejectGuard : RouteGuard := fun _ _ =>
  Rejected (VString (lit "no")).
Definition nullGuard : RouteGuard := fun _ _ => Fulfilled VNull.

(** [{ path: '*', component }], as [makeRouteMatcher] has to make it by the
    comment of the class: it matches every path. A stand-in, as
    [exactMatcher] is. *)
Definition catchAllMatcher (r : Route) : RouteMatcher :=
  {| route := r;
     checkMatch := fun _ => true;
     extractParams := fun _ => [];
     extractQuery := fun _ => [] |}.

Definition routeNotFound : Route :=
  {| path := lit "*"; component := Some 9%N; redirect := None |}.

End Guarding.

(** ** [subscribe], [unsubscribe], [destroy], [back] and [forward]

    The two routers have these methods word for word. The dispatcher
    ([./dispatcher]) is not among the files; the router only calls its
    [subscribe] and keeps the function it returns, so the model logs the
    calls and knows such a function by the number of the call that returned
    it. A handler is known by a number. *)

Module Lifecycle.
Import Js Routing.

(** What the router asks of the dispatcher, of the window and of the
    history, in the order it does. *)
Inductive Call :=
| Subscribe (handler : nat)
| CallUnsubscribe (token : nat)
| RemoveEventListener (listener : nat)
| HistoryBack
| HistoryForward.

(** The router with its fields [#subscriptions] (a [WeakMap] from a handler
    to the function that unsubscribes it) and [#subscriberFns] (a [Set] of
    handlers, in the order they were added). *)
Record Subscribed := {
  router : State;
  subscriptions : gmap nat nat;
  subscriberFns : list nat;
  calls : list Call;
}.

(** A router as the constructor leaves these fields. *)
Definition unsubscribed (st : State) : Subscribed :=
  {| router := st; subscriptions := ∅; subscriberFns := []; calls := [] |}.

(** [subscribe]. *)
Definition subscribe (handler : nat) (s : Subscribed) : Subscribed :=
  let unsubscribe := length (calls s) in
  {| router := router s;
     subscriptions := <[handler := unsubscribe]> (subscriptions s);
     subscriberFns :=
       if decide (handler ∈ subscriberFns s) then subscriberFns s
       else subscriberFns s ++ [handler];
     calls := calls s ++ [Subscribe handler] |}.

(** [unsubscribe]. *)
Definition unsubscribe (handler : nat) (s : Subscribed) : Subscribed :=
  match subscriptions s !! handler with
  | Some unsubscribe =>
      {| router := router s;
         subscriptions := delete handler (subscriptions s);
         subscriberFns := filter (fun h => h <> handler) (subscriberFns s);
         calls := calls s ++ [CallUnsubscribe unsubscribe] |}
  | None => s
  end.

(** [window.removeEventListener('popstate', this.#onPopState)]. *)
Definition removeEventListener (s : Subscribed) : Subscribed :=
  {| router :=
       setListeners
         (filter (fun l => l <> onPopState (router s)) (listeners (router s)))
         (router s);
     subscriptions := subscriptions s;
     subscriberFns := subscriberFns s;
     calls := calls s ++ [RemoveEventListener (onPopState (router s))] |}.

(** [destroy]. [Array.from(this.#subscriberFns)] is the list of the handlers
    as it is when the loop starts. *)
Definition destroy (s : Subscribed) : Subscribed :=
  if isInitialized (router s) then
    let s := removeEventListener s in
    let s := foldl (fun s handler => unsubscribe handler s) s
               (subscriberFns s) in
    {| router := setInitialized false (router s);
       subscriptions := subscriptions s;
       subscriberFns := subscriberFns s;
       calls := calls s |}
  else s.

(** [back] and [forward]. *)
Definition back (s : Subscribed) : Subscribed :=
  {| router := router s; subscriptions := subscriptions s;
     subscriberFns := subscriberFns s; calls := calls s ++ [HistoryBack] |}.

Definition forward (s : Subscribed) : Subscribed :=
  {| router := router s; subscriptions := subscriptions s;
     subscriberFns := subscriberFns s;
     calls := calls s ++ [HistoryForward] |}.

(** A method of the router that only works on the fields of [State]. *)
Definition onRouter (f : State -> State) (s : Subscribed) : Subscribed :=
  {| router := f (router s); subscriptions := subscriptions s;
     subscriberFns := subscriberFns s; calls := calls s |}.

(** The calls a program makes on these methods. *)
Inductive Op :=
| OpSubscribe (handler : nat)
| OpUnsubscribe (handler : nat)
| OpDestroy
| OpBack
| OpForward.

Definition step (s : Subscribed) (op : Op) : Subscribed :=
  match op with
  | OpSubscribe handler => subscribe handler s
  | OpUnsubscribe handler => unsubscribe handler s
  | OpDestroy => destroy s
  | OpBack => back s
  | OpForward => forward s
  end.

Definition run (ops : list Op) (s : Subscribed) : Subscribed :=
  foldl step s ops.

(** The set and the map hold the same handlers, each once. *)
Definition consistent (s : Subscribed) : Prop :=
  NoDup (subscriberFns s) /\
  forall handler,
    handler ∈ subscriberFns s <-> is_Some (subscriptions s !! handler).

End Lifecycle.

(** ** What a template holds

    Three questions [compile.js] asks of the nodes it walks, asked of a whole
    node: the walk goes through the children of the elements and of nothing
    else. *)

Module Templates.
Import Js Compiler.

(** [node.nodeType === NODE_TYPE.ELEMENT]. *)
Definition isElement (node : Node) : bool :=
  match node with
  | ElementNode _ _ _ => true
  | _ => false
  end.

(** A string of white space, and a string without a newline. *)
Abbreviation blank := (Forall (fun c : N => isSpace c = true)).
Abbreviation noNewline := (Forall (fun c : N => c <> newline)).

(** The lines [added] since an opener, as they are once
    [#addLineFromStack] has pushed the closer [c] after them: the last one
    went through the clean-up. *)
Definition beforeCloser (c : jsstring) (added : list jsstring)
  : list jsstring :=
  match reverse added with
  | [] => []
  | l :: init => reverse init ++ [cleanPrev l c]
  end.

(** [frame walk added]: from every state the walk ends without an error,
    appends the lines [added] after the ones there are and leaves the stack
    as it found it. *)
Definition frame (walk : State -> Res State) (added : list jsstring)
  : Prop :=
  forall st, exists st',
    walk st = Ok st' /\ lines st' = lines st ++ added /\ stack st' = stack st.

(** Lines that show no comma before a closing token when they are joined
    by a space: none has one inside, none is blank, and none that ends with
    a comma is followed by one that begins with a closing token. *)
Fixpoint tidyLines (ls : list jsstring) : bool :=
  match ls with
  | [] => true
  | l :: rest =>
      negb (commaBeforeClosing l) && negb (forallb isSpace l)
      && match rest with
         | [] => true
         | next :: _ => negb (endsWithComma l && startsWithClosing next)
         end
      && tidyLines rest
  end.

(** The first line does not begin with a closing token; the last line does
    not end with a comma. *)
Definition headOpen (ls : list jsstring) : Prop :=
  match ls with
  | l :: _ => startsWithClosing l = false
  | [] => True
  end.

Definition lastNoComma (ls : list jsstring) : Prop :=
  match last ls with
  | Some l => endsWithComma l = false
  | None => True
  end.

(** Lines that are tidy where they stand, after any line, and still when a
    closer is pushed after them. *)
Definition block (ls : list jsstring) : Prop :=
  tidyLines ls = true /\ headOpen ls /\
  forall c, startsWithClosing c = true ->
    tidyLines (beforeCloser c ls) = true /\
    headOpen (beforeCloser c ls) /\ lastNoComma (beforeCloser c ls).

Section WithHelpers.
Context `{Helpers}.

(** What the helpers return for the node and for the nodes below it brings
    no comma before a closing token of its own: not the opener of an
    element, not the condition of a [show], which does not begin with a
    closing token either, and not the call of [hString] for a text. *)
Fixpoint tidy (node : Node) : bool :=
  match node with
  | ElementNode rawTagName attributes childNodes =>
      let split := splitAttributes attributes in
      negb (commaBeforeClosing
              (lit "h(" ++ normalizeTagName rawTagName ++ lit ", "
               ++ extractProps (attrs split) (bindings split) (events split)
               ++ lit ", ["))
      && match dShow (directives split) with
         | Some showExpr =>
             let condition := addThisContext showExpr ++ lit " ?" in
             negb (commaBeforeClosing condition)
             && negb (startsWithClosing condition)
         | None => true
         end
      && forallb tidy childNodes
  | TextNode rawText =>
      let text := trim rawText in
      match text with
      | [] => true
      | _ :: _ =>
          negb (commaBeforeClosing
                  (lit "hString(" ++ interpolateVariables text ++ lit ")"))
      end
  | OtherNode _ => true
  end.

(** ['for' in directives], for the element or for an element below it. *)
Fixpoint hasFor (node : Node) : bool :=
  match node with
  | ElementNode _ attributes childNodes =>
      match dFor (directives (splitAttributes attributes)) with
      | Some _ => true
      | None => existsb hasFor childNodes
      end
  | _ => false
  end.

(** [if (text)] of [#addText], for the text node or for one below the
    element. *)
Fixpoint hasText (node : Node) : bool :=
  match node with
  | ElementNode _ _ childNodes => existsb hasText childNodes
  | TextNode rawText =>
      match trim rawText with
      | [] => false
      | _ :: _ => true
      end
  | OtherNode _ => false
  end.

End WithHelpers.

End Templates.

(* ===================================================================== *)
(** * Part II: properties *)
(* ===================================================================== *)

(** ** Strings *)

Section JsFacts.
Import Js.

(** ['return ('.slice(0, -2)], [')'.slice(1)] and ['abc'.slice(-5, 2)]. *)
Example slice_examples :
  slice (lit "return (") 0 (Some (-2)%Z) = lit "return" /\
  slice (lit ")") 1 None = [] /\
  slice (lit "abc") (-5) (Some 2%Z) = lit "ab".
Proof. by vm_compute. Qed.

(** The two tests of [#addLineFromStack]. *)
Example test_examples :
  endsWithComma (lit "hString(`a`),") = true /\
  endsWithComma (lit "hString(`a`),  ") = true /\
  endsWithComma (lit "h('p', {}, [") = false /\
  startsWithClosing (lit "]),") = true /\
  startsWithClosing (lit " : null") = true /\
  startsWithClosing (lit "}") = false.
Proof. by vm_compute. Qed.

(** [normalize]: a new line becomes a space, the white space between [>]
    and [<] goes, the text keeps its own. *)
Example normalize_example :
  Compiler.normalize
    (lit "  <ul>" ++ [newline] ++ lit "   <li> a  b </li> > <  </ul> ")
  = lit "<ul><li> a  b </li> ><  </ul>".
Proof. by vm_compute. Qed.

Lemma slice_drop_last (s : jsstring) :
  slice s 0 (Some (-1)%Z) = take (length s - 1) s.
Proof.
  unfold slice, clampIndex. simpl.
  rewrite Nat.sub_0_r. f_equal. lia.
Qed.

Lemma slice_drop_last_two (s : jsstring) :
  slice s 0 (Some (-2)%Z) = take (length s - 2) s.
Proof.
  unfold slice, clampIndex. simpl.
  rewrite Nat.sub_0_r. f_equal. lia.
Qed.

Lemma slice_drop_first (s : jsstring) : slice s 1 None = drop 1 s.
Proof.
  unfold slice, clampIndex. simpl.
  destruct s as [|c s]; [done|]. simpl.
  rewrite Nat.sub_0_r, drop_0. apply firstn_all.
Qed.

Lemma slice_snoc (s : jsstring) (c : N) :
  slice (s ++ [c]) 0 (Some (-1)%Z) = s.
Proof.
  rewrite slice_drop_last, length_app. simpl.
  replace (length s + 1 - 1) with (length s) by lia.
  by rewrite take_app_length.
Qed.

Lemma endsWithComma_snoc (s : jsstring) : endsWithComma (s ++ [comma]) = true.
Proof. unfold endsWithComma. by rewrite rev_unit. Qed.

End JsFacts.

(** ** The template compiler *)

Section CompilerFacts.
Import Js Compiler.

Lemma nonempty_length {A} (l : list A) : l <> [] -> 1 <= length l.
Proof. destruct l; [done|]. simpl. lia. Qed.

Lemma last_nonempty {A} (l : list A) : l <> [] -> exists x, last l = Some x.
Proof.
  intros Hne. destruct (last l) as [x|] eqn:E; [by exists x|].
  by apply last_None in E.
Qed.

Lemma last_lookup_length {A} (l : list A) : last l = l !! (length l - 1).
Proof.
  rewrite last_lookup. f_equal. lia.
Qed.

Lemma linesKept_refl ls : ls <> [] -> linesKept ls ls.
Proof.
  intros Hne. destruct (last_nonempty _ Hne) as [prev Hprev].
  apply nonempty_length in Hne. unfold linesKept. split_and!; [done..|].
  exists prev, prev. by rewrite <- last_lookup_length.
Qed.

Lemma linesKept_trans l1 l2 l3 :
  linesKept l1 l2 -> linesKept l2 l3 -> linesKept l1 l3.
Proof.
  intros (H1 & H2 & H3 & p1 & p1' & Hp1 & Hp1' & Hpre1)
         (H4 & H5 & H6 & p2 & p2' & Hp2 & Hp2' & Hpre2).
  unfold linesKept. split_and!; [lia | lia | |].
  - rewrite <- H3.
    replace (length l1 - 1) with ((length l1 - 1) `min` (length l2 - 1))
      by lia.
    rewrite <- !take_take. by rewrite H6.
  - exists p1. destruct (decide (length l1 = length l2)) as [Heq|Hlt].
    + exists p2'. rewrite Heq. split_and!; [done | done |].
      rewrite last_lookup_length, <- Heq, Hp1' in Hp2.
      injection Hp2 as ->. by etrans.
    + exists p1'. split_and!; [done | | done].
      rewrite <- Hp1'.
      rewrite <- (lookup_take_lt l3 (length l2 - 1)) by lia.
      rewrite H6. apply lookup_take_lt. lia.
Qed.

Lemma linesKept_push ls l : ls <> [] -> linesKept ls (ls ++ [l]).
Proof.
  intros Hne. destruct (last_nonempty _ Hne) as [prev Hprev].
  apply nonempty_length in Hne. unfold linesKept. rewrite length_app. simpl.
  split_and!; [lia | lia | by rewrite take_app_le by lia |].
  exists prev, prev. split_and!; [done | | done].
  rewrite lookup_app_l by lia. by rewrite <- last_lookup_length.
Qed.

Lemma linesKept_rewrite_last ls prev l :
  last ls = Some prev -> l `prefix_of` prev ->
  linesKept ls (<[length ls - 1 := l]> ls).
Proof.
  intros Hprev Hpre.
  assert (1 <= length ls) as Hne by (destruct ls; [done | simpl; lia]).
  unfold linesKept. rewrite length_insert.
  split_and!; [lia | lia | by rewrite take_insert_ge by lia |].
  exists prev, l. split_and!; [done | | done].
  apply list_lookup_insert_eq. lia.
Qed.

Lemma slice_prefix (s : jsstring) (e : Z) :
  slice s 0 (Some e) `prefix_of` s.
Proof. unfold slice. simpl. rewrite drop_0. apply prefix_take. Qed.

Lemma linesKept_nonempty ls ls' : linesKept ls ls' -> ls' <> [].
Proof. intros (H1 & H2 & _) ->. simpl in *. lia. Qed.

Lemma appendLine_kept ls l : ls <> [] -> linesKept ls (appendLine ls l).
Proof.
  intros Hne. unfold appendLine.
  destruct (last ls) as [prev|] eqn:Hprev; [|by apply linesKept_push].
  destruct (_ && _); [|by apply linesKept_push].
  eapply linesKept_trans;
    [by eapply linesKept_rewrite_last, slice_prefix|].
  apply linesKept_push. intros Heq.
  apply (f_equal length) in Heq. rewrite length_insert in Heq.
  by destruct ls.
Qed.

(** [appendLine] after a line [prev]: [prev] loses its last character when
    the two tests hold, and [l] comes after it. *)
Lemma appendLine_snoc ls prev l :
  appendLine (ls ++ [prev]) l = ls ++ [cleanPrev prev l; l].
Proof.
  unfold appendLine, cleanPrev. rewrite last_snoc.
  destruct (_ && _); [|by rewrite <- app_assoc].
  rewrite length_app. simpl.
  replace (length ls + 1 - 1) with (length ls + 0) by lia.
  rewrite insert_app_r. simpl. by rewrite <- app_assoc.
Qed.

Lemma stackKept_trans s1 s2 s3 :
  stackKept s1 s2 -> stackKept s2 s3 -> stackKept s1 s3.
Proof.
  intros (k & top & rest & -> & ->) (k' & top' & rest' & [= <- <-] & ->).
  exists (k + k'), top, rest. by rewrite drop_drop.
Qed.

Lemma kept_refl st : lines st <> [] -> stack st <> [] -> kept st st.
Proof.
  intros Hl Hs. split_and!; [by apply linesKept_refl | | set_solver..].
  destruct (stack st) as [|top rest]; [done|]. by exists 0, top, rest.
Qed.

Lemma kept_trans st1 st2 st3 : kept st1 st2 -> kept st2 st3 -> kept st1 st3.
Proof.
  intros (H1 & H2 & H3 & H4) (H5 & H6 & H7 & H8).
  split_and!; [by eapply linesKept_trans | by eapply stackKept_trans
              | set_solver..].
Qed.

Lemma addLinesFromStack_pops n : forall st closers rest,
  stack st = closers ++ rest -> length closers = n -> lines st <> [] ->
  exists st', addLinesFromStack n st = Ok st' /\ stack st' = rest /\
    linesKept (lines st) (lines st') /\ imports st' = imports st.
Proof.
  induction n as [|n IH]; intros st closers rest Hs Hlen Hne.
  - destruct closers; [|done]. exists st. simpl.
    split_and!; [done | done | by apply linesKept_refl | done].
  - destruct closers as [|c closers]; [done|]. simpl in Hs, Hlen.
    simpl. unfold addLineFromStack. rewrite Hs. simpl.
    pose proof (appendLine_kept (lines st) c Hne) as Hk.
    destruct (IH {| lines := appendLine (lines st) c;
                    stack := closers ++ rest; imports := imports st |}
                closers rest) as (st' & Hrun & Hst & Hls & Him);
      [done | lia | by eapply linesKept_nonempty |].
    exists st'. split_and!; [done | done | | done].
    by eapply linesKept_trans.
Qed.

Context `{Helpers}.

(** [#addElement], with the walk over the children named. *)
Lemma addNode_element tag attributes children st :
  addNode (ElementNode tag attributes children) st =
  (opened ← openElement tag attributes st;
   st' ← addNodes children opened.2;
   addLinesFromStack opened.1 st').
Proof. reflexivity. Qed.

Lemma openLoop_ok st prev top rest :
  last (lines st) = Some prev -> stack st = top :: rest ->
  openLoop st =
  Ok {| lines := <[length (lines st) - 1 := slice prev 0 (Some (-2)%Z)]>
                   (lines st);
        stack := drop 1 top :: rest; imports := imports st |}.
Proof. intros Hl Hs. unfold openLoop. by rewrite Hl, Hs, slice_drop_first. Qed.

Lemma insert_nonempty {A} (l : list A) i x : l <> [] -> <[i := x]> l <> [].
Proof.
  intros Hne%nonempty_length Heq%(f_equal length).
  rewrite length_insert in Heq. simpl in Heq. lia.
Qed.

Lemma snoc_nonempty {A} (l : list A) x : l ++ [x] <> [].
Proof. by destruct l. Qed.

(** The openers of an element: [n] closers are put on the stack, on top of
    the former head, which loses its first character when there is a [for]
    directive. *)
Lemma openElement_kept tag attributes st top rest :
  lines st <> [] -> stack st = top :: rest ->
  exists n opened closers k,
    openElement tag attributes st = Ok (n, opened) /\
    length closers = n /\ closers <> [] /\
    stack opened = closers ++ drop k top :: rest /\
    linesKept (lines st) (lines opened) /\
    imports opened = {[ hElement ]} ∪ imports st.
Proof.
  intros Hne Hs. destruct (last_nonempty _ Hne) as [prev Hprev].
  unfold openElement, forOpener, showOpener.
  destruct (dFor _) as [forExpr|], (dShow _) as [showExpr|];
    cbn [fst snd]; rewrite ?(openLoop_ok st prev top rest Hprev Hs);
    cbn [mbind bind fst snd].
  - eexists 3, _, [_; _; _], 1. split_and!; [done..| |done].
    cbn [lines elementOpener unshift addImport pushLine].
    eapply linesKept_trans;
      [by eapply linesKept_rewrite_last, slice_prefix|].
    eapply linesKept_trans;
      [by apply linesKept_push, insert_nonempty|].
    eapply linesKept_trans; apply linesKept_push, snoc_nonempty.
  - eexists 2, _, [_; _], 1. split_and!; [done..| |done].
    cbn [lines elementOpener unshift addImport pushLine].
    eapply linesKept_trans;
      [by eapply linesKept_rewrite_last, slice_prefix|].
    eapply linesKept_trans;
      [by apply linesKept_push, insert_nonempty|].
    apply linesKept_push, snoc_nonempty.
  - eexists 2, _, [_; _], 0. split_and!; [done..| | |done].
    + cbn [stack elementOpener unshift addImport pushLine]. by rewrite Hs.
    + cbn [lines elementOpener unshift addImport pushLine].
      eapply linesKept_trans; [by apply linesKept_push|].
      apply linesKept_push, snoc_nonempty.
  - eexists 1, _, [_], 0. split_and!; [done..| | |done].
    + cbn [stack elementOpener unshift addImport pushLine]. by rewrite Hs.
    + by apply linesKept_push.
Qed.

Lemma addText_kept rawText st :
  lines st <> [] -> stack st <> [] -> kept st (addText rawText st).
Proof.
  intros Hl Hs. unfold addText. destruct (trim rawText); [by apply kept_refl|].
  split_and!; simpl.
  - by apply linesKept_push.
  - destruct (stack st) as [|top rest]; [done|]. by exists 0, top, rest.
  - set_solver.
  - set_solver.
Qed.

Lemma kept_nonempty st st' :
  kept st st' -> lines st' <> [] /\ stack st' <> [].
Proof.
  intros (Hl & (k & top & rest & _ & ->) & _). split; [|done].
  by eapply linesKept_nonempty.
Qed.

Lemma addNodes_kept nodes :
  Forall walks nodes ->
  forall st, lines st <> [] -> stack st <> [] ->
    exists st', addNodes nodes st = Ok st' /\ kept st st'.
Proof.
  induction 1 as [|node nodes Hnode _ IH]; intros st Hl Hs; simpl.
  - exists st. split; [done|]. by apply kept_refl.
  - destruct (Hnode st Hl Hs) as (st1 & -> & Hk1). simpl.
    destruct (kept_nonempty _ _ Hk1) as [Hl1 Hs1].
    destruct (IH st1 Hl1 Hs1) as (st2 & -> & Hk2).
    exists st2. split; [done|]. by eapply kept_trans.
Qed.

(** Every node walks: from a state with a line and a closer, [#addNode]
    ends without an error and keeps what [kept] says. *)
Lemma addNode_kept node : walks node.
Proof.
  induction node as [tag attributes children IH|rawText|nodeType]
    using Node_nested_ind; intros st Hl Hs.
  - destruct (stack st) as [|top rest] eqn:Estack; [done|].
    destruct (openElement_kept tag attributes st top rest Hl Estack)
      as (n & opened & closers & k & Hopen & Hlen & Hcl & Hso & Hlo & Hio).
    destruct closers as [|c closers]; [done|].
    destruct (addNodes_kept children IH opened) as (st1 & Hrun & Hk1).
    { by eapply linesKept_nonempty. }
    { by rewrite Hso. }
    destruct Hk1 as (Hl1 & (k1 & top1 & rest1 & Hs1 & Hs1') & Hi1 & Hi1').
    rewrite Hso in Hs1. simpl in Hs1. injection Hs1 as <- <-.
    destruct (addLinesFromStack_pops n st1 (drop k1 c :: closers)
                (drop k top :: rest))
      as (st2 & Hpop & Hs2 & Hl2 & Hi2); [done | done | |].
    { by eapply linesKept_nonempty. }
    exists st2. rewrite addNode_element, Hopen. simpl. rewrite Hrun. simpl.
    split; [done|]. split_and!.
    + eapply linesKept_trans; [done|]. by eapply linesKept_trans.
    + exists k, top, rest. by rewrite Hs2.
    + rewrite Hi2. set_solver.
    + rewrite Hi2. set_solver.
  - exists (addText rawText st). split; [done|]. by apply addText_kept.
  - exists st. split; [done|]. by apply kept_refl.
Qed.

Lemma addNodes_walk nodes st :
  lines st <> [] -> stack st <> [] ->
  exists st', addNodes nodes st = Ok st' /\ kept st st'.
Proof.
  apply addNodes_kept. apply Forall_forall. intros node _. apply addNode_kept.
Qed.

Lemma drainStack_pops st :
  lines st <> [] ->
  exists st', drainStack st = Ok st' /\ stack st' = [] /\
    linesKept (lines st) (lines st') /\ imports st' = imports st.
Proof.
  intros Hl. unfold drainStack.
  apply (addLinesFromStack_pops _ st (stack st) []); [|done..].
  by rewrite app_nil_r.
Qed.

(** [compile] returns for every template: no step of the walk reads
    [undefined]. *)
Lemma compile_total template : exists out, compile template = Ok out.
Proof.
  unfold compile.
  set (st0 := if decide _ then openFragment reset else reset).
  destruct (addNodes_walk (parse (normalize template)) st0)
    as (st1 & -> & Hk).
  { subst st0. by destruct (decide _). }
  { subst st0. by destruct (decide _). }
  simpl. destruct (kept_nonempty _ _ Hk) as [Hl1 _].
  destruct (drainStack_pops st1 Hl1) as (st2 & -> & _). simpl. eauto.
Qed.

(** What is left of [lines] after the walk over the children of an element
    whose opener [o] was the last line: the lines before [o], then [o],
    possibly cut at the end, then what the children added. *)
Lemma linesKept_snoc before o ls' :
  linesKept (before ++ [o]) ls' ->
  exists o' added, ls' = before ++ o' :: added /\ o' `prefix_of` o.
Proof.
  intros (_ & _ & Htake & prev & o' & Hlast & Hlook & Hpre).
  rewrite length_app in Htake, Hlook. simpl in Htake, Hlook.
  replace (length before + 1 - 1) with (length before) in * by lia.
  rewrite take_app_length in Htake. rewrite last_snoc in Hlast.
  injection Hlast as <-.
  exists o', (drop (S (length before)) ls'). split; [|done].
  rewrite <- (take_drop_middle ls' (length before) o' Hlook) at 1.
  by rewrite Htake.
Qed.

Lemma cleanPrev_prefix prev l : cleanPrev prev l `prefix_of` prev.
Proof. unfold cleanPrev. destruct (_ && _); [apply slice_prefix | done]. Qed.

(** One closer, two closers and three closers taken off the stack, on top
    of the lines [ls ++ [l]]. *)
Lemma addLineFromStack_snoc ls l c below im :
  addLineFromStack {| lines := ls ++ [l]; stack := c :: below;
                      imports := im |} =
  Ok {| lines := (ls ++ [cleanPrev l c]) ++ [c]; stack := below;
        imports := im |}.
Proof.
  unfold addLineFromStack. cbn [stack lines imports].
  by rewrite appendLine_snoc, <- app_assoc.
Qed.

Lemma addLinesFromStack_two ls l c1 c2 below im :
  addLinesFromStack 2
    {| lines := ls ++ [l]; stack := c1 :: c2 :: below; imports := im |} =
  Ok {| lines := ls ++ [cleanPrev l c1; cleanPrev c1 c2; c2];
        stack := below; imports := im |}.
Proof.
  cbn [addLinesFromStack]. rewrite addLineFromStack_snoc. cbn [mbind bind].
  rewrite addLineFromStack_snoc. cbn [mbind bind]. by rewrite <- !app_assoc.
Qed.

Lemma addLinesFromStack_three ls l c1 c2 c3 below im :
  addLinesFromStack 3
    {| lines := ls ++ [l]; stack := c1 :: c2 :: c3 :: below;
       imports := im |} =
  Ok {| lines := ls ++ [cleanPrev l c1; cleanPrev c1 c2; cleanPrev c2 c3; c3];
        stack := below; imports := im |}.
Proof.
  cbn [addLinesFromStack]. rewrite addLineFromStack_snoc. cbn [mbind bind].
  rewrite addLineFromStack_snoc. cbn [mbind bind].
  rewrite addLineFromStack_snoc. cbn [mbind bind]. by rewrite <- !app_assoc.
Qed.

(** The closer of an element, cut [k] times at the front, loses its comma
    to the [: null] that follows it. *)
Lemma cleanPrev_element_closer k :
  cleanPrev (drop k (lit "]),")) (lit ": null") = drop k (lit "])").
Proof.
  unfold cleanPrev. destruct k as [|[|[|k]]]; [by vm_compute..|].
  by rewrite !drop_ge by (vm_compute; lia).
Qed.

(** The closer of the fragment, cut [k] times at the front, has no comma to
    lose. *)
Lemma cleanPrev_fragment_closer k l :
  cleanPrev (drop k (lit "])")) l = drop k (lit "])").
Proof.
  unfold cleanPrev. destruct k as [|[|k]]; [by vm_compute..|].
  by rewrite !drop_ge by (vm_compute; lia).
Qed.

Lemma cleanPrev_return_closer k l :
  cleanPrev (drop k (lit ")")) l = drop k (lit ")").
Proof.
  unfold cleanPrev. destruct k as [|k]; [by vm_compute|].
  by rewrite !drop_ge by (vm_compute; lia).
Qed.

(** A body [o :: added] with its last line cleaned is a body again, and
    starts with a prefix of [o]. *)
Lemma body_cleaned (o : jsstring) added c :
  exists o' body bodyInit bodyLast,
    o :: added = bodyInit ++ [bodyLast] /\
    bodyInit ++ [cleanPrev bodyLast c] = o' :: body /\
    o' `prefix_of` o.
Proof.
  destruct (exists_last (l := o :: added)) as (bodyInit & bodyLast & Hbody);
    [done|].
  destruct bodyInit as [|e bodyInit]; simpl in Hbody.
  - injection Hbody as -> ->.
    exists (cleanPrev bodyLast c), [], [], bodyLast.
    split_and!; [done..|apply cleanPrev_prefix].
  - injection Hbody as -> Hadded.
    exists e, (bodyInit ++ [cleanPrev bodyLast c]), (e :: bodyInit), bodyLast.
    split_and!; [by rewrite Hadded | done | done].
Qed.


End CompilerFacts.

Section CompilerExamples.
Import Js Compiler.


End CompilerExamples.

Section CompilerCleanup.
Import Js Compiler.
Context `{Helpers}.

(** The clean-up is local. [#addLineFromStack] looks at two lines only, the
    last line of the buffer and the line it takes off the stack: when the
    last character of the former is a comma and the latter begins, after
    white space at most, with [)], []] or [:], the comma is removed and then
    the line is appended; in every case the line taken off the stack is
    appended unchanged, and no line before the last one is touched. *)
Theorem addLineFromStack_strips_comma st ls prev l below :
  lines st = ls ++ [prev ++ [comma]] ->
  stack st = l :: below ->
  startsWithClosing l = true ->
  addLineFromStack st =
  Ok {| lines := ls ++ [prev; l]; stack := below; imports := imports st |}.
Proof.
  intros Hl Hs Hclosing. destruct st as [ls0 s0 im]. simpl in *. subst.
  rewrite addLineFromStack_snoc. unfold cleanPrev.
  rewrite endsWithComma_snoc, Hclosing. cbn [andb].
  by rewrite slice_snoc, <- app_assoc.
Qed.

End CompilerCleanup.

Section CompilerTwoLoops.
Import Js Compiler.
Context `{Helpers}.

Lemma endsWithComma_opener tag props :
  endsWithComma (lit "h(" ++ tag ++ lit ", " ++ props ++ lit ", [") = false.
Proof.
  rewrite !app_assoc. unfold endsWithComma. rewrite rev_app_distr.
  reflexivity.
Qed.

Lemma cleanPrev_opener tag props l :
  cleanPrev (lit "h(" ++ tag ++ lit ", " ++ props ++ lit ", [") l =
  lit "h(" ++ tag ++ lit ", " ++ props ++ lit ", [".
Proof. unfold cleanPrev. by rewrite endsWithComma_opener. Qed.

Lemma snoc_three {A} (ls : list A) a b c :
  ls ++ [a; b; c] = (ls ++ [a; b]) ++ [c].
Proof. by rewrite <- app_assoc. Qed.

(** An element without directives and without children. *)
Lemma addNode_leaf tag attributes ls l s im :
  directives (splitAttributes attributes) = {| dFor := None; dShow := None |} ->
  exists opener im',
    addNode (ElementNode tag attributes [])
      {| lines := ls ++ [l]; stack := s; imports := im |} =
    Ok {| lines := ls ++ [l; opener; lit "]),"]; stack := s;
          imports := im' |}.
Proof.
  intros Hd. rewrite addNode_element.
  unfold openElement, forOpener, showOpener. rewrite Hd.
  cbn [dFor dShow mbind bind fst snd addNodes].
  unfold elementOpener, unshift, addImport, pushLine.
  cbn [lines stack imports addLinesFromStack].
  rewrite addLineFromStack_snoc. cbn [mbind bind].
  rewrite cleanPrev_opener. rewrite <- !(app_assoc ls).
  eexists _, _. reflexivity.
Qed.

(** An element with a [for] directive only, and without children. *)
Lemma addNode_loop_leaf tag attributes expr ls l top below im :
  directives (splitAttributes attributes)
    = {| dFor := Some expr; dShow := None |} ->
  exists added closing im',
    addNode (ElementNode tag attributes [])
      {| lines := ls ++ [l]; stack := top :: below; imports := im |} =
    Ok {| lines := (ls ++ slice l 0 (Some (-2)%Z) :: added) ++ [closing];
          stack := drop 1 top :: below; imports := im' |}.
Proof.
  intros Hd. rewrite addNode_element.
  unfold openElement, forOpener, showOpener. rewrite Hd.
  cbn [dFor dShow fst snd].
  rewrite (openLoop_ok _ l top below);
    [| cbn [lines]; apply last_snoc | done].
  cbn [mbind bind fst snd addNodes lines].
  rewrite length_app. simpl length.
  replace (length ls + 1 - 1) with (length ls + 0) by lia.
  rewrite insert_app_r. cbn [insert list_insert].
  unfold elementOpener, unshift, addImport, pushLine.
  cbn [lines stack imports].
  rewrite <- !app_assoc. cbn [app].
  rewrite snoc_three, addLinesFromStack_two.
  eexists [_; _; _], _, _. f_equal. f_equal.
  rewrite <- !(app_assoc ls). reflexivity.
Qed.

Lemma join_snoc sep (parts : list jsstring) l :
  parts <> [] -> join sep (parts ++ [l]) = join sep parts ++ sep ++ l.
Proof.
  induction parts as [|p parts IH]; [done|]. intros _.
  destruct parts as [|p' parts]; [done|].
  change (join sep ((p :: p' :: parts) ++ [l]))
    with (p ++ sep ++ join sep ((p' :: parts) ++ [l])).
  rewrite IH by done. cbn [join]. by rewrite <- !app_assoc.
Qed.

Lemma join_tail sep (parts : list jsstring) a b c d :
  parts <> [] ->
  join sep (parts ++ [a; b; c; d]) =
  (join sep parts ++ sep) ++ a ++ sep ++ b ++ sep ++ c ++ sep ++ d.
Proof.
  intros Hne.
  replace (parts ++ [a; b; c; d])
    with ((((parts ++ [a]) ++ [b]) ++ [c]) ++ [d])
    by (by rewrite <- !app_assoc).
  rewrite !join_snoc by (by destruct parts). by rewrite <- !app_assoc.
Qed.

Lemma commaBeforeClosing_app s1 s2 :
  commaBeforeClosing s2 = true -> commaBeforeClosing (s1 ++ s2) = true.
Proof.
  intros Hs2. induction s1 as [|c s1 IH]; [done|].
  cbn [app commaBeforeClosing]. rewrite IH. apply orb_true_r.
Qed.

(** C7, where the code leaves the claim. Whatever the helpers answer: for a
    template that parses into one element with three children without
    children of their own, the first two with a [for] directive and nothing
    else with a directive, [compile] returns a code that ends with a
    comma, two spaces and the closing parenthesis of [return (]: it has a
    comma before a closing token. Each of the two children with [for] cut
    the first character off the closer of their parent, which leaves a
    comma of it; the closer of [return (] then removes that comma, and the
    comma that ends the closer of the third child stays. *)
Theorem compile_two_loops template tag attributes
    tag1 attributes1 expr1 tag2 attributes2 expr2 tag3 attributes3 :
  parse (normalize template) =
    [ElementNode tag attributes
       [ElementNode tag1 attributes1 []; ElementNode tag2 attributes2 [];
        ElementNode tag3 attributes3 []]] ->
  directives (splitAttributes attributes)
    = {| dFor := None; dShow := None |} ->
  directives (splitAttributes attributes1)
    = {| dFor := Some expr1; dShow := None |} ->
  directives (splitAttributes attributes2)
    = {| dFor := Some expr2; dShow := None |} ->
  directives (splitAttributes attributes3)
    = {| dFor := None; dShow := None |} ->
  exists out before,
    compile template = Ok out /\
    code out = before ++ lit "]),  ) }" /\
    commaBeforeClosing (code out) = true.
Proof.
  intros Hparse Hd Hd1 Hd2 Hd3.
  assert (exists out before,
            compile template = Ok out /\
            code out = before ++ lit "]),  ) }") as (out & before & Hrun & Hcode).
  2: { exists out, before. split_and!; [done | done |].
       rewrite Hcode. by apply commaBeforeClosing_app. }
  unfold compile. rewrite Hparse. cbn [length]. rewrite decide_False by lia.
  cbn [addNodes]. rewrite addNode_element.
  unfold openElement, forOpener, showOpener. rewrite Hd.
  cbn [dFor dShow mbind bind fst snd addNodes].
  unfold elementOpener, unshift, addImport, pushLine, reset.
  cbn [lines stack imports].
  set (opener := lit "h(" ++ _).
  destruct (addNode_loop_leaf tag1 attributes1 expr1
              [lit "function render() {"; lit "return ("] opener
              (lit "]),") [lit ")"; lit "}"] ({[hElement]} ∪ ∅) Hd1)
    as (added1 & closing1 & im1 & ->).
  cbn [mbind bind].
  set (ls1 := [lit "function render() {"; lit "return ("]
              ++ slice opener 0 (Some (-2)%Z) :: added1).
  destruct (addNode_loop_leaf tag2 attributes2 expr2 ls1 closing1
              (drop 1 (lit "]),")) [lit ")"; lit "}"] im1 Hd2)
    as (added2 & closing2 & im2 & ->).
  cbn [mbind bind].
  set (ls := ls1 ++ slice closing1 0 (Some (-2)%Z) :: added2).
  destruct (addNode_leaf tag3 attributes3 ls closing2
              (drop 1 (drop 1 (lit "]),")) :: [lit ")"; lit "}"]) im2 Hd3)
    as (opener3 & im3 & ->).
  cbn [mbind bind addLinesFromStack].
  replace (ls ++ [closing2; opener3; lit "]),"])
    with ((ls ++ [closing2; opener3]) ++ [lit "]),"])
    by (by rewrite <- app_assoc).
  rewrite addLineFromStack_snoc. cbn [mbind bind].
  unfold drainStack. cbn [stack length lines].
  change (drop 1 (drop 1 (lit "]),"))) with (lit ",").
  replace (((ls ++ [closing2; opener3]) ++ [cleanPrev (lit "]),") (lit ",")])
           ++ [lit ","])
    with ((ls ++ [closing2; opener3; cleanPrev (lit "]),") (lit ",")])
          ++ [lit ","])
    by (by rewrite <- !app_assoc).
  rewrite addLinesFromStack_two. cbn [mbind bind code lines].
  eexists _, (join (lit " ") (ls ++ [closing2; opener3]) ++ lit " ").
  split; [done|]. cbn [code].
  change (cleanPrev (lit "]),") (lit ",")) with (lit "]),").
  change (cleanPrev (lit ",") (lit ")")) with (@nil N).
  change (cleanPrev (lit ")") (lit "}")) with (lit ")").
  rewrite <- (app_assoc ls). cbn [app].
  change (ls ++ [closing2; opener3; lit "]),"; []; lit ")"; lit "}"])
    with (ls ++ [closing2; opener3] ++ [lit "]),"; []; lit ")"; lit "}"]).
  rewrite app_assoc.
  by rewrite join_tail by (by destruct ls).
Qed.

End CompilerTwoLoops.

Section CompilerCleanupExamples.
Import Js Compiler.

(** When white space follows the comma, the test of [#addLineFromStack]
    holds all the same, and [slice(0, -1)] removes the last white space
    character, not the comma. *)
Example appendLine_after_comma_and_space :
  appendLine [lit "a, "] (lit ")") = [lit "a,"; lit ")"].
Proof. by vm_compute. Qed.

(** The comma after a text is removed before the closer of its element. *)
Lemma addLineFromStack_strips_comma_witness :
  addLineFromStack
    {| lines := [lit "h('p', {}, ["; lit "hString(`hello`),"];
       stack := [lit "]),"; lit ")"; lit "}"]; imports := ∅ |} =
  Ok {| lines := [lit "h('p', {}, ["; lit "hString(`hello`)"; lit "]),"];
        stack := [lit ")"; lit "}"]; imports := ∅ |}.
Proof.
  apply (addLineFromStack_strips_comma
           {| lines := [lit "h('p', {}, ["; lit "hString(`hello`),"];
              stack := [lit "]),"; lit ")"; lit "}"]; imports := ∅ |}
           [lit "h('p', {}, ["] (lit "hString(`hello`)") (lit "]),")
           [lit ")"; lit "}"]); reflexivity.
Defined.

(** [<div><p for='a in as'></p><p for='b in bs'></p><span></span></div>]:
    the comma that ends the last child is left in front of the closing
    parenthesis. *)
Lemma compile_leaves_comma_before_closing :
  exists out,
    compile (H := sampleHelpers [twoLoops]) twoLoopsTemplate = Ok out /\
    code out =
      lit "function render() { return ( h('div', {}, each(a in as, () => h('p', {}, [ ])  each(b in bs, () => h('p', {}, [ ]) ) h('span', {}, [ ]),  ) }" /\
    commaBeforeClosing (code out) = true.
Proof.
  destruct (compile_two_loops (H := sampleHelpers [twoLoops]) twoLoopsTemplate
              (lit "div") []
              (lit "p") [(lit "for", lit "a in as")] (lit "a in as")
              (lit "p") [(lit "for", lit "b in bs")] (lit "b in bs")
              (lit "span") []
              eq_refl eq_refl eq_refl eq_refl eq_refl)
    as (out & before & Hrun & _ & Hcomma).
  exists out. split; [exact Hrun|]. split; [|exact Hcomma].
  vm_compute in Hrun. injection Hrun as <-. reflexivity.
Defined.

End CompilerCleanupExamples.

Section CompilerFragment.
Import Js Compiler.
Context `{Helpers}.

Lemma hFragment_not_walked :
  hFragment ∉ ({[ hElement; hString ]} ∪ imports reset : gset jsstring).
Proof.
  assert (hFragment <> hElement) by (by vm_compute).
  assert (hFragment <> hString) by (by vm_compute).
  cbn [imports reset]. set_solver.
Qed.

(** [compile] returns for every template. When the normalized template
    parses into more than one top-level node, [hFragment] is among the
    imports and the code is the render function around one fragment call
    around what the nodes emitted: the opener [h(Fragment, {}, [] (cut at
    the end when a top-level node with a [for] directive rewrote it), the
    emitted lines, and the closer [])] (cut at the front once for each
    top-level node with a [for] directive). Otherwise [hFragment] is not
    among the imports and the emitted lines stand directly between
    [return (] and [)]. *)
Theorem compile_fragment_wrapper template :
  let nodes := parse (normalize template) in
  exists out,
    compile template = Ok out /\
    if decide (1 < length nodes) then
      (hFragment ∈ compiledImports out /\
       exists fragmentOpen' body k,
         fragmentOpen' `prefix_of` lit "h(Fragment, {}, [" /\
         code out =
           join (lit " ")
             ([lit "function render() {"; lit "return ("]
              ++ fragmentOpen' :: body
              ++ [drop k (lit "])"); lit ")"; lit "}"]))
    else
      ((hFragment ∉ compiledImports out) /\
       exists return' body k,
         return' `prefix_of` lit "return (" /\
         code out =
           join (lit " ")
             (lit "function render() {" :: return' :: body
              ++ [drop k (lit ")"); lit "}"])).
Proof.
  intros nodes. unfold compile. fold nodes.
  destruct (decide (1 < length nodes)) as [Hmany|Hfew].
  - destruct (addNodes_walk nodes (openFragment reset))
      as (st1 & -> & Hl & (k & top & rest & Hs & Hs1) & Hin & _);
      [done | done |].
    change (lines (openFragment reset))
      with ([lit "function render() {"; lit "return ("]
            ++ [lit "h(Fragment, {}, ["]) in Hl.
    apply linesKept_snoc in Hl as (o & added & Hl & Hpre).
    injection Hs as <- <-.
    destruct (body_cleaned o added (drop k (lit "])")))
      as (o' & body & bodyInit & bodyLast & Hbody & Hb & Ho').
    rewrite Hbody, app_assoc in Hl.
    destruct st1 as [ls1 s1 im1]. cbn [lines stack imports] in *.
    subst ls1 s1. cbn [mbind bind]. unfold drainStack. cbn [stack length].
    rewrite addLinesFromStack_three. cbn [mbind bind].
    eexists. split; [done|]. cbn [compiledImports code]. split.
    { apply Hin. cbn. set_solver. }
    exists o', body, k. split; [by etrans|]. f_equal.
    rewrite cleanPrev_fragment_closer.
    replace (cleanPrev (lit ")") (lit "}")) with (lit ")") by (by vm_compute).
    cbn [lines]. rewrite <- !app_assoc. f_equal.
    change (bodyInit ++ ?a :: ?x) with (bodyInit ++ [a] ++ x).
    by rewrite app_assoc, Hb.
  - destruct (addNodes_walk nodes reset)
      as (st1 & -> & Hl & (k & top & rest & Hs & Hs1) & _ & Hin);
      [done | done |].
    change (lines reset)
      with ([lit "function render() {"] ++ [lit "return ("]) in Hl.
    apply linesKept_snoc in Hl as (o & added & Hl & Hpre).
    injection Hs as <- <-.
    destruct (body_cleaned o added (drop k (lit ")")))
      as (o' & body & bodyInit & bodyLast & Hbody & Hb & Ho').
    rewrite Hbody, app_assoc in Hl.
    destruct st1 as [ls1 s1 im1]. cbn [lines stack imports] in *.
    subst ls1 s1. cbn [mbind bind]. unfold drainStack. cbn [stack length].
    rewrite addLinesFromStack_two. cbn [mbind bind].
    eexists. split; [done|]. cbn [compiledImports code]. split.
    { intros Hfrag%Hin. by apply hFragment_not_walked. }
    exists o', body, k. split; [by etrans|]. f_equal.
    rewrite cleanPrev_return_closer.
    cbn [lines]. rewrite <- !app_assoc. cbn [app]. f_equal.
    change (bodyInit ++ ?a :: ?x) with (bodyInit ++ [a] ++ x).
    by rewrite app_assoc, Hb.
Qed.

(** [#addElement] on an element with a [for] directive, no [show] and no
    children: the last line loses its last two characters, the head of the
    stack its first one, and five lines are written. *)
Lemma addNode_loop_leaf_lines tag attributes expr ls l top below im :
  directives (splitAttributes attributes)
    = {| dFor := Some expr; dShow := None |} ->
  let split := splitAttributes attributes in
  addNode (ElementNode tag attributes [])
    {| lines := ls ++ [l]; stack := top :: below; imports := im |} =
  Ok {| lines :=
          ls ++ [slice l 0 (Some (-2)%Z);
                 line (formatForDirective expr);
                 lit "h(" ++ normalizeTagName tag ++ lit ", "
                 ++ extractProps (attrs split) (bindings split) (events split)
                 ++ lit ", [";
                 cleanPrev (lit "]),") (closing (formatForDirective expr));
                 closing (formatForDirective expr)];
        stack := drop 1 top :: below;
        imports := {[ hElement ]} ∪ im |}.
Proof.
  intros Hd split. rewrite addNode_element.
  unfold openElement, forOpener, showOpener. rewrite Hd. fold split.
  cbn [dFor dShow fst snd].
  rewrite (openLoop_ok _ l top below);
    [| cbn [lines]; apply last_snoc | done].
  cbn [mbind bind fst snd addNodes lines].
  rewrite length_app. simpl length.
  replace (length ls + 1 - 1) with (length ls + 0) by lia.
  rewrite insert_app_r. cbn [insert list_insert].
  unfold elementOpener, unshift, addImport, pushLine.
  cbn [lines stack imports].
  rewrite <- !app_assoc. cbn [app].
  rewrite snoc_three, addLinesFromStack_two, cleanPrev_opener.
  f_equal. f_equal. by rewrite <- !app_assoc.
Qed.

(** C8, where the code leaves the claim. Whatever the helpers answer: for a
    template that parses into two top-level elements without children,
    each with a [for] directive and no [show], [hFragment] is imported, but
    the code is not the two nodes wrapped in one fragment call. The first
    node cuts the opener of the fragment to [h(Fragment, {},]; the two
    nodes cut the closer [])] of the fragment one character each, so that
    the line written for it is empty and nothing closes the call; and the
    second node cuts the last two characters off the closing of the first
    loop. *)
Theorem compile_fragment_cut_by_for template
    tag1 attributes1 expr1 tag2 attributes2 expr2 :
  parse (normalize template) =
    [ElementNode tag1 attributes1 []; ElementNode tag2 attributes2 []] ->
  directives (splitAttributes attributes1)
    = {| dFor := Some expr1; dShow := None |} ->
  directives (splitAttributes attributes2)
    = {| dFor := Some expr2; dShow := None |} ->
  let split1 := splitAttributes attributes1 in
  let split2 := splitAttributes attributes2 in
  exists out,
    compile template = Ok out /\
    hFragment ∈ compiledImports out /\
    code out =
      join (lit " ")
        [lit "function render() {"; lit "return ("; lit "h(Fragment, {},";
         line (formatForDirective expr1);
         lit "h(" ++ normalizeTagName tag1 ++ lit ", "
         ++ extractProps (attrs split1) (bindings split1) (events split1)
         ++ lit ", [";
         cleanPrev (lit "]),") (closing (formatForDirective expr1));
         slice (closing (formatForDirective expr1)) 0 (Some (-2)%Z);
         line (formatForDirective expr2);
         lit "h(" ++ normalizeTagName tag2 ++ lit ", "
         ++ extractProps (attrs split2) (bindings split2) (events split2)
         ++ lit ", [";
         cleanPrev (lit "]),") (closing (formatForDirective expr2));
         closing (formatForDirective expr2);
         []; lit ")"; lit "}"].
Proof.
  intros Hparse Hd1 Hd2 split1 split2.
  unfold compile. rewrite Hparse. cbn [length]. rewrite decide_True by lia.
  cbn [addNodes].
  unfold openFragment, unshift, addImport, pushLine, reset.
  cbn [lines stack imports].
  rewrite (addNode_loop_leaf_lines tag1 attributes1 expr1 _ _ _ _ _ Hd1).
  cbn [mbind bind]. fold split1.
  set (opener1 := lit "h(" ++ normalizeTagName tag1 ++ _).
  set (for1 := formatForDirective expr1).
  change ([lit "function render() {"; lit "return ("]
          ++ [slice (lit "h(Fragment, {}, [") 0 (Some (-2)%Z); line for1;
              opener1; cleanPrev (lit "]),") (closing for1); closing for1])
    with ([lit "function render() {"; lit "return ("; lit "h(Fragment, {},";
           line for1; opener1; cleanPrev (lit "]),") (closing for1)]
          ++ [closing for1]).
  rewrite (addNode_loop_leaf_lines tag2 attributes2 expr2 _ _ _ _ _ Hd2).
  cbn [mbind bind]. fold split2.
  set (opener2 := lit "h(" ++ normalizeTagName tag2 ++ _).
  set (for2 := formatForDirective expr2).
  unfold drainStack. cbn [stack length lines].
  change (drop 1 (drop 1 (lit "])"))) with (@nil N).
  set (ls := [lit "function render() {"; lit "return ("; lit "h(Fragment, {},";
              line for1; opener1; cleanPrev (lit "]),") (closing for1)]).
  change (ls ++ [slice (closing for1) 0 (Some (-2)%Z); line for2; opener2;
                 cleanPrev (lit "]),") (closing for2); closing for2])
    with ((ls ++ [slice (closing for1) 0 (Some (-2)%Z); line for2; opener2;
                  cleanPrev (lit "]),") (closing for2)])
          ++ [closing for2]).
  rewrite addLinesFromStack_three. cbn [mbind bind].
  eexists. split; [done|]. cbn [compiledImports code imports lines].
  split; [set_solver|].
  assert (cleanPrev (closing for2) [] = closing for2) as ->.
  { unfold cleanPrev. change (startsWithClosing []) with false.
    by rewrite andb_false_r. }
  change (cleanPrev [] (lit ")")) with (@nil N).
  change (cleanPrev (lit ")") (lit "}")) with (lit ")").
  reflexivity.
Qed.

End CompilerFragment.

Section CompilerFragmentExamples.
Import Js Compiler.

(** [<p for='a in as'></p><p for='b in bs'></p>]: the closing parenthesis
    of the first loop and the closer of the fragment are gone. *)
Lemma compile_fragment_cut_by_for_witness :
  exists out,
    compile
      (H := sampleHelpers
              [ElementNode (lit "p") [(lit "for", lit "a in as")] [];
               ElementNode (lit "p") [(lit "for", lit "b in bs")] []])
      (lit "<p for='a in as'></p><p for='b in bs'></p>") = Ok out /\
    hFragment ∈ compiledImports out /\
    code out =
      lit "function render() { return ( h(Fragment, {}, each(a in as, () => h('p', {}, [ ])  each(b in bs, () => h('p', {}, [ ]) )  ) }".
Proof.
  exact (compile_fragment_cut_by_for
           (H := sampleHelpers
                   [ElementNode (lit "p") [(lit "for", lit "a in as")] [];
                    ElementNode (lit "p") [(lit "for", lit "b in bs")] []])
           (lit "<p for='a in as'></p><p for='b in bs'></p>")
           (lit "p") [(lit "for", lit "a in as")] (lit "a in as")
           (lit "p") [(lit "for", lit "b in bs")] (lit "b in bs")
           eq_refl eq_refl eq_refl).
Defined.

End CompilerFragmentExamples.

(** ** The hash router of [router.js] *)

Section RouterFacts.
Import Js Routing Router Chain.

Lemma logEvents_nil st : logEvents [] st = st.
Proof. destruct st. unfold logEvents. simpl. by rewrite app_nil_r. Qed.

Lemma logEvents_app es1 es2 st :
  logEvents es2 (logEvents es1 st) = logEvents (es1 ++ es2) st.
Proof. unfold logEvents. simpl. by rewrite app_assoc. Qed.

Lemma guardCalls_S i n from to :
  guardCalls i (S n) from to = GuardCall i from to :: guardCalls (S i) n from to.
Proof. reflexivity. Qed.

Lemma guardCalls_are_calls i n from to :
  forallb isGuardCall (guardCalls i n from to) = true.
Proof. revert i. induction n as [|n IH]; intros i; [done|]. simpl. apply IH. Qed.

Lemma forallb_app {A} (f : A -> bool) l1 l2 :
  forallb f l1 = true -> forallb f l2 = true -> forallb f (l1 ++ l2) = true.
Proof. intros H1 H2. rewrite List.forallb_app, H1, H2. done. Qed.

(** [#canChangeRoute] decides what [verdict] says, and logs the calls it
    counts; nothing else changes. *)
Lemma canChangeRouteFrom_verdict gs : forall index from to st,
  canChangeRouteFrom index gs from to st =
  ((verdict gs from to).1,
   logEvents (guardCalls index (verdict gs from to).2 from to) st).
Proof.
  induction gs as [|guard gs IH]; intros index from to st.
  - simpl. by rewrite logEvents_nil.
  - cbn [canChangeRouteFrom verdict].
    destruct (guard from to) as [[| |[]| | |fields]|reason]; try done;
      cbn [getPath].
    + rewrite IH. cbn [fst snd]. unfold emit.
      by rewrite logEvents_app, guardCalls_S.
    + rewrite IH. cbn [fst snd]. unfold emit.
      by rewrite logEvents_app, guardCalls_S.
    + rewrite IH. cbn [fst snd]. unfold emit.
      by rewrite logEvents_app, guardCalls_S.
    + destruct (default _ _) as [| |b| |target|fields'];
        try (rewrite IH; cbn [fst snd]; unfold emit;
             by rewrite logEvents_app, guardCalls_S).
      done.
Qed.

Lemma canChangeRoute_verdict from to st :
  canChangeRoute from to st =
  ((verdict (guards st) from to).1,
   logEvents (guardCalls 0 (verdict (guards st) from to).2 from to) st).
Proof. apply canChangeRouteFrom_verdict. Qed.

(** A redirection comes with its path. *)
Lemma verdict_redirect_path gs from to r :
  (verdict gs from to).1 = inr r -> shouldRedirect r = true ->
  exists target, redirectPath r = Some target.
Proof.
  induction gs as [|guard gs IH]; cbn [verdict].
  - intros [= <-]. done.
  - destruct (guard from to) as [[| |[]| | |fields]|reason]; cbn [getPath fst];
      try done; try (intros [= <-]; done).
    destruct (default _ _); cbn [fst]; try done.
    intros [= <-]. eauto.
Qed.

(** The guards, when one of them answers [false] after guards that allow
    in the sense of the spec ([true] or [undefined]): either every guard
    before it answered [true] and the navigation is blocked, or the first
    [undefined] threw. No guard after it is called. *)
Lemma verdict_false pre g post from to :
  forallb (fun g' => specAllows (g' from to)) pre = true ->
  g from to = Fulfilled (VBool false) ->
  exists n, n <= S (length pre) /\
    ((verdict (pre ++ g :: post) from to =
        (inr {| shouldRedirect := false; shouldNavigate := false;
                redirectPath := None |}, n) /\
      n = S (length pre) /\
      forallb (fun g' => passes (g' from to)) pre = true)
     \/
     (verdict (pre ++ g :: post) from to = (inl TypeError, n) /\
      forallb (fun g' => passes (g' from to)) pre = false)).
Proof.
  intros Hpre Hg. induction pre as [|a pre IH]; cbn [app verdict].
  - rewrite Hg. exists 1. split; [simpl; lia|]. by left.
  - cbn [forallb] in Hpre. apply andb_prop in Hpre as [Ha Hpre].
    destruct (IH Hpre) as (n & Hn & Hcases). unfold specAllows in Ha.
    cbn [forallb passes length].
    destruct (a from to) as [[| |[]| | |fields]|reason]; try done;
      cbn [getPath andb].
    + exists 1. split; [lia|]. by right.
    + exists (S n). split; [lia|].
      destruct Hcases as [(-> & -> & Hp)|(-> & Hp)]; [by left|by right].
Qed.

(** The guards, when one of them redirects after guards that pass. *)
Lemma verdict_diverts pre g post from to target :
  forallb (fun g' => passes (g' from to)) pre = true ->
  diverts (g from to) = Some target ->
  verdict (pre ++ g :: post) from to =
  (inr {| shouldRedirect := true; shouldNavigate := false;
          redirectPath := Some target |}, S (length pre)).
Proof.
  intros Hpre Hg. induction pre as [|a pre IH]; cbn [app verdict length].
  - unfold diverts in Hg.
    destruct (g from to) as [[| |[]| | |fields]|reason]; try done.
    cbn [getPath] in *. destruct (default _ _); try done. by injection Hg as ->.
  - cbn [forallb] in Hpre. apply andb_prop in Hpre as [Ha Hpre].
    rewrite (IH Hpre). unfold passes in Ha.
    destruct (a from to) as [[| |[]| | |fields]|reason]; try done.
    cbn [getPath] in *. by destruct (default _ _).
Qed.

(** The guards, when all of them pass: the navigation is approved after
    every guard was called. *)
Lemma verdict_all_pass gs from to :
  forallb (fun g => passes (g from to)) gs = true ->
  verdict gs from to =
  (inr {| shouldRedirect := false; shouldNavigate := true;
          redirectPath := None |}, length gs).
Proof.
  induction gs as [|a gs IH]; [done|]. cbn [forallb verdict length].
  intros [Ha Hgs]%andb_prop. rewrite (IH Hgs). unfold passes in Ha.
  destruct (a from to) as [[| |[]| | |fields]|reason]; try done.
  cbn [getPath] in *. by destruct (default _ _).
Qed.

(** And only then. *)
Lemma verdict_approved gs from to r :
  (verdict gs from to).1 = inr r ->
  shouldRedirect r = false -> shouldNavigate r = true ->
  forallb (fun g => passes (g from to)) gs = true.
Proof.
  induction gs as [|a gs IH]; [done|]. cbn [forallb verdict passes].
  destruct (a from to) as [[| |[]| | |fields]|reason];
    cbn [passes getPath fst andb];
    try done; try apply IH; try (by intros [= <-]).
  destruct (default _ _); cbn [fst andb]; try done; try apply IH.
  by intros [= <-].
Qed.

(** One call of [navigateTo], with the guards read through [verdict]. *)
Lemma navigateTo_S fuel p st :
  navigateTo (S fuel) p st =
  match findMatcher p st with
  | None => Some (NoMatch, setMatch None [] [] (warnNoRoute p st))
  | Some matcher =>
      match isRedirect matcher with
      | Some target => navigateTo fuel target st
      | None =>
          let v := verdict (guards st) (path <$> matchedRoute st)
                     (path (route matcher)) in
          let st1 :=
            logEvents (guardCalls 0 v.2 (path <$> matchedRoute st)
                         (path (route matcher))) st in
          match v.1 with
          | inl e => Some (Threw e, st1)
          | inr r =>
              if shouldRedirect r then
                match redirectPath r with
                | Some target => navigateTo fuel target st1
                | None => Some (Threw TypeError, st1)
                end
              else if shouldNavigate r then Some (Committed, commit matcher p st1)
              else Some (Blocked, st1)
          end
      end
  end.
Proof.
  cbn [navigateTo]. destruct (findMatcher p st) as [matcher|]; [|done].
  destruct (isRedirect matcher); [done|].
  rewrite canChangeRoute_verdict. cbn zeta.
  destruct (verdict _ _ _).1 as [e|r]; [done|].
  destruct (shouldRedirect r); [done|]. by destruct (shouldNavigate r).
Qed.

(** What a call of [navigateTo] that ends has done, by the way it ended:
    [final] is the path of the last call in the chain of redirections, and
    [calls] the guard calls made on the way. *)
Lemma navigateTo_outcome fuel : forall p st outcome st',
  navigateTo fuel p st = Some (outcome, st') ->
  exists calls final,
    forallb isGuardCall calls = true /\
    match outcome with
    | NoMatch =>
        findMatcher final st = None /\
        st' = setMatch None [] [] (warnNoRoute final (logEvents calls st))
    | Committed =>
        exists matcher,
          findMatcher final st = Some matcher /\
          isRedirect matcher = None /\
          forallb (fun g => passes (g (path <$> matchedRoute st)
                                      (path (route matcher))))
            (guards st) = true /\
          st' = commit matcher final (logEvents calls st)
    | Blocked | Threw _ => st' = logEvents calls st
    end.
Proof.
  induction fuel as [|fuel IH]; intros p st outcome st' Hrun; [done|].
  rewrite navigateTo_S in Hrun.
  destruct (findMatcher p st) as [matcher|] eqn:Hfind.
  - destruct (isRedirect matcher) as [target|] eqn:Hredirect.
    { by apply IH in Hrun. }
    cbn zeta in Hrun.
    set (from := path <$> matchedRoute st) in *.
    set (to := path (route matcher)) in *.
    set (v := verdict (guards st) from to) in *.
    pose proof (guardCalls_are_calls 0 v.2 from to) as Hcalls.
    pose proof (verdict_approved (guards st) from to) as Happroved.
    fold v in Happroved.
    destruct v.1 as [e|r] eqn:Hv.
    { injection Hrun as <- <-. by exists (guardCalls 0 v.2 from to), p. }
    destruct (shouldRedirect r) eqn:Hsr.
    + destruct (redirectPath r) as [target|].
      * apply IH in Hrun as (calls & final & Hc & Hout).
        exists (guardCalls 0 v.2 from to ++ calls), final.
        split; [by apply forallb_app|].
        rewrite <- logEvents_app. by destruct outcome.
      * injection Hrun as <- <-. by exists (guardCalls 0 v.2 from to), p.
    + destruct (shouldNavigate r) eqn:Hsn; injection Hrun as <- <-.
      * exists (guardCalls 0 v.2 from to), p. split; [done|].
        exists matcher. split_and!; [done | done | by apply (Happroved r) | done].
      * by exists (guardCalls 0 v.2 from to), p.
  - injection Hrun as <- <-. exists [], p. by rewrite logEvents_nil.
Qed.

(** The guard calls a navigation logs do not change where it goes. *)
Lemma finalPath_logEvents fuel : forall calls st p,
  finalPath fuel (logEvents calls st) p = finalPath fuel st p.
Proof.
  induction fuel as [|fuel IH]; intros calls st p; [done|].
  cbn [finalPath].
  change (nextPath (logEvents calls st) p) with (nextPath st p).
  destruct (nextPath st p); [apply IH|done].
Qed.

(** [navigateTo_outcome], with the path [final] named: it is the last path
    of the chain of calls from [p]. *)
Lemma navigateTo_outcome_final fuel : forall p st outcome st',
  navigateTo fuel p st = Some (outcome, st') ->
  exists calls final,
    finalPath fuel st p = Some final /\
    nextPath st final = None /\
    forallb isGuardCall calls = true /\
    match outcome with
    | NoMatch =>
        findMatcher final st = None /\
        st' = setMatch None [] [] (warnNoRoute final (logEvents calls st))
    | Committed =>
        exists matcher,
          findMatcher final st = Some matcher /\
          isRedirect matcher = None /\
          forallb (fun g => passes (g (path <$> matchedRoute st)
                                      (path (route matcher))))
            (guards st) = true /\
          st' = commit matcher final (logEvents calls st)
    | Blocked | Threw _ => st' = logEvents calls st
    end.
Proof.
  induction fuel as [|fuel IH]; intros p st outcome st' Hrun; [done|].
  rewrite navigateTo_S in Hrun. cbn [finalPath]. unfold nextPath at 1.
  destruct (findMatcher p st) as [matcher|] eqn:Hfind.
  - destruct (isRedirect matcher) as [target|] eqn:Hredirect.
    { by apply IH in Hrun. }
    cbn zeta in Hrun.
    set (from := path <$> matchedRoute st) in *.
    set (to := path (route matcher)) in *.
    set (v := verdict (guards st) from to) in *.
    pose proof (guardCalls_are_calls 0 v.2 from to) as Hcalls.
    pose proof (verdict_approved (guards st) from to) as Happroved.
    fold v in Happroved.
    assert (forall answer,
              v.1 = answer ->
              match answer with
              | inr r => if shouldRedirect r then redirectPath r else None
              | inl _ => None
              end = None ->
              nextPath st p = None) as Hend.
    { intros answer Hanswer Hnone. unfold nextPath.
      rewrite Hfind, Hredirect. fold from to v. by rewrite Hanswer. }
    destruct v.1 as [e|r] eqn:Hv.
    { injection Hrun as <- <-.
      exists (guardCalls 0 v.2 from to), p.
      split_and!; [done|by apply (Hend (inl e))|done|done]. }
    destruct (shouldRedirect r) eqn:Hsr.
    + destruct (redirectPath r) as [target|] eqn:Hpath.
      * apply IH in Hrun as (calls & final & Hfinal & Hlast & Hc & Hout).
        rewrite finalPath_logEvents in Hfinal.
        exists (guardCalls 0 v.2 from to ++ calls), final.
        split_and!; [done|done|by apply forallb_app|].
        rewrite <- logEvents_app. by destruct outcome.
      * injection Hrun as <- <-.
        exists (guardCalls 0 v.2 from to), p.
        split_and!; [done| |done|done].
        apply (Hend (inr r)); [done|]. by rewrite Hsr.
    + assert (nextPath st p = None) as Hnone.
      { apply (Hend (inr r)); [done|]. by rewrite Hsr. }
      destruct (shouldNavigate r) eqn:Hsn; injection Hrun as <- <-.
      * exists (guardCalls 0 v.2 from to), p. split_and!; [done..|].
        exists matcher.
        split_and!; [done | done | by apply (Happroved r) | done].
      * by exists (guardCalls 0 v.2 from to), p.
  - injection Hrun as <- <-. exists [], p. rewrite logEvents_nil.
    split_and!; try done. unfold nextPath. by rewrite Hfind.
Qed.

(** C1. A navigation that reaches the guards, where a guard answers [false]
    and every guard registered before it allows in the sense of the spec
    ([true] or [undefined]): the call ends, and what it leaves is the state
    it started from with [n] guard calls logged, [n] being at most the
    number of guards up to the one that answered [false]. So [matchedRoute],
    [params], [query] and the hash are as before, nothing is pushed to the
    history, nothing is dispatched, and no later guard is called. The
    navigation is blocked when the guards before answered [true]; the first
    of them that answered [undefined] ends it with a [TypeError] instead. *)
Theorem navigateTo_false_guard_aborts fuel p st matcher pre g post :
  findMatcher p st = Some matcher ->
  isRedirect matcher = None ->
  guards st = pre ++ g :: post ->
  forallb (fun g' => specAllows
                       (g' (path <$> matchedRoute st) (path (route matcher))))
    pre = true ->
  g (path <$> matchedRoute st) (path (route matcher))
    = Fulfilled (VBool false) ->
  exists outcome st' n,
    navigateTo (S fuel) p st = Some (outcome, st') /\
    n <= S (length pre) /\
    st' = logEvents (guardCalls 0 n (path <$> matchedRoute st)
                       (path (route matcher))) st /\
    matchedRoute st' = matchedRoute st /\
    params st' = params st /\
    query st' = query st /\
    hash st' = hash st /\
    (outcome = Blocked \/ outcome = Threw TypeError) /\
    (forallb (fun g' => passes
                          (g' (path <$> matchedRoute st)
                             (path (route matcher))))
       pre = true ->
     outcome = Blocked /\ n = S (length pre)).
Proof.
  intros Hfind Hredirect Hguards Hpre Hg.
  destruct (verdict_false pre g post _ _ Hpre Hg) as (n & Hn & Hcases).
  rewrite navigateTo_S, Hfind, Hredirect, Hguards. cbn zeta.
  destruct Hcases as [(-> & -> & Hp)|(-> & Hp)]; cbn [fst snd shouldRedirect
    shouldNavigate].
  - eexists Blocked, _, _. split_and!; try done. by left.
  - eexists (Threw TypeError), _, _. split_and!; try done; [by right|].
    by rewrite Hp.
Qed.

(** C2, at the input where the code leaves the claim: a guard that resolves
    to [undefined] ends the navigation to [/one] with a [TypeError], and
    nothing is committed. *)
Theorem navigateTo_undefined_guard_throws fuel :
  navigateTo (S fuel) (lit "/one") (sampleRouter [silentGuard]) =
  Some (Threw TypeError,
        logEvents [GuardCall 0 None (lit "/one")]
          (sampleRouter [silentGuard])).
Proof. reflexivity. Qed.

(** The part of C2 the code does: when every guard passes (none answers
    [false], [undefined], [null] or a redirection), the navigation is
    committed after every guard was called. *)
Lemma navigateTo_all_pass_commits fuel p st matcher :
  findMatcher p st = Some matcher ->
  isRedirect matcher = None ->
  forallb (fun g => passes (g (path <$> matchedRoute st)
                              (path (route matcher))))
    (guards st) = true ->
  navigateTo (S fuel) p st =
  Some (Committed,
        commit matcher p
          (logEvents (guardCalls 0 (length (guards st))
                        (path <$> matchedRoute st) (path (route matcher)))
             st)).
Proof.
  intros Hfind Hredirect Hpass.
  rewrite navigateTo_S, Hfind, Hredirect. cbn zeta.
  by rewrite (verdict_all_pass _ _ _ Hpass).
Qed.

(** C3. A navigation that reaches the guards, where a guard answers with a
    redirection after guards that pass: the call does nothing but log the
    guard calls and go on as [navigateTo target]; the candidate is not
    committed. When that navigation is committed, the path [final] it
    commits is the last path of the chain of calls from [target], the
    route committed is the one the first matcher that matches [final] has,
    and it is not the candidate's; [matchedRoute] is that route, [params]
    and [query] are what its matcher extracts from [final], and the events
    of the whole call are guard calls, then one push of [#final] to the
    history, then one dispatch, from the route matched before the call to
    that route. *)
Theorem navigateTo_guard_redirect fuel p st matcher pre g post target :
  findMatcher p st = Some matcher ->
  isRedirect matcher = None ->
  guards st = pre ++ g :: post ->
  forallb (fun g' => passes
                       (g' (path <$> matchedRoute st) (path (route matcher))))
    pre = true ->
  diverts (g (path <$> matchedRoute st) (path (route matcher)))
    = Some target ->
  let st1 :=
    logEvents (guardCalls 0 (S (length pre)) (path <$> matchedRoute st)
                 (path (route matcher))) st in
  navigateTo (S fuel) p st = navigateTo fuel target st1 /\
  forall st',
    navigateTo fuel target st1 = Some (Committed, st') ->
    exists final finalMatcher calls,
      finalPath fuel st target = Some final /\
      finalPath (S fuel) st p = Some final /\
      findMatcher final st = Some finalMatcher /\
      isRedirect finalMatcher = None /\
      route finalMatcher <> route matcher /\
      matchedRoute st' = Some (route finalMatcher) /\
      params st' = extractParams finalMatcher final /\
      query st' = extractQuery finalMatcher final /\
      forallb isGuardCall calls = true /\
      events st' =
        events st ++ calls
        ++ [PushState (lit "#" ++ final);
            Dispatch (matchedRoute st) (route finalMatcher)].
Proof.
  intros Hfind Hredirect Hguards Hpre Hg st1.
  pose proof (verdict_diverts pre g post _ _ target Hpre Hg) as Hverdict.
  rewrite <- Hguards in Hverdict.
  assert (nextPath st p = Some target) as Hnext.
  { unfold nextPath. by rewrite Hfind, Hredirect, Hverdict. }
  split.
  - rewrite navigateTo_S, Hfind, Hredirect. cbn zeta.
    by rewrite Hverdict.
  - intros st' Hrun.
    apply navigateTo_outcome_final in Hrun
      as (calls & final & Hfinal & Hlast & Hcalls & m & Hm & Hr & _ & ->).
    subst st1. rewrite finalPath_logEvents in Hfinal.
    exists final, m, (guardCalls 0 (S (length pre)) (path <$> matchedRoute st)
                        (path (route matcher)) ++ calls).
    split_and!; try done.
    + cbn [finalPath]. by rewrite Hnext.
    + intros Hsame. change (nextPath st final = None) in Hlast.
      change (findMatcher final st = Some m) in Hm.
      unfold nextPath in Hlast.
      rewrite Hm, Hr, Hsame, Hverdict in Hlast. done.
    + apply forallb_app; [apply guardCalls_are_calls | done].
    + cbn. by rewrite <- !app_assoc.
Qed.

(** C4, as the code has it. In the router of [router.js], whatever a call of
    [navigateTo] that ends has added to the log: when the navigation was
    committed (a route that is not redirect-only matched the last path of
    the chain and every guard passed), the log ends with the push to the
    history and then, after it, the dispatch, and there is no other
    dispatch; when it was not (no match, blocked, or a guard threw), nothing
    was dispatched. In the router of [part_000], which has no guards,
    [navigateTo] on a path that matches dispatches first, inside
    [#matchRoute], and pushes to the history after it; on a path that does
    not match it dispatches nothing. *)
Theorem navigateTo_dispatch_order fuel p st :
  (forall outcome st',
     navigateTo fuel p st = Some (outcome, st') ->
     exists added,
       events st' = events st ++ added /\
       match outcome with
       | Committed =>
           exists calls final matcher,
             findMatcher final st = Some matcher /\
             isRedirect matcher = None /\
             forallb (fun g => passes (g (path <$> matchedRoute st)
                                         (path (route matcher))))
               (guards st) = true /\
             forallb isGuardCall calls = true /\
             added = calls ++ [PushState (lit "#" ++ final);
                               Dispatch (matchedRoute st) (route matcher)]
       | _ => forallb (fun e => negb (isDispatch e)) added = true
       end) /\
  (exists added,
     events (SyncRouter.navigateTo p st) = events st ++ added /\
     match findMatcher p st with
     | Some matcher =>
         added = [Dispatch (matchedRoute st) (route matcher);
                  PushState (lit "#" ++ p)]
     | None => forallb (fun e => negb (isDispatch e)) added = true
     end).
Proof.
  split.
  - intros outcome st' Hrun.
    assert (forall calls, forallb isGuardCall calls = true ->
              forallb (fun e => negb (isDispatch e)) calls = true) as Hquiet.
    { intros calls Hcalls. rewrite forallb_forall in *.
      intros e He%Hcalls. by destruct e. }
    apply navigateTo_outcome in Hrun as (calls & final & Hcalls & Hout).
    destruct outcome.
    + destruct Hout as [_ ->]. eexists. split; [cbn; by rewrite <- app_assoc|].
      apply forallb_app; [by apply Hquiet | done].
    + subst st'. exists calls. split; [done|]. by apply Hquiet.
    + destruct Hout as (m & Hm & Hr & Hpass & ->).
      eexists. split; [cbn; by rewrite <- !app_assoc|].
      by exists calls, final, m.
    + subst st'. exists calls. split; [done|]. by apply Hquiet.
  - unfold SyncRouter.navigateTo, SyncRouter.matchRoute.
    destruct (findMatcher p st) as [matcher|].
    + eexists. split; [cbn; by rewrite <- app_assoc | done].
    + by eexists.
Qed.

Lemma findMatcher_none p st :
  forallb (fun m => negb (checkMatch m p)) (matchers st) = true ->
  findMatcher p st = None.
Proof.
  unfold findMatcher. induction (matchers st) as [|m ms IH]; [done|].
  cbn [forallb List.find]. intros [Hm Hms]%andb_prop.
  destruct (checkMatch m p); [done|]. by apply IH.
Qed.

(** C5. A path that no matcher matches, in the router of [router.js] and in
    the one of [part_000] alike: [navigateTo] ends (it does not throw),
    [matchedRoute] is [null], [params] and [query] are empty, the one event
    is the warning on the console, and the hash stays; nothing is pushed to
    the history and nothing dispatched. *)
Theorem navigateTo_no_match fuel p st :
  forallb (fun m => negb (checkMatch m p)) (matchers st) = true ->
  let message :=
    lit "[Router] No route matches path " ++ [quote] ++ p ++ [quote] in
  (exists st',
     navigateTo (S fuel) p st = Some (NoMatch, st') /\
     matchedRoute st' = None /\ params st' = [] /\ query st' = [] /\
     hash st' = hash st /\ events st' = events st ++ [Warn message]) /\
  (let st' := SyncRouter.navigateTo p st in
   matchedRoute st' = None /\ params st' = [] /\ query st' = [] /\
   hash st' = hash st /\ events st' = events st ++ [Warn message]).
Proof.
  intros Hnone%findMatcher_none message. split.
  - rewrite navigateTo_S, Hnone. by eexists.
  - unfold SyncRouter.navigateTo, SyncRouter.matchRoute. by rewrite Hnone.
Qed.

(** C9. [init] on a router that is initialized does nothing, in both
    routers. And on a router that is not, and that does not listen yet: once
    the call has ended without throwing, the router is initialized, its
    listener has been added once to the listeners of the window, and a
    second call leaves that state as it is. *)
Theorem init_idempotent st :
  (isInitialized st = true ->
   (forall fuel, init fuel st = Some (Resolved, st)) /\
   SyncRouter.init st = st) /\
  (isInitialized st = false ->
   bool_decide (onPopState st ∈ listeners st) = false ->
   (forall fuel st1,
      init fuel st = Some (Resolved, st1) ->
      listeners st1 = listeners st ++ [onPopState st1] /\
      forall fuel', init fuel' st1 = Some (Resolved, st1)) /\
   (let st1 := SyncRouter.init st in
    listeners st1 = listeners st ++ [onPopState st1] /\
    SyncRouter.init st1 = st1)).
Proof.
  split.
  - intros Hinit. unfold init, SyncRouter.init. by rewrite Hinit.
  - intros Hinit Hfresh%bool_decide_eq_false. split.
    + intros fuel st1 Hrun. unfold init in Hrun. rewrite Hinit in Hrun.
      set (st0 := addEventListener _) in Hrun.
      assert (listeners st0 = listeners st ++ [onPopState st0]) as Hl0.
      { subst st0. unfold addEventListener.
        destruct (hash st); cbn; by rewrite decide_False. }
      assert (forall st', isInitialized st' = true ->
                forall fuel', init fuel' st' = Some (Resolved, st'))
        as Hagain.
      { intros st' Hst' fuel'. unfold init. by rewrite Hst'. }
      unfold matchCurrentRoute in Hrun.
      destruct (navigateTo fuel _ st0) as [[outcome st2]|] eqn:Hnav; [|done].
      apply navigateTo_outcome in Hnav as (calls & final & _ & Hout).
      destruct outcome; try discriminate Hrun; injection Hrun as <-.
      * destruct Hout as [_ ->]. split; [exact Hl0 | by apply Hagain].
      * subst st2. split; [exact Hl0 | by apply Hagain].
      * destruct Hout as (m & _ & _ & _ & ->).
        split; [exact Hl0 | by apply Hagain].
    + unfold SyncRouter.init at 1 2. rewrite Hinit. split.
      * unfold SyncRouter.matchCurrentRoute, SyncRouter.matchRoute.
        destruct (findMatcher _ _); unfold addEventListener;
          destruct (hash st); cbn; by rewrite decide_False.
      * unfold SyncRouter.init. done.
Qed.

(** One call of [navigateTo], read through [nextPath]: it calls itself on
    the next path, with some guard calls logged, or it ends. *)
Lemma navigateTo_step fuel p st :
  match nextPath st p with
  | Some q =>
      exists calls,
        navigateTo (S fuel) p st = navigateTo fuel q (logEvents calls st)
  | None => exists result, navigateTo (S fuel) p st = Some result
  end.
Proof.
  rewrite navigateTo_S. unfold nextPath.
  destruct (findMatcher p st) as [matcher|]; [|by eexists].
  destruct (isRedirect matcher) as [target|].
  { exists []. by rewrite logEvents_nil. }
  cbn zeta. destruct (verdict _ _ _).1 as [e|r]; [by eexists|].
  destruct (shouldRedirect r).
  - destruct (redirectPath r); by eexists.
  - destruct (shouldNavigate r); by eexists.
Qed.

Lemma nextPath_logEvents calls st p :
  nextPath (logEvents calls st) p = nextPath st p.
Proof. reflexivity. Qed.


(** And only then: a call that ends has a finite chain. *)
Lemma navigateTo_ends_finite fuel : forall st p result,
  navigateTo fuel p st = Some result ->
  Acc (fun q p' => nextPath st p' = Some q) p.
Proof.
  induction fuel as [|fuel IH]; intros st p result Hrun; [done|].
  constructor. intros q Hnext.
  pose proof (navigateTo_step fuel p st) as Hs. rewrite Hnext in Hs.
  destruct Hs as [calls Hs]. rewrite Hs in Hrun.
  apply IH in Hrun.
  clear -Hrun. induction Hrun as [q _ IHq]. constructor. intros q' Hq'.
  apply IHq. by rewrite nextPath_logEvents.
Qed.



End RouterFacts.

Section RouterExamples.
Import Js Routing Router Chain.

(** Three guards, [true], [false], [true], and a navigation to [/one]: the
    second guard blocks it, the third is not called. *)
Lemma navigateTo_false_guard_aborts_witness :
  exists st',
    navigateTo 1 (lit "/one")
      (sampleRouter [allowGuard; blockGuard; allowGuard]) =
    Some (Blocked, st') /\
    matchedRoute st' = None /\
    hash st' = lit "#/" /\
    events st' = [GuardCall 0 None (lit "/one"); GuardCall 1 None (lit "/one")].
Proof.
  destruct (navigateTo_false_guard_aborts 0 (lit "/one")
              (sampleRouter [allowGuard; blockGuard; allowGuard])
              (exactMatcher routeOne) [allowGuard] blockGuard [allowGuard]
              eq_refl eq_refl eq_refl eq_refl eq_refl)
    as (outcome & st' & n & Hrun & _ & Hst & Hroute & _ & _ & Hhash & _
        & Hblocked).
  destruct (Hblocked eq_refl) as [-> ->].
  exists st'. split_and!; [exact Hrun | exact Hroute | exact Hhash |].
  rewrite Hst. reflexivity.
Defined.

(** A guard that sends [/two] to [/one]: the navigation to [/two] goes on as
    the navigation to [/one], which is committed; one push and one dispatch,
    both for [/one]. *)
Lemma navigateTo_guard_redirect_witness :
  exists st',
    navigateTo 2 (lit "/two") (sampleRouter [allowGuard; divertGuard]) =
    Some (Committed, st') /\
    finalPath 2 (sampleRouter [allowGuard; divertGuard]) (lit "/two")
    = Some (lit "/one") /\
    matchedRoute st' = Some routeOne /\
    events st' =
      [GuardCall 0 None (lit "/two"); GuardCall 1 None (lit "/two");
       GuardCall 0 None (lit "/one"); GuardCall 1 None (lit "/one");
       PushState (lit "#/one"); Dispatch None routeOne].
Proof.
  destruct (navigateTo_guard_redirect 1 (lit "/two")
              (sampleRouter [allowGuard; divertGuard])
              (exactMatcher routeTwo) [allowGuard] divertGuard []
              (lit "/one") eq_refl eq_refl eq_refl eq_refl eq_refl)
    as [Hrun Hcommitted].
  eexists. split; [rewrite Hrun; reflexivity|].
  destruct (Hcommitted _ eq_refl)
    as (final & finalMatcher & calls & Hfinal & Hchain & Hfind & _ & _
        & Hroute & _).
  injection Hfinal as <-. injection Hfind as <-.
  split; [exact Hchain|]. split; [exact Hroute|reflexivity].
Defined.

(** A committed navigation to [/one] past one guard, in the router of
    [router.js]. *)
Lemma navigateTo_dispatch_order_witness :
  exists added,
    added = [GuardCall 0 None (lit "/one"); PushState (lit "#/one");
             Dispatch None routeOne] /\
    exists calls final matcher,
      forallb isGuardCall calls = true /\
      added = calls ++ [PushState (lit "#" ++ final);
                        Dispatch None (route matcher)].
Proof.
  destruct (proj1 (navigateTo_dispatch_order 1 (lit "/one")
                     (sampleRouter [allowGuard]))
              Committed
              (commit (exactMatcher routeOne) (lit "/one")
                 (logEvents [GuardCall 0 None (lit "/one")]
                    (sampleRouter [allowGuard])))
              eq_refl)
    as (added & Hevents & calls & final & matcher & _ & _ & _ & Hcalls
        & Hadded).
  exists added. split.
  - exact (eq_sym (app_inv_head [] _ _ Hevents)).
  - exists calls, final, matcher. split; [exact Hcalls | exact Hadded].
Defined.

(** C4 as stated fails in the router of [part_000]: the navigation to
    [/one] matches a route, there is no guard to pass, and the notification
    is dispatched before the hash is written. *)
Lemma sync_navigateTo_dispatches_before_push :
  events (SyncRouter.navigateTo (lit "/one") (sampleRouter [])) =
  [Dispatch None routeOne; PushState (lit "#/one")].
Proof. reflexivity. Qed.

(** [/unknown], which none of the sample routes matches. *)
Lemma navigateTo_no_match_witness :
  exists st',
    navigateTo 1 (lit "/unknown") (sampleRouter []) = Some (NoMatch, st') /\
    matchedRoute st' = None /\ params st' = [] /\ query st' = [] /\
    hash st' = lit "#/" /\
    events st' =
      [Warn (lit "[Router] No route matches path " ++ [quote]
             ++ lit "/unknown" ++ [quote])].
Proof.
  exact (proj1 (navigateTo_no_match 0 (lit "/unknown") (sampleRouter [])
                  eq_refl)).
Defined.

(** [init] twice on the sample router: one listener, and the second call
    changes nothing. *)
Lemma init_idempotent_witness :
  exists st1,
    init 1 (sampleRouter []) = Some (Resolved, st1) /\
    listeners st1 = [0] /\
    matchedRoute st1 = Some routeHome /\
    init 1 st1 = Some (Resolved, st1).
Proof.
  eexists. split; [reflexivity|].
  destruct (proj1 (proj2 (init_idempotent (sampleRouter [])) eq_refl eq_refl)
              1 _ eq_refl) as [Hlisteners Hagain].
  split; [exact Hlisteners|]. split; [reflexivity | exact (Hagain 1)].
Defined.


End RouterExamples.

(* ===================================================================== *)
(** * Part III: more of the routers *)
(* ===================================================================== *)

Section RouterEffects.
Import Js Routing Router Chain Guarding.

(** A path of plain characters is its own fragment. *)
Lemma isPlain_spec c :
  isPlain c = true ->
  isC0ControlOrSpace c = false /\ isTabOrNewline c = false /\
  isHighSurrogate c = false /\ isLowSurrogate c = false /\
  inFragmentPercentEncodeSet c = false.
Proof.
  unfold isPlain, isC0ControlOrSpace, isTabOrNewline, isHighSurrogate,
    isLowSurrogate, inFragmentPercentEncodeSet.
  intros Hc.
  rewrite !andb_true_iff, negb_true_iff, !orb_false_iff, !N.leb_le,
    !N.eqb_neq in Hc.
  destruct_and!.
  rewrite ?orb_false_iff, ?andb_false_iff, ?N.leb_gt, ?N.eqb_neq, ?N.ltb_ge.
  split_and!; try lia; left; lia.
Qed.

Lemma dropC0_plain (s : jsstring) :
  Forall (fun c => isC0ControlOrSpace c = false) s -> dropC0 s = s.
Proof. destruct 1 as [|c s Hc _]; [done|]. cbn [dropC0]. by rewrite Hc. Qed.

Lemma filter_plain (p : jsstring) :
  Forall (fun c => isPlain c = true) p ->
  List.filter (fun c => negb (isTabOrNewline c)) p = p.
Proof.
  induction 1 as [|c p Hc _ IH]; [done|]. cbn [List.filter].
  apply isPlain_spec in Hc as (_ & -> & _). cbn [negb]. by rewrite IH.
Qed.

Lemma encodeFragment_plain (p : jsstring) :
  Forall (fun c => isPlain c = true) p -> encodeFragment p = p.
Proof.
  unfold encodeFragment.
  induction 1 as [|c p Hc _ IH]; [done|]. cbn [scalarValues].
  apply isPlain_spec in Hc as (_ & _ & -> & -> & Hset).
  cbn [flat_map]. by rewrite Hset, IH.
Qed.

Lemma hashOfUrl_plain p :
  p <> [] -> forallb isPlain p = true ->
  hashOfUrl (lit "#" ++ p) = lit "#" ++ p.
Proof.
  intros Hp Hplain.
  assert (Forall (fun c => isPlain c = true) p) as Hall.
  { apply Forall_forall. intros c Hc%list_elem_of_In.
    by apply (proj1 (forallb_forall _ _) Hplain). }
  change (lit "#" ++ p) with (35%N :: p).
  assert (Forall (fun c => isC0ControlOrSpace c = false) (35%N :: p)) as Hc0.
  { constructor; [done|]. eapply Forall_impl; [exact Hall|].
    intros c Hc. by apply isPlain_spec in Hc as (? & _). }
  assert (Forall (fun c => isC0ControlOrSpace c = false) (rev (35%N :: p)))
    as Hrev by by apply Forall_rev.
  unfold hashOfUrl, stripC0.
  rewrite (dropC0_plain _ Hc0), (dropC0_plain _ Hrev), rev_involutive.
  change (List.filter ?f (35%N :: p)) with (35%N :: List.filter f p).
  rewrite (filter_plain p Hall).
  change (fragmentOf (35%N :: p)) with (Some p). cbv beta iota zeta.
  rewrite (encodeFragment_plain p Hall). by destruct p.
Qed.

(** X1. What a call of [navigateTo(p)] that ends has changed, by the way it
    ended, [final] being the last path of the chain of calls from [p]. It
    never touches the matchers, the guards, the initialized flag or the
    listeners, and only adds to the log. Committed: [matchedRoute] is the
    route of the first matcher that matches [final], [params] and [query]
    are what that matcher extracts from [final] (nothing of the old ones
    stays) and the hash is the one the browser makes of [#final]: [#final]
    itself when [final] is not empty and made of plain characters. No
    match: nothing matches [final], [matchedRoute] is [null], [params] and
    [query] are empty, the hash stays. Blocked or thrown: all four stay. *)
Theorem navigateTo_effect fuel p st outcome st' :
  navigateTo fuel p st = Some (outcome, st') ->
  (matchers st' = matchers st /\ guards st' = guards st /\
   isInitialized st' = isInitialized st /\ listeners st' = listeners st /\
   onPopState st' = onPopState st /\
   exists added, events st' = events st ++ added) /\
  exists final,
    finalPath fuel st p = Some final /\
    match outcome with
    | Committed =>
        exists matcher,
          findMatcher final st = Some matcher /\
          isRedirect matcher = None /\
          matchedRoute st' = Some (route matcher) /\
          params st' = extractParams matcher final /\
          query st' = extractQuery matcher final /\
          hash st' = hashOfUrl (lit "#" ++ final) /\
          (final <> [] -> forallb isPlain final = true ->
           hash st' = lit "#" ++ final)
    | NoMatch =>
        findMatcher final st = None /\
        matchedRoute st' = None /\ params st' = [] /\ query st' = [] /\
        hash st' = hash st
    | Blocked | Threw _ =>
        matchedRoute st' = matchedRoute st /\ params st' = params st /\
        query st' = query st /\ hash st' = hash st
    end.
Proof.
  intros Hrun.
  apply navigateTo_outcome_final in Hrun
    as (calls & final & Hfinal & _ & _ & Hout).
  destruct outcome.
  - destruct Hout as [Hnone ->]. split.
    + split_and!; try done. eexists. cbn. by rewrite <- app_assoc.
    + by exists final.
  - subst st'. split; [|by exists final]. split_and!; try done. by eexists.
  - destruct Hout as (m & Hm & Hr & _ & ->). split.
    + split_and!; try done. eexists. cbn. by rewrite <- !app_assoc.
    + exists final. split; [done|]. exists m. split_and!; try done.
      intros Hne Hplain. cbn. by apply hashOfUrl_plain.
  - subst st'. split; [|by exists final]. split_and!; try done. by eexists.
Qed.

(** The guards, when one of them throws after guards that pass. *)
Lemma verdict_throws pre g post from to e :
  forallb (fun g' => passes (g' from to)) pre = true ->
  throws (g from to) = Some e ->
  verdict (pre ++ g :: post) from to = (inl e, S (length pre)).
Proof.
  intros Hpre Hg. induction pre as [|a pre IH]; cbn [app verdict length].
  - unfold throws in Hg.
    destruct (g from to) as [[| |[]| | |fields]|reason]; try done;
      by injection Hg as <-.
  - cbn [forallb] in Hpre. apply andb_prop in Hpre as [Ha Hpre].
    rewrite (IH Hpre). unfold passes in Ha.
    destruct (a from to) as [[| |[]| | |fields]|reason]; try done.
    cbn [getPath] in *. by destruct (default _ _).
Qed.

(** X2. A guard that rejects, or that resolves to [undefined] or to [null],
    after guards that pass: [navigateTo] rejects, with the reason of the
    guard or with a [TypeError]; the guards up to this one were called, no
    later one, and nothing else happened. *)
Theorem navigateTo_guard_throws fuel p st matcher pre g post e :
  findMatcher p st = Some matcher ->
  isRedirect matcher = None ->
  guards st = pre ++ g :: post ->
  forallb (fun g' => passes
                       (g' (path <$> matchedRoute st) (path (route matcher))))
    pre = true ->
  throws (g (path <$> matchedRoute st) (path (route matcher))) = Some e ->
  navigateTo (S fuel) p st =
  Some (Threw e,
        logEvents (guardCalls 0 (S (length pre)) (path <$> matchedRoute st)
                     (path (route matcher))) st).
Proof.
  intros Hfind Hredirect Hguards Hpre Hg.
  rewrite navigateTo_S, Hfind, Hredirect, Hguards. cbn zeta.
  by rewrite (verdict_throws pre g post _ _ e Hpre Hg).
Qed.

Lemma findMatcher_first p st pre matcher post :
  matchers st = pre ++ matcher :: post ->
  forallb (fun m => negb (checkMatch m p)) pre = true ->
  checkMatch matcher p = true ->
  findMatcher p st = Some matcher.
Proof.
  intros Hms Hpre Hm. unfold findMatcher. rewrite Hms. clear Hms.
  induction pre as [|a pre IH]; cbn [app List.find].
  - by rewrite Hm.
  - cbn [forallb] in Hpre. apply andb_prop in Hpre as [Ha Hpre].
    destruct (checkMatch a p); [done|]. by apply IH.
Qed.

(** X3. The first matcher in the order of the routes that matches the path
    is the one used, whatever matchers come after it: in the router of
    [part_000], and in the router of [router.js] when that route is not
    redirect-only and the guards pass, [navigateTo] ends with its route as
    [matchedRoute], with the parameters and the query it extracts from the
    path, and with the hash the browser makes of [#] and the path, which
    is percent-encoded: it is [#] and the path itself when the path is
    not empty and made of plain characters. *)
Theorem navigateTo_first_match fuel p st pre matcher post :
  matchers st = pre ++ matcher :: post ->
  forallb (fun m => negb (checkMatch m p)) pre = true ->
  checkMatch matcher p = true ->
  (let st' := SyncRouter.navigateTo p st in
   matchedRoute st' = Some (route matcher) /\
   params st' = extractParams matcher p /\
   query st' = extractQuery matcher p /\
   hash st' = hashOfUrl (lit "#" ++ p) /\
   (p <> [] -> forallb isPlain p = true -> hash st' = lit "#" ++ p)) /\
  (isRedirect matcher = None ->
   forallb (fun g => passes (g (path <$> matchedRoute st)
                               (path (route matcher))))
     (guards st) = true ->
   exists st',
     navigateTo (S fuel) p st = Some (Committed, st') /\
     matchedRoute st' = Some (route matcher) /\
     params st' = extractParams matcher p /\
     query st' = extractQuery matcher p /\
     hash st' = hashOfUrl (lit "#" ++ p) /\
     (p <> [] -> forallb isPlain p = true -> hash st' = lit "#" ++ p)).
Proof.
  intros Hms Hpre Hm.
  pose proof (findMatcher_first p st pre matcher post Hms Hpre Hm) as Hfind.
  split.
  - unfold SyncRouter.navigateTo, SyncRouter.matchRoute. rewrite Hfind.
    cbn -[hashOfUrl]. split_and!; try done.
    intros Hne Hplain. by apply hashOfUrl_plain.
  - intros Hredirect Hpass.
    rewrite (navigateTo_all_pass_commits fuel p st matcher Hfind Hredirect
               Hpass).
    eexists. split; [done|]. cbn -[hashOfUrl]. split_and!; try done.
    intros Hne Hplain. by apply hashOfUrl_plain.
Qed.

(** X4. In [router.js] a redirect-only route is never the matched route:
    when [matchedRoute] is not one before a call of [navigateTo] or of
    [init], it is not one after it. *)
Theorem redirect_route_never_matched fuel p st :
  (forall r, matchedRoute st = Some r -> redirect r = None) ->
  (forall outcome st',
     navigateTo fuel p st = Some (outcome, st') ->
     forall r, matchedRoute st' = Some r -> redirect r = None) /\
  (forall completion st',
     init fuel st = Some (completion, st') ->
     forall r, matchedRoute st' = Some r -> redirect r = None).
Proof.
  intros Hst.
  assert (forall q st0 outcome st', matchedRoute st0 = matchedRoute st ->
            navigateTo fuel q st0 = Some (outcome, st') ->
            forall r, matchedRoute st' = Some r -> redirect r = None) as Hnav.
  { intros q st0 outcome st' Hsame Hrun r Hr.
    apply navigateTo_outcome in Hrun as (calls & final & _ & Hout).
    destruct outcome.
    - destruct Hout as [_ ->]. done.
    - subst st'. apply Hst. by rewrite <- Hsame.
    - destruct Hout as (m & _ & Hm & _ & ->). cbn in Hr.
      by injection Hr as <-.
    - subst st'. apply Hst. by rewrite <- Hsame. }
  split; [intros outcome st'; by apply Hnav|].
  intros completion st' Hrun r Hr. unfold init in Hrun.
  destruct (isInitialized st).
  { injection Hrun as _ <-. by apply Hst. }
  unfold matchCurrentRoute in Hrun.
  set (st0 := addEventListener _) in Hrun.
  assert (matchedRoute st0 = matchedRoute st) as Hsame.
  { subst st0. unfold addEventListener. destruct (hash st); cbn;
      by destruct (decide _). }
  destruct (navigateTo fuel _ st0) as [[outcome st1]|] eqn:Hnavigate; [|done].
  pose proof (Hnav _ _ _ _ Hsame Hnavigate) as Hst1.
  destruct outcome; injection Hrun as _ <-; by apply Hst1.
Qed.

End RouterEffects.

Section RouterEntryPoints.
Import Js Routing Router Popstate.

(** What [init] does before it matches leaves the path to match as it was:
    [/] for an empty hash, the hash without its [#] otherwise. *)
Lemma currentRouteHash_prepared st :
  currentRouteHash
    (addEventListener
       match hash st with
       | [] => replaceState (lit "#/") st
       | _ => st
       end) = currentRouteHash st.
Proof.
  assert (hashOfUrl (lit "#/") = lit "#/") as Hroot by reflexivity.
  unfold addEventListener.
  destruct (hash st) eqn:Hhash; cbn -[hashOfUrl]; destruct (decide _);
    cbn -[hashOfUrl]; unfold currentRouteHash; cbn -[hashOfUrl];
    by rewrite ?Hroot, ?Hhash.
Qed.

(** The state in which [init] matches the current route. *)
Lemma init_prepared st :
  let st0 :=
    addEventListener
      match hash st with
      | [] => replaceState (lit "#/") st
      | _ => st
      end in
  listening st0 = true /\
  hash st0 = match hash st with [] => lit "#/" | h => h end /\
  (matchers st0 = matchers st /\ guards st0 = guards st /\
   matchedRoute st0 = matchedRoute st /\ onPopState st0 = onPopState st /\
   isInitialized st0 = isInitialized st /\
   listeners st0 =
     if decide (onPopState st ∈ listeners st) then listeners st
     else listeners st ++ [onPopState st]) /\
  events st0 =
    events st
    ++ match hash st with [] => [ReplaceState (lit "#/")] | _ => [] end
    ++ [AddEventListener (onPopState st)].
Proof.
  unfold addEventListener, listening.
  destruct (hash st) eqn:Hhash; cbn; destruct (decide _) as [Hin|Hout]; cbn;
    split_and!; try done; try (by rewrite <- app_assoc);
    try (by destruct (decide _));
    try (by apply bool_decide_eq_true_2);
    apply bool_decide_eq_true_2, elem_of_app; right;
    by apply list_elem_of_singleton.
Qed.

(** X5. [init] of [part_000] on a router that is not initialized: the
    router is initialized and listens; an empty hash is replaced by [#/],
    another hash stays; the path after the hash ([/] for an empty one) is
    matched, and its route, if there is one, dispatched, from the route
    matched before; nothing is pushed to the history. *)
Theorem sync_init_effect st :
  isInitialized st = false ->
  let st' := SyncRouter.init st in
  isInitialized st' = true /\
  listening st' = true /\
  hash st' = match hash st with [] => lit "#/" | h => h end /\
  matchedRoute st' = route <$> findMatcher (currentRouteHash st) st /\
  events st' =
    events st
    ++ match hash st with [] => [ReplaceState (lit "#/")] | _ => [] end
    ++ [AddEventListener (onPopState st)]
    ++ match findMatcher (currentRouteHash st) st with
       | Some matcher => [Dispatch (matchedRoute st) (route matcher)]
       | None => []
       end.
Proof.
  intros Hinit st'. subst st'. unfold SyncRouter.init. rewrite Hinit.
  unfold SyncRouter.matchCurrentRoute. rewrite currentRouteHash_prepared.
  unfold SyncRouter.matchRoute.
  destruct (init_prepared st)
    as (Hlistening & Hhash & (Hmatchers & _ & Hroute & _) & Hevents).
  set (st0 := addEventListener _) in *.
  unfold findMatcher. rewrite Hmatchers.
  destruct (find _ (matchers st)) as [matcher|]; cbn.
  - split_and!; try done. rewrite Hevents, Hroute. by rewrite <- !app_assoc.
  - split_and!; try done.
Qed.

(** X6. [init] of [router.js] on a router that is not initialized, when the
    path after the hash matches a route that is not redirect-only and every
    guard passes: the call resolves, the router is initialized and listens,
    and the log is the replacement of an empty hash by [#/], the listener,
    the guard calls, then a push of the same path to the history (a new
    entry for the page that is loading) and the dispatch. *)
Theorem init_commits_with_push fuel st matcher :
  isInitialized st = false ->
  findMatcher (currentRouteHash st) st = Some matcher ->
  isRedirect matcher = None ->
  forallb (fun g => passes (g (path <$> matchedRoute st)
                              (path (route matcher))))
    (guards st) = true ->
  exists st',
    init (S fuel) st = Some (Resolved, st') /\
    isInitialized st' = true /\
    listening st' = true /\
    matchedRoute st' = Some (route matcher) /\
    hash st' = hashOfUrl (lit "#" ++ currentRouteHash st) /\
    events st' =
      events st
      ++ match hash st with [] => [ReplaceState (lit "#/")] | _ => [] end
      ++ [AddEventListener (onPopState st)]
      ++ guardCalls 0 (length (guards st)) (path <$> matchedRoute st)
           (path (route matcher))
      ++ [PushState (lit "#" ++ currentRouteHash st);
          Dispatch (matchedRoute st) (route matcher)].
Proof.
  intros Hinit Hfind Hredirect Hpass. unfold init. rewrite Hinit.
  unfold matchCurrentRoute. rewrite currentRouteHash_prepared.
  destruct (init_prepared st)
    as (Hlistening & Hhash & (Hmatchers & Hguards & Hroute & _) & Hevents).
  set (st0 := addEventListener _) in *.
  rewrite (navigateTo_all_pass_commits fuel _ st0 matcher);
    [| by unfold findMatcher; rewrite Hmatchers | done
     | by rewrite Hroute, Hguards].
  eexists. split; [done|]. cbn.
  split_and!; try done. rewrite Hevents, Hroute, Hguards.
  by rewrite <- !app_assoc.
Qed.

(** X7. A [popstate] event on a router that listens, the browser being at
    the hash [h]. In [part_000] the path is matched and its route
    dispatched: the history is left alone. In [router.js] the event goes
    through [navigateTo]: when it is committed, the path the browser is
    already at is pushed to the history once more. *)
Theorem popstate_history fuel h st matcher :
  listening st = true ->
  findMatcher (currentRouteHash (setHash h st)) st = Some matcher ->
  (let st' := syncPopstate h st in
   matchedRoute st' = Some (route matcher) /\
   hash st' = h /\
   events st' = events st ++ [Dispatch (matchedRoute st) (route matcher)]) /\
  (isRedirect matcher = None ->
   forallb (fun g => passes (g (path <$> matchedRoute st)
                               (path (route matcher))))
     (guards st) = true ->
   exists st',
     popstate h (S fuel) st = Some (Some Committed, st') /\
     matchedRoute st' = Some (route matcher) /\
     events st' =
       events st
       ++ guardCalls 0 (length (guards st)) (path <$> matchedRoute st)
            (path (route matcher))
       ++ [PushState (lit "#" ++ currentRouteHash (setHash h st));
           Dispatch (matchedRoute st) (route matcher)]).
Proof.
  intros Hlistening Hfind. split.
  - unfold syncPopstate.
    change (listening (setHash h st)) with (listening st).
    rewrite Hlistening.
    unfold SyncRouter.matchCurrentRoute, SyncRouter.matchRoute.
    change (findMatcher ?q (setHash h st)) with (findMatcher q st).
    by rewrite Hfind.
  - intros Hredirect Hpass. unfold popstate.
    change (listening (setHash h st)) with (listening st).
    rewrite Hlistening. unfold matchCurrentRoute.
    rewrite (navigateTo_all_pass_commits fuel _ (setHash h st) matcher);
      [| done | done | done].
    eexists. split; [done|]. cbn. split; [done|]. by rewrite <- !app_assoc.
Qed.

End RouterEntryPoints.

(* ===================================================================== *)
(** * Part IV: subscriptions and the end of a router *)
(* ===================================================================== *)

Section LifecycleFacts.
Import Js Routing Router Popstate Lifecycle.

(** A property of the subscription fields that every method keeps is kept
    by every program. *)
Section Invariant.
Variable I : Subscribed -> Prop.
Hypothesis subscribe_keeps : forall h s, I s -> I (subscribe h s).
Hypothesis unsubscribe_keeps : forall h s, I s -> I (unsubscribe h s).
Hypothesis removeEventListener_keeps :
  forall s, I s -> I (removeEventListener s).
Hypothesis back_keeps : forall s, I s -> I (back s).
Hypothesis forward_keeps : forall s, I s -> I (forward s).
Hypothesis router_keeps : forall s st,
  I s ->
  I {| router := st; subscriptions := subscriptions s;
       subscriberFns := subscriberFns s; calls := calls s |}.

Lemma unsubscribe_all_keeps hs : forall s,
  I s -> I (foldl (fun s h => unsubscribe h s) s hs).
Proof using unsubscribe_keeps.
  induction hs as [|h hs IH]; intros s Hs; [done|].
  cbn [foldl]. by apply IH, unsubscribe_keeps.
Qed.

Lemma destroy_keeps s : I s -> I (destroy s).
Proof using unsubscribe_keeps removeEventListener_keeps router_keeps.
  intros Hs. unfold destroy. destruct (isInitialized _); [|done].
  by apply router_keeps, unsubscribe_all_keeps, removeEventListener_keeps.
Qed.

Lemma run_keeps ops : forall s, I s -> I (run ops s).
Proof using All.
  unfold run. induction ops as [|op ops IH]; intros s Hs; [done|].
  cbn [foldl]. apply IH. destruct op; cbn [step]; auto using destroy_keeps.
Qed.

End Invariant.

Lemma filter_ne_id (h : nat) (l : list nat) :
  h ∉ l -> filter (fun x => x <> h) l = l.
Proof.
  induction l as [|a l IH]; [done|]. intros Hout.
  apply not_elem_of_cons in Hout as [Hne Hout].
  rewrite filter_cons_True by done. by rewrite IH.
Qed.

Lemma subscribe_consistent h s : consistent s -> consistent (subscribe h s).
Proof.
  intros [Hnodup Hiff]. split; cbn.
  - destruct (decide (h ∈ subscriberFns s)) as [Hin|Hout]; [done|].
    apply NoDup_app. split_and!; [done| |apply NoDup_singleton].
    intros x Hx ->%list_elem_of_singleton. done.
  - intros h'. destruct (decide (h' = h)) as [->|Hne].
    + rewrite lookup_insert_eq. split; [by eexists|]. intros _.
      destruct (decide (h ∈ subscriberFns s)); [done|].
      apply elem_of_app. right. by apply list_elem_of_singleton.
    + rewrite lookup_insert_ne by done. rewrite <- Hiff.
      destruct (decide (h ∈ subscriberFns s)); [done|].
      rewrite elem_of_app, list_elem_of_singleton. naive_solver.
Qed.

Lemma unsubscribe_consistent h s :
  consistent s -> consistent (unsubscribe h s).
Proof.
  intros [Hnodup Hiff]. unfold unsubscribe.
  destruct (subscriptions s !! h) as [t|] eqn:Hh; [|done].
  split; cbn.
  - by apply NoDup_filter.
  - intros h'. rewrite list_elem_of_filter, Hiff.
    destruct (decide (h' = h)) as [->|Hne].
    + rewrite lookup_delete_eq. split; [naive_solver|]. by intros [? ?].
    + rewrite lookup_delete_ne by done. naive_solver.
Qed.

(** The loop of [destroy] over the handlers [hs], which all have a function
    in the map [m], the map of the router as far as [hs] goes. *)
Lemma unsubscribe_all (m : gmap nat nat) hs : forall s,
  NoDup hs ->
  (forall h, h ∈ hs -> is_Some (m !! h) /\ subscriptions s !! h = m !! h) ->
  let s' := foldl (fun s h => unsubscribe h s) s hs in
  router s' = router s /\
  (forall h,
     subscriptions s' !! h =
     if decide (h ∈ hs) then None else subscriptions s !! h) /\
  (forall h, h ∈ subscriberFns s' <-> h ∈ subscriberFns s /\ h ∉ hs) /\
  exists tokens,
    Forall2 (fun h t => m !! h = Some t) hs tokens /\
    calls s' = calls s ++ (CallUnsubscribe <$> tokens).
Proof.
  induction hs as [|a hs IH]; intros s Hnodup Hhs; cbn [foldl].
  - split_and!; [done|done| |].
    + intros h. rewrite elem_of_nil. naive_solver.
    + exists []. split; [constructor|]. cbn. by rewrite app_nil_r.
  - apply NoDup_cons in Hnodup as [Ha Hnodup].
    destruct (Hhs a) as [[t Ht] Hsa]; [left|].
    assert (unsubscribe a s =
            {| router := router s;
               subscriptions := delete a (subscriptions s);
               subscriberFns := filter (fun h => h <> a) (subscriberFns s);
               calls := calls s ++ [CallUnsubscribe t] |}) as Hstep.
    { unfold unsubscribe. by rewrite Hsa, Ht. }
    rewrite Hstep. set (s1 := Build_Subscribed _ _ _ _).
    destruct (IH s1 Hnodup)
      as (Hrouter & Hsubs & Hfns & tokens & Htokens & Hcalls).
    { intros h Hh. destruct (Hhs h) as [Hsome Heq]; [by right|].
      split; [done|]. cbn. rewrite lookup_delete_ne; [done|].
      intros ->. done. }
    cbn in Hrouter, Hsubs, Hfns, Hcalls.
    split_and!.
    + done.
    + intros h. rewrite Hsubs.
      destruct (decide (h ∈ hs)) as [Hin|Hout].
      * rewrite decide_True; [done|by right].
      * destruct (decide (h = a)) as [->|Hne].
        -- rewrite lookup_delete_eq. rewrite decide_True; [done|left].
        -- rewrite lookup_delete_ne by done. rewrite decide_False; [done|].
           rewrite elem_of_cons. naive_solver.
    + intros h. rewrite Hfns, list_elem_of_filter, elem_of_cons. naive_solver.
    + exists (t :: tokens). split; [by constructor|].
      rewrite Hcalls. cbn. by rewrite <- app_assoc.
Qed.

(** [destroy] on an initialized router. *)
Lemma destroy_initialized s :
  consistent s ->
  isInitialized (router s) = true ->
  let s' := destroy s in
  router s' =
    setInitialized false
      (setListeners
         (filter (fun l => l <> onPopState (router s)) (listeners (router s)))
         (router s)) /\
  subscriberFns s' = [] /\
  subscriptions s' = ∅ /\
  exists tokens,
    Forall2 (fun h t => subscriptions s !! h = Some t) (subscriberFns s)
      tokens /\
    calls s' =
      calls s ++ RemoveEventListener (onPopState (router s))
                 :: (CallUnsubscribe <$> tokens).
Proof.
  intros [Hnodup Hiff] Hinit. unfold destroy. rewrite Hinit.
  edestruct (unsubscribe_all (subscriptions s) (subscriberFns s)
               (removeEventListener s) Hnodup)
    as (Hrouter & Hsubs & Hfns & tokens & Htokens & Hcalls).
  { intros h Hh. split; [by apply Hiff|done]. }
  cbn [subscriberFns removeEventListener] in *. cbn.
  split_and!.
  - by rewrite Hrouter.
  - destruct (foldl _ _ _).(subscriberFns) as [|h fns] eqn:Hempty; [done|].
    exfalso. destruct (Hfns h) as [[H1 H2] _]; [left|]. done.
  - apply map_eq. intros h. rewrite Hsubs, lookup_empty.
    destruct (decide _) as [Hin|Hout]; [done|].
    apply eq_None_not_Some. by rewrite <- Hiff.
  - exists tokens. split; [done|]. rewrite Hcalls. cbn.
    by rewrite <- app_assoc.
Qed.

Lemma unsubscribed_consistent st : consistent (unsubscribed st).
Proof.
  split; [constructor|]. intros h. cbn. rewrite lookup_empty.
  split; [by intros ?%elem_of_nil|by intros [? ?]].
Qed.

(** X8. The set of handlers and the map of their unsubscribe functions stay
    in step: if the set holds each handler once, and exactly the handlers
    the map has a function for, then so it is after any sequence of
    [subscribe], [unsubscribe], [destroy], [back] and [forward]. *)
Theorem run_consistent ops s :
  consistent s -> consistent (run ops s).
Proof.
  apply run_keeps; try done.
  - apply subscribe_consistent.
  - apply unsubscribe_consistent.
Qed.

(** X9. [destroy] on an initialized router: the router's listener is
    removed from the window (the others stay), so that a later [popstate]
    does not reach it; the stored unsubscribe function of every handler is
    called once, in the order the handlers were added, after the listener
    was removed; no handler is left; the router is not initialized, and a
    second [destroy] does nothing. The matched route, the parameters, the
    query and the guards are not reset. *)
Theorem destroy_effect s :
  consistent s ->
  isInitialized (router s) = true ->
  let s' := destroy s in
  (isInitialized (router s') = false /\
   listeners (router s') =
     filter (fun l => l <> onPopState (router s)) (listeners (router s)) /\
   (forall h fuel,
      popstate h fuel (router s') = Some (None, setHash h (router s')))) /\
  (subscriberFns s' = [] /\ subscriptions s' = ∅ /\
   exists tokens,
     Forall2 (fun h t => subscriptions s !! h = Some t) (subscriberFns s)
       tokens /\
     calls s' =
       calls s ++ RemoveEventListener (onPopState (router s))
                  :: (CallUnsubscribe <$> tokens)) /\
  (matchedRoute (router s') = matchedRoute (router s) /\
   params (router s') = params (router s) /\
   query (router s') = query (router s) /\
   hash (router s') = hash (router s) /\
   guards (router s') = guards (router s)) /\
  destroy s' = s'.
Proof.
  intros Hs Hinit s'.
  destruct (destroy_initialized s Hs Hinit)
    as (Hrouter & Hfns & Hsubs & Hcalls).
  fold s' in Hrouter, Hfns, Hsubs, Hcalls.
  split_and!; try done; try (by rewrite Hrouter).
  - intros h fuel. unfold popstate, listening. rewrite Hrouter. cbn.
    rewrite bool_decide_eq_false_2; [done|].
    rewrite list_elem_of_filter. naive_solver.
  - unfold destroy at 1. by rewrite Hrouter.
Qed.

(** X10. [subscribe] then [unsubscribe] of a handler that was not
    subscribed: the dispatcher is asked to subscribe it, the function it
    returned is called, and the set and the map are as before. *)
Theorem subscribe_unsubscribe_round_trip h s :
  consistent s ->
  h ∉ subscriberFns s ->
  let s' := unsubscribe h (subscribe h s) in
  subscriptions s' = subscriptions s /\
  subscriberFns s' = subscriberFns s /\
  router s' = router s /\
  calls s' = calls s ++ [Subscribe h; CallUnsubscribe (length (calls s))].
Proof.
  intros [Hnodup Hiff] Hout s'. subst s'. unfold unsubscribe.
  cbn [subscriptions subscribe]. rewrite lookup_insert_eq. cbn.
  rewrite decide_False by done.
  split_and!; try done.
  - rewrite delete_insert_eq. apply delete_id.
    apply eq_None_not_Some. by rewrite <- Hiff.
  - rewrite filter_app, filter_ne_id by done.
    rewrite filter_cons_False by naive_solver. by rewrite app_nil_r.
  - by rewrite <- app_assoc.
Qed.

(** The functions in the map, and the ones that were called, came from
    calls of [subscribe] already made. *)
Lemma run_tokens_known ops : forall s,
  ((forall h t, subscriptions s !! h = Some t -> t < length (calls s)) /\
   (forall t, CallUnsubscribe t ∈ calls s -> t < length (calls s))) ->
  (forall h t, subscriptions (run ops s) !! h = Some t ->
               t < length (calls (run ops s))) /\
  (forall t, CallUnsubscribe t ∈ calls (run ops s) ->
             t < length (calls (run ops s))).
Proof.
  apply (run_keeps (fun s =>
    (forall h t, subscriptions s !! h = Some t -> t < length (calls s)) /\
    (forall t, CallUnsubscribe t ∈ calls s -> t < length (calls s)))).
  - intros h s [Hmap Hcalled]. cbn. rewrite length_app. cbn. split.
    + intros h' t [[_ <-]|[_ Ht]]%lookup_insert_Some; [lia|].
      apply Hmap in Ht. lia.
    + intros t [Ht|Ht%list_elem_of_singleton]%elem_of_app; [|done].
      apply Hcalled in Ht. lia.
  - intros h s [Hmap Hcalled]. unfold unsubscribe.
    destruct (subscriptions s !! h) as [t0|] eqn:Hh; [|done].
    cbn. rewrite length_app. cbn. split.
    + intros h' t [_ Ht]%lookup_delete_Some. apply Hmap in Ht. lia.
    + intros t [Ht|Ht%list_elem_of_singleton]%elem_of_app.
      * apply Hcalled in Ht. lia.
      * injection Ht as ->. apply Hmap in Hh. lia.
  - intros s [Hmap Hcalled]. cbn. rewrite length_app. cbn. split.
    + intros h t Ht. apply Hmap in Ht. lia.
    + intros t [Ht|Ht%list_elem_of_singleton]%elem_of_app; [|done].
      apply Hcalled in Ht. lia.
  - intros s [Hmap Hcalled]. cbn. rewrite length_app. cbn. split.
    + intros h t Ht. apply Hmap in Ht. lia.
    + intros t [Ht|Ht%list_elem_of_singleton]%elem_of_app; [|done].
      apply Hcalled in Ht. lia.
  - intros s [Hmap Hcalled]. cbn. rewrite length_app. cbn. split.
    + intros h t Ht. apply Hmap in Ht. lia.
    + intros t [Ht|Ht%list_elem_of_singleton]%elem_of_app; [|done].
      apply Hcalled in Ht. lia.
  - done.
Qed.

(** A function that is not in the map and was not called is not called
    later. *)
Lemma run_never_called (lost : nat) ops : forall s,
  (lost < length (calls s) /\
   (forall h t, subscriptions s !! h = Some t -> t <> lost) /\
   CallUnsubscribe lost ∉ calls s) ->
  lost < length (calls (run ops s)) /\
  (forall h t, subscriptions (run ops s) !! h = Some t -> t <> lost) /\
  CallUnsubscribe lost ∉ calls (run ops s).
Proof.
  apply (run_keeps (fun s =>
    lost < length (calls s) /\
    (forall h t, subscriptions s !! h = Some t -> t <> lost) /\
    CallUnsubscribe lost ∉ calls s)).
  - intros h s (Hlt & Hmap & Hcalled). cbn. rewrite length_app. cbn.
    split_and!; [lia| |].
    + intros h' t [[_ <-]|[_ Ht]]%lookup_insert_Some; [lia|by eapply Hmap].
    + by intros [Ht|Ht%list_elem_of_singleton]%elem_of_app.
  - intros h s (Hlt & Hmap & Hcalled). unfold unsubscribe.
    destruct (subscriptions s !! h) as [t0|] eqn:Hh; [|done].
    cbn. rewrite length_app. cbn. split_and!; [lia| |].
    + intros h' t [_ Ht]%lookup_delete_Some. by eapply Hmap.
    + intros [Ht|Ht%list_elem_of_singleton]%elem_of_app; [done|].
      injection Ht as ->. by eapply Hmap.
  - intros s (Hlt & Hmap & Hcalled). cbn. rewrite length_app. cbn.
    split_and!; [lia|done|].
    by intros [Ht|Ht%list_elem_of_singleton]%elem_of_app.
  - intros s (Hlt & Hmap & Hcalled). cbn. rewrite length_app. cbn.
    split_and!; [lia|done|].
    by intros [Ht|Ht%list_elem_of_singleton]%elem_of_app.
  - intros s (Hlt & Hmap & Hcalled). cbn. rewrite length_app. cbn.
    split_and!; [lia|done|].
    by intros [Ht|Ht%list_elem_of_singleton]%elem_of_app.
  - done.
Qed.

(** X11. A handler subscribed twice in a row, on a router that any calls
    were made on since it was constructed: [unsubscribe] calls the function
    the second subscription returned and the handler is no longer in the
    set; the function the first subscription returned was overwritten in the
    map, and no later [unsubscribe] or [destroy] ever calls it. *)
Theorem resubscribe_drops_first st ops0 h :
  let s := run ops0 (unsubscribed st) in
  let first := length (calls s) in
  let s' := subscribe h (subscribe h s) in
  calls (unsubscribe h s') =
    calls s ++ [Subscribe h; Subscribe h; CallUnsubscribe (S first)] /\
  (h ∉ subscriberFns (unsubscribe h s')) /\
  forall ops, CallUnsubscribe first ∉ calls (run ops s').
Proof.
  intros s first s'.
  destruct (run_tokens_known ops0 (unsubscribed st)) as [Hmap Hcalled].
  { split; [|by intros t Ht%elem_of_nil].
    intros h' t Ht. cbn in Ht. by rewrite lookup_empty in Ht. }
  fold s in Hmap, Hcalled.
  split_and!.
  - unfold unsubscribe, s'. cbn [subscriptions subscribe].
    rewrite lookup_insert_eq. cbn. rewrite length_app, <- !app_assoc. cbn.
    by rewrite Nat.add_1_r.
  - unfold unsubscribe, s'. cbn [subscriptions subscribe].
    rewrite lookup_insert_eq. cbn.
    rewrite list_elem_of_filter. naive_solver.
  - intros ops. apply (run_never_called first ops s').
    subst s'. cbn. rewrite !length_app. cbn. split_and!; [lia| |].
    + intros h' t [[_ <-]|[Hne Ht]]%lookup_insert_Some.
      * subst first. lia.
      * rewrite lookup_insert_ne in Ht by done. apply Hmap in Ht.
        subst first. lia.
    + rewrite <- app_assoc.
      intros [Ht|Ht]%elem_of_app.
      * apply Hcalled in Ht. lia.
      * cbn in Ht. set_solver.
Qed.

(** Neither the listeners nor the initialized flag change in
    [navigateTo]. *)
Lemma navigateTo_keeps_listeners fuel p st outcome st' :
  navigateTo fuel p st = Some (outcome, st') ->
  listeners st' = listeners st /\ onPopState st' = onPopState st /\
  isInitialized st' = isInitialized st.
Proof.
  intros Hrun.
  apply navigateTo_outcome in Hrun as (calls & final & _ & Hout).
  destruct outcome.
  - by destruct Hout as [_ ->].
  - by subst st'.
  - by destruct Hout as (m & _ & _ & _ & ->).
  - by subst st'.
Qed.

(** X12. [init] of [router.js] that rejects (a guard threw on the first
    navigation): the router is left listening to [popstate] but not
    initialized, so [destroy] returns at once and the listener stays on the
    window, whatever the subscriptions are. *)
Theorem init_rejected_keeps_listener fuel st e st' :
  isInitialized st = false ->
  init fuel st = Some (RejectedWith e, st') ->
  isInitialized st' = false /\
  listening st' = true /\
  forall s,
    router s = st' ->
    destroy s = s /\ listening (router (destroy s)) = true.
Proof.
  intros Hinit Hrun. unfold init in Hrun. rewrite Hinit in Hrun.
  destruct (init_prepared st)
    as (Hlistening & _ & (_ & _ & _ & _ & Hflag & _) & _).
  set (st0 := addEventListener _) in *.
  unfold matchCurrentRoute in Hrun.
  destruct (navigateTo fuel _ st0) as [[outcome st1]|] eqn:Hnav; [|done].
  apply navigateTo_keeps_listeners in Hnav as (Hl & Hp & Hi).
  assert (st1 = st') as ->.
  { destruct outcome; try discriminate Hrun. by injection Hrun as _ <-. }
  assert (isInitialized st' = false) as Hfalse by by rewrite Hi, Hflag.
  assert (listening st' = true) as Htrue.
  { unfold listening in *. by rewrite Hl, Hp. }
  split_and!; [done|done|].
  intros s <-. unfold destroy. by rewrite Hfalse.
Qed.

(** X13. [init] of [router.js] that resolves, then [destroy]: the listeners
    of the window are the ones from before [init] (the router's was not
    among them), the router is not initialized and has no handlers, and the
    matched route, the parameters, the query and the hash are those [init]
    left. *)
Theorem init_destroy_round_trip fuel st st1 s :
  isInitialized st = false ->
  listening st = false ->
  init fuel st = Some (Resolved, st1) ->
  router s = st1 ->
  consistent s ->
  let s' := destroy s in
  listeners (router s') = listeners st /\
  isInitialized (router s') = false /\
  subscriberFns s' = [] /\
  (matchedRoute (router s') = matchedRoute st1 /\
   params (router s') = params st1 /\
   query (router s') = query st1 /\
   hash (router s') = hash st1).
Proof.
  intros Hinit Hout Hrun <- Hs s'.
  unfold init in Hrun. rewrite Hinit in Hrun.
  destruct (init_prepared st)
    as (_ & _ & (_ & _ & _ & Hpop & _ & Hlisteners) & _).
  set (st0 := addEventListener _) in *.
  unfold matchCurrentRoute in Hrun.
  destruct (navigateTo fuel _ st0) as [[outcome st2]|] eqn:Hnav; [|done].
  apply navigateTo_keeps_listeners in Hnav as (Hl & Hp & Hi).
  assert (router s = setInitialized true st2) as Hrouter.
  { destruct outcome; try discriminate Hrun; by injection Hrun as <-. }
  destruct (destroy_initialized s Hs) as (Hr & Hfns & _).
  { by rewrite Hrouter. }
  fold s' in Hr, Hfns.
  split_and!; try done; try (by rewrite Hr).
  rewrite Hr, Hrouter. cbn. rewrite Hl, Hp, Hpop, Hlisteners.
  unfold listening in Hout. apply bool_decide_eq_false_1 in Hout.
  rewrite decide_False by done.
  rewrite filter_app, filter_ne_id by done.
  rewrite filter_cons_False by naive_solver. by rewrite app_nil_r.
Qed.

End LifecycleFacts.

Section RouterVersions.
Import Js Routing Router Chain.

(** X18. On a router without guards and without redirect-only routes,
    [navigateTo] of [router.js] ends with the matched route, the parameters,
    the query and the hash that [navigateTo] of [part_000] ends with. When
    a route matches, the two differ in the order of their two events:
    [router.js] pushes and then dispatches, [part_000] dispatches and then
    pushes. When none does, both only warn. *)
Theorem navigateTo_agrees_without_guards fuel p st :
  guards st = [] ->
  Forall (fun m => isRedirect m = None) (matchers st) ->
  exists outcome st',
    navigateTo (S fuel) p st = Some (outcome, st') /\
    (matchedRoute st' = matchedRoute (SyncRouter.navigateTo p st) /\
     params st' = params (SyncRouter.navigateTo p st) /\
     query st' = query (SyncRouter.navigateTo p st) /\
     hash st' = hash (SyncRouter.navigateTo p st)) /\
    match findMatcher p st with
    | Some matcher =>
        outcome = Committed /\
        events st' =
          events st ++ [PushState (lit "#" ++ p);
                        Dispatch (matchedRoute st) (route matcher)] /\
        events (SyncRouter.navigateTo p st) =
          events st ++ [Dispatch (matchedRoute st) (route matcher);
                        PushState (lit "#" ++ p)]
    | None =>
        outcome = NoMatch /\
        events st' = events st ++ [Warn (lit "[Router] No route matches path "
                                         ++ [quote] ++ p ++ [quote])] /\
        events (SyncRouter.navigateTo p st) = events st'
    end.
Proof.
  intros Hguards Hroutes.
  unfold SyncRouter.navigateTo, SyncRouter.matchRoute.
  destruct (findMatcher p st) as [matcher|] eqn:Hfind.
  - assert (isRedirect matcher = None) as Hredirect.
    { unfold findMatcher in Hfind. apply find_some in Hfind as [Hin _].
      apply list_elem_of_In in Hin.
      by apply (proj1 (Forall_forall _ _) Hroutes). }
    rewrite (navigateTo_all_pass_commits fuel p st matcher Hfind Hredirect)
      by by rewrite Hguards.
    eexists _, _. split; [done|]. rewrite Hguards. cbn.
    split_and!; try done; by rewrite <- ?app_assoc.
  - rewrite navigateTo_S, Hfind. eexists _, _. split; [done|]. by cbn.
Qed.

(** A guard lets the loop go on exactly when its turn returns nothing. *)
Lemma turn_passes s : turn s = None <-> passes s = true.
Proof.
  unfold turn, passes.
  destruct s as [[| |[]| | |fields]|reason]; cbn [getPath]; try done.
  by destruct (default _ _).
Qed.

(** The guards, when one of them ends the loop after guards that pass. *)
Lemma verdict_stops pre g post from to answer :
  forallb (fun g' => passes (g' from to)) pre = true ->
  turn (g from to) = Some answer ->
  verdict (pre ++ g :: post) from to = (answer, S (length pre)).
Proof.
  intros Hpre Hg. induction pre as [|a pre IH]; cbn [app verdict length].
  - unfold turn in Hg.
    destruct (g from to) as [[| |[]| | |fields]|reason];
      cbn [getPath] in *; try done; try (by injection Hg as <-).
    destruct (default _ _); try done; by injection Hg as <-.
  - cbn [forallb] in Hpre. apply andb_prop in Hpre as [Ha Hpre].
    rewrite (IH Hpre). unfold passes in Ha.
    destruct (a from to) as [[| |[]| | |fields]|reason]; try done.
    cbn [getPath] in *. by destruct (default _ _).
Qed.

(** X19. [addGuard] puts the guard at the end of the chain. When every
    guard that was there passes, [#canChangeRoute] calls them all and then
    the new guard, once, as the call number [guards.length], and what the
    new guard's turn of the loop returns or throws is the answer: the
    navigation is approved when it passes. When a guard that was there ends
    the loop (it answers [false], redirects, rejects, or answers
    [undefined] or [null]), the answer and the calls are those of the
    router without the new guard, and the new guard is not called. *)
Theorem addGuard_asked_last g st from to :
  let n := length (guards st) in
  (forallb (fun g' => passes (g' from to)) (guards st) = true ->
   canChangeRoute from to (addGuard g st) =
   (default
      (inr {| shouldRedirect := false; shouldNavigate := true;
              redirectPath := None |})
      (turn (g from to)),
    logEvents (guardCalls 0 (S n) from to) (addGuard g st))) /\
  (forall pre g0 post answer,
     guards st = pre ++ g0 :: post ->
     forallb (fun g' => passes (g' from to)) pre = true ->
     turn (g0 from to) = Some answer ->
     canChangeRoute from to (addGuard g st) =
     (answer,
      logEvents (guardCalls 0 (S (length pre)) from to) (addGuard g st)) /\
     canChangeRoute from to st =
     (answer, logEvents (guardCalls 0 (S (length pre)) from to) st) /\
     S (length pre) <= n).
Proof.
  intros n. split.
  - intros Hpass. rewrite canChangeRoute_verdict. cbn [guards addGuard].
    destruct (turn (g from to)) as [answer|] eqn:Hturn; cbn [default].
    + by rewrite (verdict_stops _ g [] from to answer Hpass Hturn).
    + apply turn_passes in Hturn.
      rewrite verdict_all_pass.
      * cbn [fst snd]. by rewrite length_app, Nat.add_1_r.
      * rewrite List.forallb_app, Hpass. cbn. by rewrite Hturn.
  - intros pre g0 post answer Hguards Hpre Hturn.
    rewrite !canChangeRoute_verdict. cbn [guards addGuard].
    rewrite Hguards, <- app_assoc. cbn [app].
    rewrite !(verdict_stops pre g0 _ from to answer Hpre Hturn).
    split_and!; [done|done|].
    subst n. rewrite Hguards, length_app. cbn. lia.
Qed.

End RouterVersions.

(* ===================================================================== *)
(** * Part V: more of the compiler *)
(* ===================================================================== *)

Section CompilerImports.
Import Js Compiler Templates.
Context `{Helpers}.

Lemma addLinesFromStack_imports n : forall st st',
  addLinesFromStack n st = Ok st' -> imports st' = imports st.
Proof.
  induction n as [|n IH]; intros st st' Hrun; cbn in Hrun.
  - by injection Hrun as <-.
  - unfold addLineFromStack in Hrun. destruct (stack st); [done|].
    cbn in Hrun. by apply IH in Hrun.
Qed.

Lemma openElement_imports tag attributes st n opened :
  openElement tag attributes st = Ok (n, opened) ->
  imports opened = {[ hElement ]} ∪ imports st.
Proof.
  unfold openElement, forOpener, showOpener, openLoop. cbn [fst snd].
  destruct (dFor _), (dShow _), (last (lines st)), (stack st);
    cbn [mbind bind fst snd]; intros Hrun; try done;
    by injection Hrun as _ <-.
Qed.

(** The names a walk adds to the imports. *)
Lemma addNode_imports node : forall st st',
  addNode node st = Ok st' ->
  forall name,
    name ∈ imports st' <->
    name ∈ imports st \/
    (name = hElement /\ isElement node = true) \/
    (name = hString /\ hasText node = true).
Proof.
  induction node as [tag attributes children IH|rawText|nodeType]
    using Node_nested_ind; intros st st' Hrun name.
  - rewrite addNode_element in Hrun.
    destruct (openElement tag attributes st) as [[n opened]|e] eqn:Hopen;
      [|done].
    cbn [mbind bind fst snd] in Hrun.
    destruct (addNodes children opened) as [st1|e] eqn:Hchildren; [|done].
    cbn [mbind bind] in Hrun.
    apply addLinesFromStack_imports in Hrun. rewrite Hrun.
    apply openElement_imports in Hopen.
    assert (name ∈ imports st1 <->
            name ∈ imports opened \/
            (name = hElement /\ existsb isElement children = true) \/
            (name = hString /\ existsb hasText children = true)) as ->.
    { clear Hopen Hrun. revert opened Hchildren.
      induction IH as [|child children Hchild _ IHchildren];
        intros opened Hchildren; cbn in Hchildren.
      - injection Hchildren as <-. cbn. naive_solver.
      - destruct (addNode child opened) as [st2|e] eqn:Hfirst; [|done].
        cbn in Hchildren. rewrite (IHchildren _ Hchildren).
        rewrite (Hchild _ _ Hfirst). cbn [existsb].
        rewrite !orb_true_iff. naive_solver. }
    rewrite Hopen. cbn [isElement hasText]. set_solver.
  - cbn in Hrun. injection Hrun as <-. unfold addText. cbn [hasText isElement].
    destruct (trim rawText); cbn; set_solver.
  - cbn in Hrun. injection Hrun as <-. cbn. naive_solver.
Qed.

Lemma addNodes_imports nodes : forall st st',
  addNodes nodes st = Ok st' ->
  forall name,
    name ∈ imports st' <->
    name ∈ imports st \/
    (name = hElement /\ existsb isElement nodes = true) \/
    (name = hString /\ existsb hasText nodes = true).
Proof.
  induction nodes as [|node nodes IH]; intros st st' Hrun name;
    cbn in Hrun.
  - injection Hrun as <-. cbn. naive_solver.
  - destruct (addNode node st) as [st1|e] eqn:Hfirst; [|done].
    cbn in Hrun. rewrite (IH _ _ Hrun name).
    rewrite (addNode_imports _ _ _ Hfirst name). cbn [existsb].
    rewrite !orb_true_iff. naive_solver.
Qed.

(** X14. The imports [compile] returns are exactly the helpers its code
    calls: [hFragment] if and only if the template has more than one
    top-level node, [h] if and only if it has an element at the top level,
    [hString] if and only if a text that is not blank is at the top level or
    below elements; and no other name. *)
Theorem compile_imports template :
  let nodes := parse (normalize template) in
  exists out,
    compile template = Ok out /\
    (hFragment ∈ compiledImports out <-> 1 < length nodes) /\
    (hElement ∈ compiledImports out <-> existsb isElement nodes = true) /\
    (hString ∈ compiledImports out <-> existsb hasText nodes = true) /\
    compiledImports out ⊆ {[ hFragment; hElement; hString ]}.
Proof.
  intros nodes. destruct (compile_total template) as [out Hout].
  exists out. split; [done|].
  unfold compile in Hout. fold nodes in Hout.
  destruct (addNodes nodes _) as [st1|e] eqn:Hwalk; [|done].
  cbn [mbind bind] in Hout.
  destruct (drainStack st1) as [st2|e] eqn:Hdrain; [|done].
  cbn [mbind bind] in Hout. injection Hout as <-. cbn [compiledImports].
  apply addLinesFromStack_imports in Hdrain. rewrite Hdrain.
  pose proof (addNodes_imports _ _ _ Hwalk) as Hnames.
  assert (hFragment <> hElement /\ hFragment <> hString /\
          hElement <> hString) as (Hfe & Hfs & Hes).
  { split_and!; intros Heq; vm_compute in Heq; discriminate Heq. }
  destruct (decide (1 < length nodes)) as [Hmany|Hfew];
    cbn in Hnames; split_and!.
  - rewrite Hnames. set_solver.
  - rewrite Hnames. set_solver.
  - rewrite Hnames. set_solver.
  - intros name. rewrite Hnames. set_solver.
  - rewrite Hnames. set_solver by lia.
  - rewrite Hnames. set_solver.
  - rewrite Hnames. set_solver.
  - intros name. rewrite Hnames. set_solver.
Qed.

End CompilerImports.

Section CompilerWithoutFor.
Import Js Compiler Templates.
Context `{Helpers}.

Lemma beforeCloser_snoc c init l :
  beforeCloser c (init ++ [l]) = init ++ [cleanPrev l c].
Proof.
  unfold beforeCloser. by rewrite reverse_snoc, reverse_involutive.
Qed.

(** A closer appended after an opener and the lines [added] since: the
    opener stays, and only the last line can lose its comma. *)
Lemma appendLine_after_opener (open : jsstring) added c ls :
  cleanPrev open c = open ->
  appendLine (ls ++ open :: added) c
  = ls ++ open :: beforeCloser c added ++ [c].
Proof.
  intros Hopen. induction added as [|l init _] using rev_ind.
  - by rewrite appendLine_snoc, Hopen.
  - replace (ls ++ open :: init ++ [l]) with ((ls ++ open :: init) ++ [l])
      by by rewrite <- app_assoc.
    rewrite appendLine_snoc, beforeCloser_snoc. rewrite <- !app_assoc. cbn.
    by rewrite <- ?app_assoc.
Qed.

Lemma addLineFromStack_top st c rest :
  stack st = c :: rest ->
  addLineFromStack st =
  Ok {| lines := appendLine (lines st) c; stack := rest;
        imports := imports st |}.
Proof. intros Hs. unfold addLineFromStack. by rewrite Hs. Qed.

Lemma addNodes_frame nodes :
  Forall (fun node =>
            hasFor node = false -> exists added, frame (addNode node) added)
    nodes ->
  existsb hasFor nodes = false ->
  exists added, frame (addNodes nodes) added.
Proof.
  induction 1 as [|node nodes Hnode _ IH]; intros Hfree; cbn in Hfree.
  - exists []. intros st. exists st. by rewrite app_nil_r.
  - apply orb_false_iff in Hfree as [Hn Hns].
    destruct (Hnode Hn) as [a1 H1]. destruct (IH Hns) as [a2 H2].
    exists (a1 ++ a2). intros st.
    destruct (H1 st) as (st1 & Hr1 & Hl1 & Hs1).
    destruct (H2 st1) as (st2 & Hr2 & Hl2 & Hs2).
    exists st2. cbn [addNodes]. rewrite Hr1. cbn [mbind bind].
    by rewrite Hr2, Hl2, Hl1, Hs2, Hs1, app_assoc.
Qed.

(** [#addElement] without [for], over children that keep the frame. *)
Lemma addElement_frame tag attributes children childLines :
  dFor (directives (splitAttributes attributes)) = None ->
  frame (addNodes children) childLines ->
  let split := splitAttributes attributes in
  let elementOpen :=
    lit "h(" ++ normalizeTagName tag ++ lit ", "
    ++ extractProps (attrs split) (bindings split) (events split)
    ++ lit ", [" in
  frame (addNode (ElementNode tag attributes children))
    match dShow (directives split) with
    | Some showExpr =>
        [addThisContext showExpr ++ lit " ?"; elementOpen]
        ++ beforeCloser (lit "]),") childLines ++ [lit "])"; lit ": null"]
    | None => elementOpen :: beforeCloser (lit "]),") childLines ++ [lit "]),"]
    end.
Proof.
  intros Hfor Hchildren split elementOpen st.
  pose proof (fun ls =>
    appendLine_after_opener elementOpen childLines (lit "]),") ls
      (cleanPrev_opener _ _ _)) as Hbody.
  rewrite addNode_element.
  unfold openElement, forOpener, showOpener.
  rewrite Hfor. fold split. cbn [mbind bind fst snd].
  destruct (dShow (directives split)) as [showExpr|] eqn:Hshow;
    cbn [mbind bind fst snd]; fold elementOpen.
  - destruct (Hchildren (elementOpener (normalizeTagName tag)
                (extractProps (attrs split) (bindings split) (events split))
                (unshift (lit ": null")
                   (pushLine (addThisContext showExpr ++ lit " ?") st))))
      as (st1 & Hr & Hl & Hs).
    rewrite Hr. cbn [mbind bind addLinesFromStack].
    rewrite (addLineFromStack_top st1 _ _ Hs), Hl.
    cbn [stack lines elementOpener unshift addImport pushLine mbind bind].
    fold elementOpen. rewrite <- (app_assoc _ [elementOpen]).
    cbn [app]. rewrite Hbody.
    unfold addLineFromStack.
    cbn [stack lines mbind bind].
    assert (forall (ls body : list jsstring) c,
              ls ++ elementOpen :: body ++ [c]
              = (ls ++ elementOpen :: body) ++ [c]) as Hsnoc
      by (intros; by rewrite <- app_assoc).
    rewrite Hsnoc, appendLine_snoc.
    pose proof (cleanPrev_element_closer 0) as Hcloser.
    change (cleanPrev (lit "]),") (lit ": null") = lit "])") in Hcloser.
    rewrite Hcloser.
    eexists. split; [done|]. cbn [lines stack]. split; [|done].
    rewrite <- !app_assoc. cbn. by rewrite <- ?app_assoc.
  - destruct (Hchildren (elementOpener (normalizeTagName tag)
                (extractProps (attrs split) (bindings split) (events split))
                st))
      as (st1 & Hr & Hl & Hs).
    rewrite Hr. cbn [mbind bind addLinesFromStack].
    rewrite (addLineFromStack_top st1 _ _ Hs), Hl.
    cbn [stack lines elementOpener unshift addImport pushLine mbind bind].
    fold elementOpen. rewrite <- (app_assoc _ [elementOpen]).
    cbn [app]. rewrite Hbody.
    eexists. split; [done|]. by cbn [lines stack].
Qed.

Lemma addText_frame rawText :
  let text := trim rawText in
  frame (addNode (TextNode rawText))
    match text with
    | [] => []
    | _ :: _ => [lit "hString(" ++ interpolateVariables text ++ lit "),"]
    end.
Proof.
  intros text st. eexists. split; [done|].
  unfold addText. fold text. destruct text; cbn; [by rewrite app_nil_r|done].
Qed.

Lemma addNode_frame node :
  hasFor node = false -> exists added, frame (addNode node) added.
Proof.
  induction node as [tag attributes children IH|rawText|nodeType]
    using Node_nested_ind; intros Hfree.
  - cbn [hasFor] in Hfree.
    destruct (dFor (directives (splitAttributes attributes))) eqn:Hfor;
      [done|].
    destruct (addNodes_frame children IH Hfree) as [childLines Hchildren].
    eexists. by apply addElement_frame.
  - eexists. apply addText_frame.
  - exists []. intros st. exists st. by rewrite app_nil_r.
Qed.

Lemma addNodes_without_for nodes :
  existsb hasFor nodes = false ->
  exists added, frame (addNodes nodes) added.
Proof.
  apply addNodes_frame, Forall_forall. intros node _. apply addNode_frame.
Qed.

(** X15. A node with no [for] directive on it or below it is compiled the
    same way wherever it stands: from every state [#addNode] ends without an
    error, appends the same lines, leaves the lines before them as they
    were, and leaves the stack as it found it. For an element the lines are
    the condition of [show] if there is one, the opener, the lines of the
    children (the last one cleaned of its comma) and the closers; for a
    text that is not blank, the one [hString] line; for a blank text and for
    a node that is neither, nothing. *)
Theorem addNode_without_for node :
  hasFor node = false ->
  exists added,
    (forall st, exists st',
       addNode node st = Ok st' /\
       lines st' = lines st ++ added /\ stack st' = stack st) /\
    match node with
    | ElementNode tag attributes childNodes =>
        let split := splitAttributes attributes in
        let elementOpen :=
          lit "h(" ++ normalizeTagName tag ++ lit ", "
          ++ extractProps (attrs split) (bindings split) (events split)
          ++ lit ", [" in
        exists childLines,
          (forall st, exists st',
             addNodes childNodes st = Ok st' /\
             lines st' = lines st ++ childLines /\ stack st' = stack st) /\
          added =
          match dShow (directives split) with
          | Some showExpr =>
              [addThisContext showExpr ++ lit " ?"; elementOpen]
              ++ beforeCloser (lit "]),") childLines
              ++ [lit "])"; lit ": null"]
          | None =>
              elementOpen :: beforeCloser (lit "]),") childLines
              ++ [lit "]),"]
          end
    | TextNode rawText =>
        let text := trim rawText in
        added =
        match text with
        | [] => []
        | _ :: _ => [lit "hString(" ++ interpolateVariables text ++ lit "),"]
        end
    | OtherNode _ => added = []
    end.
Proof.
  destruct node as [tag attributes children|rawText|nodeType]; intros Hfree.
  - cbn [hasFor] in Hfree.
    destruct (dFor (directives (splitAttributes attributes))) eqn:Hfor;
      [done|].
    destruct (addNodes_without_for children Hfree) as [childLines Hchildren].
    eexists. split; [by apply (addElement_frame _ _ _ childLines)|].
    by exists childLines.
  - eexists. split; [apply addText_frame|done].
  - exists []. split; [|done]. intros st. exists st. by rewrite app_nil_r.
Qed.

(** [compile], over top-level nodes that keep the frame. *)
Lemma compile_frame template added :
  let nodes := parse (normalize template) in
  frame (addNodes nodes) added ->
  exists out,
    compile template = Ok out /\
    code out =
      join (lit " ")
        (if decide (1 < length nodes) then
           [lit "function render() {"; lit "return (";
            lit "h(Fragment, {}, ["]
           ++ beforeCloser (lit "])") added ++ [lit "])"; lit ")"; lit "}"]
         else
           [lit "function render() {"; lit "return ("]
           ++ beforeCloser (lit ")") added ++ [lit ")"; lit "}"]).
Proof.
  intros nodes Hnodes.
  unfold compile. fold nodes.
  destruct (decide (1 < length nodes)) as [Hmany|Hfew].
  - destruct (Hnodes (openFragment reset)) as (st1 & Hr & Hl & Hs).
    cbn [stack lines openFragment unshift addImport pushLine reset app]
      in Hl, Hs.
    rewrite Hr. cbn [mbind bind]. unfold drainStack. rewrite Hs.
    cbn [length addLinesFromStack].
    rewrite (addLineFromStack_top st1 _ _ Hs), Hl.
    pose proof (appendLine_after_opener (lit "h(Fragment, {}, [") added
                  (lit "])") [lit "function render() {"; lit "return ("]
                  eq_refl) as Hopener.
    cbn [app] in Hopener. rewrite Hopener.
    unfold addLineFromStack. cbn [stack lines mbind bind].
    assert (forall (a b c : jsstring) body d,
              a :: b :: c :: body ++ [d] = (a :: b :: c :: body) ++ [d])
      as Hsnoc by done.
    rewrite Hsnoc, appendLine_snoc.
    pose proof (cleanPrev_fragment_closer 0 (lit ")")) as Hfragment.
    change (cleanPrev (lit "])") (lit ")") = lit "])") in Hfragment.
    rewrite Hfragment.
    assert (forall (ls : list jsstring) d e,
              ls ++ [d; e] = (ls ++ [d]) ++ [e])
      as Hsnoc2 by (intros; by rewrite <- app_assoc).
    rewrite Hsnoc2, appendLine_snoc.
    pose proof (cleanPrev_return_closer 0 (lit "}")) as Hreturn.
    change (cleanPrev (lit ")") (lit "}") = lit ")") in Hreturn.
    rewrite Hreturn.
    eexists. split; [done|].
    cbn [code]. f_equal. cbn. by rewrite <- !app_assoc.
  - destruct (Hnodes reset) as (st1 & Hr & Hl & Hs).
    cbn [stack lines reset app] in Hl, Hs.
    rewrite Hr. cbn [mbind bind]. unfold drainStack. rewrite Hs.
    cbn [length addLinesFromStack].
    rewrite (addLineFromStack_top st1 _ _ Hs), Hl.
    pose proof (appendLine_after_opener (lit "return (") added
                  (lit ")") [lit "function render() {"] eq_refl) as Hopener.
    cbn [app] in Hopener. rewrite Hopener.
    unfold addLineFromStack. cbn [stack lines mbind bind].
    assert (forall (a b : jsstring) body d,
              a :: b :: body ++ [d] = (a :: b :: body) ++ [d])
      as Hsnoc by done.
    rewrite Hsnoc, appendLine_snoc.
    pose proof (cleanPrev_return_closer 0 (lit "}")) as Hreturn.
    change (cleanPrev (lit ")") (lit "}") = lit ")") in Hreturn.
    rewrite Hreturn.
    eexists. split; [done|].
    cbn [code]. f_equal; cbn; by rewrite <- ?app_assoc.
Qed.

(** X16. A template without [for] directives: the code is the two lines of
    the function, the fragment opener if there is more than one top-level
    node, the lines of the nodes (the last one cleaned of its comma), and
    the closers; no line is cut. *)
Theorem compile_without_for template :
  let nodes := parse (normalize template) in
  existsb hasFor nodes = false ->
  exists out added,
    compile template = Ok out /\
    (forall st, exists st',
       addNodes nodes st = Ok st' /\
       lines st' = lines st ++ added /\ stack st' = stack st) /\
    code out =
      join (lit " ")
        (if decide (1 < length nodes) then
           [lit "function render() {"; lit "return (";
            lit "h(Fragment, {}, ["]
           ++ beforeCloser (lit "])") added ++ [lit "])"; lit ")"; lit "}"]
         else
           [lit "function render() {"; lit "return ("]
           ++ beforeCloser (lit ")") added ++ [lit ")"; lit "}"]).
Proof.
  intros nodes Hfree.
  destruct (addNodes_without_for nodes Hfree) as [added Hnodes].
  destruct (compile_frame template added Hnodes) as (out & Hrun & Hcode).
  by exists out, added.
Qed.

End CompilerWithoutFor.

Section NormalizeFacts.
Import Js Compiler Templates.

Lemma trimStart_split s : exists ws, blank ws /\ s = ws ++ trimStart s.
Proof.
  induction s as [|c s (ws & Hws & IH)]; [by exists []; split|].
  cbn [trimStart]. destruct (isSpace c) eqn:Hc.
  - exists (c :: ws). split; [by constructor|]. cbn. by rewrite <- IH.
  - by exists []; split.
Qed.

Lemma trimStart_idem s : trimStart (trimStart s) = trimStart s.
Proof.
  induction s as [|c s IH]; [done|]. cbn [trimStart].
  destruct (isSpace c) eqn:Hc; [done|]. cbn [trimStart]. by rewrite Hc.
Qed.

Lemma trimStart_head s c rest : trimStart s = c :: rest -> isSpace c = false.
Proof.
  induction s as [|a s IH]; [done|]. cbn [trimStart].
  destruct (isSpace a) eqn:Ha; [done|]. by intros [= <- _].
Qed.

Lemma trimEnd_split s : exists ws, blank ws /\ s = trimEnd s ++ ws.
Proof.
  destruct (trimStart_split (rev s)) as (ws & Hws & Hs).
  exists (rev ws). split.
  - by apply Forall_rev.
  - unfold trimEnd. by rewrite <- rev_app_distr, <- Hs, rev_involutive.
Qed.

Lemma trimEnd_idem s : trimEnd (trimEnd s) = trimEnd s.
Proof. unfold trimEnd. by rewrite rev_involutive, trimStart_idem. Qed.

Lemma trim_idem s : trim (trim s) = trim s.
Proof.
  unfold trim.
  assert (trimStart (trimEnd (trimStart s)) = trimEnd (trimStart s)) as ->.
  { destruct (trimStart s) as [|c rest] eqn:Hstart; [done|].
    apply trimStart_head in Hstart.
    destruct (trimEnd_split (c :: rest)) as (ws & _ & Hsplit).
    destruct (trimEnd (c :: rest)) as [|c' z]; [done|].
    injection Hsplit as <- _. cbn [trimStart]. by rewrite Hstart. }
  apply trimEnd_idem.
Qed.

Lemma space_not_gt c : isSpace c = true -> (c =? gt)%N = false.
Proof.
  intros Hc. destruct (c =? gt)%N eqn:Hgt; [|done].
  apply N.eqb_eq in Hgt as ->. done.
Qed.

(** White space read after a [>]. *)
Lemma collapse_pending ws : forall w rest,
  blank ws ->
  collapseBetweenTags (Some w) (ws ++ rest)
  = collapseBetweenTags (Some (w ++ ws)) rest.
Proof.
  induction ws as [|c ws IH]; intros w rest Hws; cbn [app].
  - by rewrite app_nil_r.
  - apply Forall_cons in Hws as [Hc Hws]. cbn [collapseBetweenTags].
    rewrite Hc, IH by done. by rewrite <- app_assoc.
Qed.

(** White space read elsewhere. *)
Lemma collapse_leading ws : forall rest,
  blank ws ->
  collapseBetweenTags None (ws ++ rest) = ws ++ collapseBetweenTags None rest.
Proof.
  induction ws as [|c ws IH]; intros rest Hws; [done|].
  apply Forall_cons in Hws as [Hc Hws]. cbn [app collapseBetweenTags].
  by rewrite (space_not_gt c Hc), IH.
Qed.

(** White space at the end is copied. *)
Lemma collapse_trailing ws s : forall pending,
  blank ws ->
  collapseBetweenTags pending (s ++ ws)
  = collapseBetweenTags pending s ++ ws.
Proof.
  intros pending Hws. revert pending.
  induction s as [|c s IH]; intros pending.
  - cbn [app collapseBetweenTags]. destruct pending as [w|]; cbn [default].
    + pose proof (collapse_pending ws w [] Hws) as Hp.
      rewrite app_nil_r in Hp. by rewrite Hp.
    + pose proof (collapse_leading ws [] Hws) as Hp.
      rewrite app_nil_r in Hp. rewrite Hp. cbn. by rewrite app_nil_r.
  - cbn [app collapseBetweenTags]. destruct pending as [w|].
    + destruct (isSpace c); [done|].
      destruct (c =? lt)%N; [by rewrite IH|].
      rewrite IH. by rewrite <- app_assoc.
    + by rewrite IH.
Qed.

(** A second pass finds nothing to remove. *)
Lemma collapse_idem s :
  collapseBetweenTags None (collapseBetweenTags None s)
  = collapseBetweenTags None s /\
  forall ws, blank ws ->
    collapseBetweenTags (Some []) (collapseBetweenTags (Some ws) s)
    = collapseBetweenTags (Some ws) s.
Proof.
  induction s as [|c s [IHnone IHsome]]; split.
  - done.
  - intros ws Hws. change (collapseBetweenTags (Some ws) []) with ws.
    pose proof (collapse_pending ws [] [] Hws) as Hp.
    rewrite app_nil_r in Hp. by rewrite Hp.
  - cbn [collapseBetweenTags].
    destruct (c =? gt)%N; [|by rewrite IHnone].
    rewrite IHsome; [done|constructor].
  - intros ws Hws. cbn [collapseBetweenTags].
    destruct (isSpace c) eqn:Hc.
    { apply IHsome, Forall_app. split; [done|]. by repeat constructor. }
    destruct (c =? lt)%N eqn:Hlt.
    { cbn [collapseBetweenTags]. by rewrite Hc, Hlt, IHnone. }
    rewrite collapse_pending by done. cbn [app collapseBetweenTags].
    rewrite Hc, Hlt. destruct (c =? gt)%N; [|by rewrite IHnone].
    rewrite IHsome; [done|constructor].
Qed.

(** A string the second step leaves as it is, is still one when it is
    trimmed. *)
Lemma collapse_trim y :
  collapseBetweenTags None y = y ->
  collapseBetweenTags None (trim y) = trim y.
Proof.
  intros Hy. unfold trim.
  destruct (trimStart_split y) as (ws & Hws & Hsplit).
  rewrite Hsplit in Hy at 1 2. rewrite collapse_leading in Hy by done.
  apply app_inv_head in Hy.
  destruct (trimEnd_split (trimStart y)) as (ws' & Hws' & Hsplit').
  rewrite Hsplit' in Hy at 1 2. rewrite collapse_trailing in Hy by done.
  by apply app_inv_tail in Hy.
Qed.

Lemma replaceNewlines_noNewline s : noNewline (replaceNewlines s).
Proof.
  unfold replaceNewlines. apply Forall_fmap, Forall_forall. intros c _. cbn.
  destruct (c =? newline)%N eqn:Hc; [done|]. by apply N.eqb_neq.
Qed.

Lemma replaceNewlines_id s : noNewline s -> replaceNewlines s = s.
Proof.
  unfold replaceNewlines. induction 1 as [|c s Hc _ IH]; [done|].
  cbn. apply N.eqb_neq in Hc. rewrite Hc. by f_equal.
Qed.

Lemma collapse_noNewline s : forall pending,
  noNewline (default [] pending) -> noNewline s ->
  noNewline (collapseBetweenTags pending s).
Proof.
  induction s as [|c s IH]; intros pending Hpending Hs; [done|].
  apply Forall_cons in Hs as [Hc Hs]. cbn [collapseBetweenTags].
  destruct pending as [ws|]; cbn [default] in Hpending.
  - destruct (isSpace c).
    { apply IH; [|done]. cbn. apply Forall_app. split; [done|].
      by repeat constructor. }
    destruct (c =? lt)%N.
    { constructor; [done|]. apply IH; [constructor|done]. }
    apply Forall_app. split; [done|]. constructor; [done|].
    apply IH; [|done]. destruct (c =? gt)%N; constructor.
  - constructor; [done|]. apply IH; [|done].
    destruct (c =? gt)%N; constructor.
Qed.

Lemma trim_noNewline s : noNewline s -> noNewline (trim s).
Proof.
  intros Hs. unfold trim.
  destruct (trimStart_split s) as (ws & _ & Hsplit).
  rewrite Hsplit in Hs. apply Forall_app in Hs as [_ Hs].
  destruct (trimEnd_split (trimStart s)) as (ws' & _ & Hsplit').
  rewrite Hsplit' in Hs. by apply Forall_app in Hs as [Hs _].
Qed.

(** X17. [normalize] gives a string that none of its three steps changes:
    it has no newline, no white space between a [>] and a [<], and no white
    space at either end. So [normalize] of a normalized template is the
    template. *)
Theorem normalize_idempotent s :
  (newline ∉ normalize s) /\
  replaceNewlines (normalize s) = normalize s /\
  collapseBetweenTags None (normalize s) = normalize s /\
  trim (normalize s) = normalize s /\
  normalize (normalize s) = normalize s.
Proof.
  assert (noNewline (normalize s)) as Hnone.
  { apply trim_noNewline, collapse_noNewline; [constructor|].
    apply replaceNewlines_noNewline. }
  assert (collapseBetweenTags None (normalize s) = normalize s) as Hcollapse.
  { apply collapse_trim, collapse_idem. }
  assert (trim (normalize s) = normalize s) as Htrim by apply trim_idem.
  split_and!; try done.
  - intros Hin. eapply Forall_forall in Hnone; [|exact Hin]. done.
  - by apply replaceNewlines_id.
  - unfold normalize at 1.
    by rewrite (replaceNewlines_id _ Hnone), Hcollapse.
Qed.

End NormalizeFacts.

Section CompilerTidy.
Import Js Compiler Templates.

(** *** Commas and closing tokens in a string made of two *)

Lemma space_not_comma c : isSpace c = true -> (c =? comma)%N = false.
Proof.
  intros Hc. destruct (c =? comma)%N eqn:Hcomma; [|done].
  apply N.eqb_eq in Hcomma as ->. done.
Qed.

Lemma trimStart_blank a : forallb isSpace a = true -> trimStart a = [].
Proof.
  induction a as [|c a IH]; [done|]. cbn [forallb trimStart].
  intros [Hc Ha]%andb_prop. rewrite Hc. by apply IH.
Qed.

Lemma trimStart_nil a : trimStart a = [] -> forallb isSpace a = true.
Proof.
  induction a as [|c a IH]; [done|]. cbn [forallb trimStart].
  destruct (isSpace c); [done|done].
Qed.

Lemma trimStart_app a b :
  trimStart (a ++ b)
  = if forallb isSpace a then trimStart b else trimStart a ++ b.
Proof.
  induction a as [|c a IH]; [done|]. cbn [app forallb trimStart].
  by destruct (isSpace c).
Qed.

Lemma startsWithClosing_app a b :
  startsWithClosing (a ++ b)
  = if forallb isSpace a then startsWithClosing b else startsWithClosing a.
Proof.
  unfold startsWithClosing. rewrite trimStart_app.
  destruct (forallb isSpace a) eqn:Ha; [done|].
  destruct (trimStart a) as [|c rest] eqn:Hstart; [|done].
  apply trimStart_nil in Hstart. congruence.
Qed.

Lemma startsWithClosing_blank a :
  forallb isSpace a = true -> startsWithClosing a = false.
Proof. intros Ha. unfold startsWithClosing. by rewrite trimStart_blank. Qed.

Lemma forallb_isSpace_rev a : forallb isSpace (rev a) = forallb isSpace a.
Proof.
  induction a as [|c a IH]; [done|]. cbn [rev forallb].
  rewrite List.forallb_app, IH. cbn [forallb].
  by rewrite andb_true_r, andb_comm.
Qed.

Lemma endsWithComma_blank a :
  forallb isSpace a = true -> endsWithComma a = false.
Proof.
  intros Ha. unfold endsWithComma.
  by rewrite trimStart_blank by by rewrite forallb_isSpace_rev.
Qed.

Lemma endsWithComma_cons c a :
  endsWithComma (c :: a)
  = endsWithComma a || (c =? comma)%N && forallb isSpace a.
Proof.
  unfold endsWithComma. cbn [rev].
  rewrite trimStart_app, forallb_isSpace_rev.
  destruct (forallb isSpace a) eqn:Ha.
  - rewrite (trimStart_blank (rev a)) by by rewrite forallb_isSpace_rev.
    cbn [trimStart orb]. rewrite andb_true_r.
    destruct (isSpace c) eqn:Hc; [|done]. by rewrite space_not_comma.
  - rewrite andb_false_r, orb_false_r.
    destruct (trimStart (rev a)) as [|c' rest] eqn:Hstart; [|done].
    apply trimStart_nil in Hstart. rewrite forallb_isSpace_rev in Hstart.
    congruence.
Qed.

Lemma commaBeforeClosing_blank a :
  forallb isSpace a = true -> commaBeforeClosing a = false.
Proof.
  induction a as [|c a IH]; [done|]. cbn [forallb commaBeforeClosing].
  intros [Hc Ha]%andb_prop. by rewrite (space_not_comma c Hc), IH.
Qed.

(** A comma before a closing token in [a ++ b] is one in [a], one in [b],
    or the comma [a] ends with before the closing token [b] begins with. *)
Lemma commaBeforeClosing_split a b :
  commaBeforeClosing (a ++ b)
  = commaBeforeClosing a || commaBeforeClosing b
    || endsWithComma a && startsWithClosing b.
Proof.
  induction a as [|c a IH]; cbn [app commaBeforeClosing].
  - by rewrite orb_false_r.
  - rewrite IH, startsWithClosing_app, endsWithComma_cons.
    destruct (forallb isSpace a) eqn:Ha.
    + rewrite (startsWithClosing_blank a Ha), (endsWithComma_blank a Ha),
        (commaBeforeClosing_blank a Ha).
      by destruct (c =? comma)%N, (commaBeforeClosing b),
        (startsWithClosing b).
    + by destruct (c =? comma)%N, (startsWithClosing a),
        (commaBeforeClosing a), (commaBeforeClosing b), (endsWithComma a),
        (startsWithClosing b).
Qed.

(** *** Tidy lines *)

Lemma tidyLines_cons l rest :
  tidyLines (l :: rest) = true <->
  commaBeforeClosing l = false /\ forallb isSpace l = false /\
  match rest with
  | [] => True
  | next :: _ => endsWithComma l && startsWithClosing next = false
  end /\
  tidyLines rest = true.
Proof.
  cbn [tidyLines]. destruct rest as [|next rest];
    rewrite !andb_true_iff, !negb_true_iff; tauto.
Qed.

Lemma tidyLines_app ls1 ls2 :
  tidyLines (ls1 ++ ls2) = true <->
  tidyLines ls1 = true /\ tidyLines ls2 = true /\
  forall l1 l2 rest,
    last ls1 = Some l1 -> ls2 = l2 :: rest ->
    endsWithComma l1 && startsWithClosing l2 = false.
Proof.
  induction ls1 as [|l [|l' ls1] IH].
  - cbn. naive_solver.
  - cbn [app]. rewrite !tidyLines_cons. cbn [last].
    destruct ls2 as [|l2 rest]; [naive_solver|]. split.
    + intros (? & ? & ? & ?). split_and!; try done.
      by intros ? ? ? [= <-] [= <- _].
    + intros ((? & ? & _ & _) & ? & Hjoin). split_and!; try done.
      by eapply Hjoin.
  - change ((l :: l' :: ls1) ++ ls2) with (l :: (l' :: ls1) ++ ls2).
    rewrite (tidyLines_cons l ((l' :: ls1) ++ ls2)), IH.
    rewrite (tidyLines_cons l (l' :: ls1)). rewrite last_cons_cons.
    cbn [app]. naive_solver.
Qed.

Lemma tidyLines_after l ls :
  commaBeforeClosing l = false -> forallb isSpace l = false ->
  headOpen ls -> tidyLines ls = true -> tidyLines (l :: ls) = true.
Proof.
  intros Hl Hblank Hhead Hls. apply tidyLines_cons. split_and!; try done.
  destruct ls as [|next rest]; [done|]. cbn in Hhead.
  by rewrite Hhead, andb_false_r.
Qed.

Lemma tidyLines_snoc ls l :
  tidyLines ls = true -> lastNoComma ls ->
  commaBeforeClosing l = false -> forallb isSpace l = false ->
  tidyLines (ls ++ [l]) = true.
Proof.
  intros Hls Hlast Hl Hblank. apply tidyLines_app. split_and!; [done| |].
  - by apply tidyLines_cons.
  - intros l1 l2 rest Hl1 _. unfold lastNoComma in Hlast.
    rewrite Hl1 in Hlast. by rewrite Hlast.
Qed.

Lemma lastNoComma_cons l ls :
  endsWithComma l = false -> lastNoComma ls -> lastNoComma (l :: ls).
Proof.
  unfold lastNoComma. rewrite last_cons. by destruct (last ls).
Qed.

Lemma lastNoComma_snoc ls l :
  endsWithComma l = false -> lastNoComma (ls ++ [l]).
Proof. unfold lastNoComma. by rewrite last_snoc. Qed.

(** The lines joined: no comma before a closing token. *)
Lemma join_tidy ls :
  tidyLines ls = true ->
  commaBeforeClosing (join (lit " ") ls) = false /\
  startsWithClosing (join (lit " ") ls)
  = match ls with
    | l :: _ => startsWithClosing l
    | [] => false
    end.
Proof.
  induction ls as [|l [|l2 rest] IH]; intros Hls.
  - done.
  - apply tidyLines_cons in Hls as (Hl & _). by cbn [join].
  - apply tidyLines_cons in Hls as (Hl & Hblank & Hjoin & Hrest).
    destruct (IH Hrest) as [IHcomma IHstart].
    change (join (lit " ") (l :: l2 :: rest))
      with (l ++ space :: join (lit " ") (l2 :: rest)).
    rewrite commaBeforeClosing_split, startsWithClosing_app, Hblank, Hl.
    split; [|done].
    change (commaBeforeClosing (space :: ?s)) with (commaBeforeClosing s).
    change (startsWithClosing (space :: ?s)) with (startsWithClosing s).
    by rewrite IHcomma, IHstart, Hjoin.
Qed.

(** *** Blocks *)

Lemma beforeCloser_app c ls1 ls2 :
  ls2 <> [] -> beforeCloser c (ls1 ++ ls2) = ls1 ++ beforeCloser c ls2.
Proof.
  destruct ls2 as [|l init _] using rev_ind; [done|]. intros _.
  by rewrite app_assoc, !beforeCloser_snoc, app_assoc.
Qed.

Lemma block_nil : block [].
Proof. by split_and!. Qed.

Lemma block_app ls1 ls2 : block ls1 -> block ls2 -> block (ls1 ++ ls2).
Proof.
  intros (Htidy1 & Hhead1 & Hclosed1) (Htidy2 & Hhead2 & Hclosed2).
  assert (forall ls, headOpen ls1 -> headOpen ls -> headOpen (ls1 ++ ls))
    as Hhead by (intros ls; by destruct ls1).
  assert (forall ls,
            tidyLines ls = true -> headOpen ls ->
            tidyLines (ls1 ++ ls) = true) as Htidy.
  { intros ls Hls Hopen. apply tidyLines_app. split_and!; try done.
    intros l1 l2 rest _ ->. cbn in Hopen. by rewrite Hopen, andb_false_r. }
  split_and!; [by apply Htidy|by apply Hhead|].
  intros c Hc. destruct ls2 as [|l2 init _] using rev_ind.
  { rewrite app_nil_r. by apply Hclosed1. }
  destruct (Hclosed2 c Hc) as (Htidy' & Hhead' & Hlast').
  rewrite beforeCloser_app by by destruct init.
  split_and!; [by apply Htidy|by apply Hhead|].
  rewrite beforeCloser_snoc in *. unfold lastNoComma in *.
  rewrite app_assoc. by rewrite last_snoc in *.
Qed.

(** One line that [#addLineFromStack] cleans of its comma. *)
Lemma block_line (l : jsstring) :
  commaBeforeClosing l = false -> forallb isSpace l = false ->
  startsWithClosing l = false -> endsWithComma l = false ->
  block [l ++ [comma]].
Proof.
  intros Hl Hblank Hopen Hcomma.
  assert (forallb isSpace (l ++ [comma]) = false) as Hblank'.
  { by rewrite List.forallb_app, Hblank. }
  assert (startsWithClosing (l ++ [comma]) = false) as Hopen'.
  { by rewrite startsWithClosing_app, Hblank. }
  split_and!.
  - apply tidyLines_cons. split_and!; try done.
    rewrite commaBeforeClosing_split, Hl, Hcomma. done.
  - done.
  - intros c Hc. unfold beforeCloser, cleanPrev. cbn [reverse rev_append app].
    rewrite endsWithComma_snoc, Hc. cbn [andb]. rewrite slice_snoc.
    split_and!; [by apply tidyLines_cons|done|done].
Qed.

Context `{Helpers}.

(** The lines of an element without [for], over the lines of its
    children. *)
Lemma block_element (elementOpen : jsstring) showLine childLines :
  commaBeforeClosing elementOpen = false ->
  forallb isSpace elementOpen = false ->
  startsWithClosing elementOpen = false ->
  endsWithComma elementOpen = false ->
  match showLine with
  | Some condition =>
      commaBeforeClosing condition = false /\
      forallb isSpace condition = false /\
      startsWithClosing condition = false
  | None => True
  end ->
  block childLines ->
  block
    match showLine with
    | Some condition =>
        [condition; elementOpen]
        ++ beforeCloser (lit "]),") childLines ++ [lit "])"; lit ": null"]
    | None => elementOpen :: beforeCloser (lit "]),") childLines ++ [lit "]),"]
    end.
Proof.
  intros Hcomma Hblank Hopen Hend Hshow (_ & _ & Hclosed).
  destruct (Hclosed (lit "]),") eq_refl) as (Htidy & Hhead & Hlast).
  set (body := beforeCloser (lit "]),") childLines) in *.
  assert (tidyLines (elementOpen :: body) = true) as Htidy1
    by by apply tidyLines_after.
  assert (lastNoComma (elementOpen :: body)) as Hlast1
    by by apply lastNoComma_cons.
  assert (tidyLines ((elementOpen :: body) ++ [lit "])"]) = true) as Htidy2
    by by apply tidyLines_snoc.
  destruct showLine as [condition|].
  - destruct Hshow as (Hcomma' & Hblank' & Hopen').
    assert (tidyLines (condition :: (elementOpen :: body) ++ [lit "])"])
            = true) as Htidy3 by by apply tidyLines_after.
    assert (lastNoComma (condition :: (elementOpen :: body) ++ [lit "])"]))
      as Hlast3.
    { unfold lastNoComma.
      change (condition :: (elementOpen :: body) ++ [lit "])"])
        with ((condition :: elementOpen :: body) ++ [lit "])"]).
      by rewrite last_snoc. }
    assert ([condition; elementOpen] ++ body ++ [lit "])"; lit ": null"]
            = (condition :: (elementOpen :: body) ++ [lit "])"])
              ++ [lit ": null"]) as ->.
    { cbn. by rewrite <- app_assoc. }
    split_and!.
    + by apply tidyLines_snoc.
    + done.
    + intros c Hc. rewrite beforeCloser_snoc.
      change (cleanPrev (lit ": null") c) with (lit ": null").
      split_and!; [by apply tidyLines_snoc|done|].
      by apply lastNoComma_snoc.
  - change (elementOpen :: body ++ [lit "]),"])
      with ((elementOpen :: body) ++ [lit "]),"]).
    split_and!.
    + by apply tidyLines_snoc.
    + done.
    + intros c Hc. rewrite beforeCloser_snoc.
      assert (cleanPrev (lit "]),") c = lit "])") as ->.
      { unfold cleanPrev. by rewrite Hc. }
      split_and!; [done|done|]. by apply lastNoComma_snoc.
Qed.

Lemma addNodes_block nodes :
  Forall (fun node =>
            hasFor node = false -> tidy node = true ->
            exists added, frame (addNode node) added /\ block added)
    nodes ->
  existsb hasFor nodes = false ->
  forallb tidy nodes = true ->
  exists added, frame (addNodes nodes) added /\ block added.
Proof.
  induction 1 as [|node nodes Hnode _ IH]; intros Hfree Htidy;
    cbn in Hfree, Htidy.
  - exists []. split; [|apply block_nil].
    intros st. exists st. by rewrite app_nil_r.
  - apply orb_false_iff in Hfree as [Hn Hns].
    apply andb_prop in Htidy as [Ht Hts].
    destruct (Hnode Hn Ht) as (a1 & H1 & Hb1).
    destruct (IH Hns Hts) as (a2 & H2 & Hb2).
    exists (a1 ++ a2). split; [|by apply block_app]. intros st.
    destruct (H1 st) as (st1 & Hr1 & Hl1 & Hs1).
    destruct (H2 st1) as (st2 & Hr2 & Hl2 & Hs2).
    exists st2. cbn [addNodes]. rewrite Hr1. cbn [mbind bind].
    by rewrite Hr2, Hl2, Hl1, Hs2, Hs1, app_assoc.
Qed.

Lemma addNode_block node :
  hasFor node = false -> tidy node = true ->
  exists added, frame (addNode node) added /\ block added.
Proof.
  induction node as [tag attributes children IH|rawText|nodeType]
    using Node_nested_ind; intros Hfree Htidy.
  - cbn [hasFor] in Hfree. cbn [tidy] in Htidy. cbn zeta in Htidy.
    destruct (dFor (directives (splitAttributes attributes))) eqn:Hfor;
      [done|].
    apply andb_prop in Htidy as [[Hopen Hshow]%andb_prop Hchildren].
    apply negb_true_iff in Hopen.
    destruct (addNodes_block children IH Hfree Hchildren)
      as (childLines & Hframe & Hblock).
    eexists. split; [by apply addElement_frame|]. cbn zeta.
    assert (forall x y z : jsstring,
              forallb isSpace (lit "h(" ++ x ++ lit ", " ++ y ++ z) = false
              /\ startsWithClosing (lit "h(" ++ x ++ lit ", " ++ y ++ z)
                 = false) as Hh by done.
    assert (forall x : jsstring, forallb isSpace (x ++ lit " ?") = false)
      as Hcondition.
    { intros x. rewrite List.forallb_app. apply andb_false_r. }
    destruct (dShow (directives (splitAttributes attributes)))
      as [showExpr|].
    + apply andb_prop in Hshow as [Hcomma Hstart].
      apply negb_true_iff in Hcomma, Hstart.
      apply (block_element _ (Some (addThisContext showExpr ++ lit " ?")));
        try done; try apply Hh; try apply endsWithComma_opener.
    + apply (block_element _ None);
        try done; try apply Hh; try apply endsWithComma_opener.
  - cbn [tidy] in Htidy. cbn zeta in Htidy.
    eexists. split; [apply addText_frame|]. cbn zeta.
    destruct (trim rawText) as [|c text]; [apply block_nil|].
    apply negb_true_iff in Htidy.
    change (lit "),") with (lit ")" ++ [comma]).
    rewrite !app_assoc. apply block_line.
    + by rewrite <- !app_assoc.
    + by rewrite <- !app_assoc.
    + by rewrite <- !app_assoc.
    + unfold endsWithComma. by rewrite rev_app_distr.
  - exists []. split; [|apply block_nil].
    intros st. exists st. by rewrite app_nil_r.
Qed.

(** X20. A template without [for] directives, where the pieces the helpers
    return have no comma before a closing token of their own (and no
    condition of a [show] begins with a closing token): the code [compile]
    returns has no comma that is followed, after white space only, by [)],
    []] or [:]. *)
Theorem compile_without_for_tidy template :
  let nodes := parse (normalize template) in
  existsb hasFor nodes = false ->
  forallb tidy nodes = true ->
  exists out,
    compile template = Ok out /\ commaBeforeClosing (code out) = false.
Proof.
  intros nodes Hfree Htidy.
  destruct (addNodes_block nodes) as (added & Hframe & _ & _ & Hclosed);
    [|done|done|].
  { apply Forall_forall. intros node _. apply addNode_block. }
  destruct (compile_frame template added Hframe) as (out & Hrun & Hcode).
  exists out. split; [done|]. rewrite Hcode. apply join_tidy.
  fold nodes. destruct (decide (1 < length nodes)) as [Hmany|Hfew].
  - destruct (Hclosed (lit "])") eq_refl) as (Hbody & Hhead & Hlast).
    set (body := beforeCloser (lit "])") added) in *.
    assert ([lit "function render() {"; lit "return (";
             lit "h(Fragment, {}, ["] ++ body ++ [lit "])"; lit ")"; lit "}"]
            = (((lit "function render() {" :: lit "return ("
                 :: lit "h(Fragment, {}, [" :: body) ++ [lit "])"])
               ++ [lit ")"]) ++ [lit "}"]) as ->.
    { cbn. by rewrite <- !app_assoc. }
    apply tidyLines_snoc; [|by apply lastNoComma_snoc|done|done].
    apply tidyLines_snoc; [|by apply lastNoComma_snoc|done|done].
    apply tidyLines_snoc; [| |done|done].
    + by do 3 (apply tidyLines_after; [done|done|done|]).
    + by do 3 (apply lastNoComma_cons; [done|]).
  - destruct (Hclosed (lit ")") eq_refl) as (Hbody & Hhead & Hlast).
    set (body := beforeCloser (lit ")") added) in *.
    assert ([lit "function render() {"; lit "return ("] ++ body
            ++ [lit ")"; lit "}"]
            = ((lit "function render() {" :: lit "return (" :: body)
               ++ [lit ")"]) ++ [lit "}"]) as ->.
    { cbn. by rewrite <- !app_assoc. }
    apply tidyLines_snoc; [|by apply lastNoComma_snoc|done|done].
    apply tidyLines_snoc; [| |done|done].
    + by do 2 (apply tidyLines_after; [done|done|done|]).
    + by do 2 (apply lastNoComma_cons; [done|]).
Qed.

End CompilerTidy.

(* ===================================================================== *)
(** * Part VI: the properties of parts III to V on examples *)
(* ===================================================================== *)

Section MoreRouterExamples.
Import Js Routing Router Chain Popstate Guarding Lifecycle.

(** [/old] redirects to [/one]: the navigation is committed there. *)
Lemma navigateTo_effect_witness :
  exists st',
    navigateTo 2 (lit "/old") (sampleRouter [allowGuard]) =
    Some (Committed, st') /\
    listeners st' = [] /\
    isInitialized st' = false /\
    finalPath 2 (sampleRouter [allowGuard]) (lit "/old") = Some (lit "/one") /\
    matchedRoute st' = Some routeOne /\
    hash st' = lit "#/one".
Proof.
  eexists. split; [reflexivity|].
  destruct (navigateTo_effect 2 (lit "/old") (sampleRouter [allowGuard])
              Committed _ eq_refl)
    as [(_ & _ & Hflag & Hlisteners & _)
        (final & Hfinal & matcher & Hfind & _ & Hroute & _ & _ & _ & Hhash)].
  split; [exact Hlisteners|]. split; [exact Hflag|].
  injection Hfinal as <-. injection Hfind as <-.
  split; [reflexivity|]. split; [exact Hroute|].
  apply Hhash; [discriminate|reflexivity].
Defined.

(** A guard that resolves to [null] after one that allows: a [TypeError]
    after two guard calls; the guard after it is not called. *)
Lemma navigateTo_guard_throws_witness :
  navigateTo 1 (lit "/one") (sampleRouter [allowGuard; nullGuard; blockGuard])
  = Some (Threw TypeError,
          logEvents [GuardCall 0 None (lit "/one");
                     GuardCall 1 None (lit "/one")]
            (sampleRouter [allowGuard; nullGuard; blockGuard])).
Proof.
  exact (navigateTo_guard_throws 0 (lit "/one")
           (sampleRouter [allowGuard; nullGuard; blockGuard])
           (exactMatcher routeOne) [allowGuard] nullGuard [blockGuard]
           TypeError eq_refl eq_refl eq_refl eq_refl eq_refl).
Defined.

(** A path with a space that only the catch-all route at the end matches:
    the hash has the space percent-encoded. *)
Lemma navigateTo_first_match_witness :
  exists st',
    navigateTo 1 (lit "/a b")
      (newRouter [exactMatcher routeHome; exactMatcher routeOne;
                  catchAllMatcher routeNotFound] 0 (lit "#/") [] []) =
    Some (Committed, st') /\
    matchedRoute st' = Some routeNotFound /\
    params st' = [] /\ query st' = [] /\
    hash st' = lit "#/a%20b".
Proof.
  destruct (proj2 (navigateTo_first_match 0 (lit "/a b")
                     (newRouter [exactMatcher routeHome; exactMatcher routeOne;
                                 catchAllMatcher routeNotFound] 0 (lit "#/")
                        [] [])
                     [exactMatcher routeHome; exactMatcher routeOne]
                     (catchAllMatcher routeNotFound) []
                     eq_refl eq_refl eq_refl)
              eq_refl eq_refl)
    as (st' & Hrun & Hroute & Hparams & Hquery & Hhash & _).
  exists st'. split; [exact Hrun|]. split; [exact Hroute|].
  split; [exact Hparams|]. split; [exact Hquery|exact Hhash].
Defined.

(** [/old] is a redirect-only route: the matched route is the one of
    [/one]. *)
Lemma redirect_route_never_matched_witness :
  exists st',
    navigateTo 2 (lit "/old") (sampleRouter []) = Some (Committed, st') /\
    matchedRoute st' = Some routeOne /\
    redirect routeOne = None.
Proof.
  eexists. split; [reflexivity|]. split; [reflexivity|].
  refine (proj1 (redirect_route_never_matched 2 (lit "/old") (sampleRouter [])
                   _) Committed _ eq_refl routeOne eq_refl).
  intros r Hr. discriminate Hr.
Defined.

(** A browser with no hash. *)
Lemma sync_init_effect_witness :
  events (SyncRouter.init
            (newRouter [exactMatcher routeHome; exactMatcher routeOne] 0 []
               [] [])) =
  [ReplaceState (lit "#/"); AddEventListener 0; Dispatch None routeHome] /\
  hash (SyncRouter.init
          (newRouter [exactMatcher routeHome; exactMatcher routeOne] 0 []
             [] [])) = lit "#/".
Proof.
  destruct (sync_init_effect
              (newRouter [exactMatcher routeHome; exactMatcher routeOne] 0 []
                 [] []) eq_refl)
    as (_ & _ & Hhash & _ & Hevents).
  split; [exact Hevents|exact Hhash].
Defined.

(** A browser at [#/one]: [init] pushes [#/one] once more. *)
Lemma init_commits_with_push_witness :
  exists st',
    init 1 (newRouter [exactMatcher routeHome; exactMatcher routeOne] 0
              (lit "#/one") [] []) = Some (Resolved, st') /\
    events st' =
      [AddEventListener 0; PushState (lit "#/one"); Dispatch None routeOne].
Proof.
  destruct (init_commits_with_push 0
              (newRouter [exactMatcher routeHome; exactMatcher routeOne] 0
                 (lit "#/one") [] [])
              (exactMatcher routeOne) eq_refl eq_refl eq_refl eq_refl)
    as (st' & Hrun & _ & _ & _ & _ & Hevents).
  exists st'. split; [exact Hrun|exact Hevents].
Defined.

(** The user goes back to [#/one]. *)
Lemma popstate_history_witness :
  events (syncPopstate (lit "#/one")
            (newRouter [exactMatcher routeHome; exactMatcher routeOne] 0
               (lit "#/") [0] [])) = [Dispatch None routeOne] /\
  exists st',
    popstate (lit "#/one") 1
      (newRouter [exactMatcher routeHome; exactMatcher routeOne] 0
         (lit "#/") [0] []) = Some (Some Committed, st') /\
    events st' = [PushState (lit "#/one"); Dispatch None routeOne].
Proof.
  destruct (popstate_history 0 (lit "#/one")
              (newRouter [exactMatcher routeHome; exactMatcher routeOne] 0
                 (lit "#/") [0] [])
              (exactMatcher routeOne) eq_refl eq_refl)
    as [(_ & _ & Hsync) Hasync].
  split; [exact Hsync|].
  destruct (Hasync eq_refl eq_refl) as (st' & Hrun & _ & Hevents).
  exists st'. split; [exact Hrun|exact Hevents].
Defined.

Lemma run_consistent_witness :
  consistent
    (run [OpSubscribe 5; OpSubscribe 7; OpSubscribe 5; OpUnsubscribe 7;
          OpDestroy; OpSubscribe 7]
       (unsubscribed (sampleRouter []))).
Proof.
  exact (run_consistent _ _ (unsubscribed_consistent (sampleRouter []))).
Defined.

(** Two handlers on an initialized router. *)
Lemma destroy_effect_witness :
  subscriberFns
    (destroy (subscribe 7 (subscribe 5
       (unsubscribed (SyncRouter.init (sampleRouter [])))))) = [] /\
  listeners (router
    (destroy (subscribe 7 (subscribe 5
       (unsubscribed (SyncRouter.init (sampleRouter []))))))) = [] /\
  matchedRoute (router
    (destroy (subscribe 7 (subscribe 5
       (unsubscribed (SyncRouter.init (sampleRouter []))))))) =
  Some routeHome.
Proof.
  destruct (destroy_effect
              (subscribe 7 (subscribe 5
                 (unsubscribed (SyncRouter.init (sampleRouter [])))))
              (subscribe_consistent _ _
                 (subscribe_consistent _ _ (unsubscribed_consistent _)))
              eq_refl)
    as ((_ & Hlisteners & _) & (Hfns & _) & (Hroute & _) & _).
  split; [exact Hfns|]. split; [exact Hlisteners|exact Hroute].
Defined.

Lemma subscribe_unsubscribe_round_trip_witness :
  subscriberFns
    (unsubscribe 7 (subscribe 7 (subscribe 5 (unsubscribed (sampleRouter [])))))
  = [5] /\
  calls
    (unsubscribe 7 (subscribe 7 (subscribe 5 (unsubscribed (sampleRouter [])))))
  = [Subscribe 5; Subscribe 7; CallUnsubscribe 1].
Proof.
  destruct (subscribe_unsubscribe_round_trip 7
              (subscribe 5 (unsubscribed (sampleRouter [])))
              (subscribe_consistent _ _ (unsubscribed_consistent _)))
    as (_ & Hfns & _ & Hcalls).
  - intros Hin. apply list_elem_of_singleton in Hin. discriminate Hin.
  - split; [exact Hfns|exact Hcalls].
Defined.

(** A guard that rejects on the first navigation. *)
Lemma init_rejected_keeps_listener_witness :
  exists st',
    init 1 (sampleRouter [rejectGuard]) =
    Some (RejectedWith (GuardRejection (VString (lit "no"))), st') /\
    isInitialized st' = false /\
    listening st' = true /\
    destroy (unsubscribed st') = unsubscribed st'.
Proof.
  eexists. split; [reflexivity|].
  destruct (init_rejected_keeps_listener 1 (sampleRouter [rejectGuard]) _ _
              eq_refl eq_refl) as (Hflag & Hlistening & Hdestroy).
  split; [exact Hflag|]. split; [exact Hlistening|].
  exact (proj1 (Hdestroy (unsubscribed _) eq_refl)).
Defined.

Lemma init_destroy_round_trip_witness :
  exists st1,
    init 1 (sampleRouter []) = Some (Resolved, st1) /\
    listeners (router (destroy (subscribe 5 (unsubscribed st1)))) = [] /\
    isInitialized (router (destroy (subscribe 5 (unsubscribed st1)))) = false /\
    matchedRoute (router (destroy (subscribe 5 (unsubscribed st1)))) =
    Some routeHome.
Proof.
  eexists. split; [reflexivity|].
  destruct (init_destroy_round_trip 1 (sampleRouter []) _
              (subscribe 5 (unsubscribed _)) eq_refl eq_refl eq_refl eq_refl
              (subscribe_consistent _ _ (unsubscribed_consistent _)))
    as (Hlisteners & Hflag & _ & Hroute & _).
  split; [exact Hlisteners|]. split; [exact Hflag|exact Hroute].
Defined.

(** A guard that blocks, added to a router with a guard that allows: both
    are called, and the navigation is blocked. *)
Lemma addGuard_asked_last_witness :
  canChangeRoute None (lit "/one")
    (addGuard blockGuard (sampleRouter [allowGuard])) =
  (inr {| shouldRedirect := false; shouldNavigate := false;
          redirectPath := None |},
   logEvents [GuardCall 0 None (lit "/one"); GuardCall 1 None (lit "/one")]
     (addGuard blockGuard (sampleRouter [allowGuard]))).
Proof.
  exact (proj1 (addGuard_asked_last blockGuard (sampleRouter [allowGuard])
                  None (lit "/one")) eq_refl).
Defined.

Lemma navigateTo_agrees_without_guards_witness :
  exists st',
    navigateTo 1 (lit "/one")
      (newRouter [exactMatcher routeHome; exactMatcher routeOne] 0 (lit "#/")
         [] []) = Some (Committed, st') /\
    events st' = [PushState (lit "#/one"); Dispatch None routeOne] /\
    events (SyncRouter.navigateTo (lit "/one")
              (newRouter [exactMatcher routeHome; exactMatcher routeOne] 0
                 (lit "#/") [] [])) =
    [Dispatch None routeOne; PushState (lit "#/one")].
Proof.
  destruct (navigateTo_agrees_without_guards 0 (lit "/one")
              (newRouter [exactMatcher routeHome; exactMatcher routeOne] 0
                 (lit "#/") [] []) eq_refl)
    as (outcome & st' & Hrun & _ & -> & Hevents & Hsync).
  - repeat constructor.
  - exists st'. split; [exact Hrun|]. split; [exact Hevents|exact Hsync].
Defined.

End MoreRouterExamples.

Section MoreCompilerExamples.
Import Js Compiler Templates.

(** [<p show="open"> hello </p>] *)
Lemma addNode_without_for_witness :
  exists added,
    added = [lit "this.open ?"; lit "h('p', {}, ["; lit "hString(`hello`)";
             lit "])"; lit ": null"] /\
    forall st, exists st',
      addNode (H := sampleHelpers [])
        (ElementNode (lit "p") [(lit "show", lit "open")]
           [TextNode (lit " hello ")]) st = Ok st' /\
      lines st' = lines st ++ added /\ stack st' = stack st.
Proof.
  destruct (addNode_without_for (H := sampleHelpers [])
              (ElementNode (lit "p") [(lit "show", lit "open")]
                 [TextNode (lit " hello ")]) eq_refl)
    as (added & Hframe & childLines & Hchildren & Hadded).
  exists added. split; [|exact Hframe].
  destruct (Hchildren reset) as (st' & Hrun & Hlines & _).
  injection Hrun as <-.
  apply (app_inv_head (lines reset)) in Hlines. subst childLines.
  rewrite Hadded. reflexivity.
Defined.

(** [<p>hi</p>] *)
Lemma compile_without_for_witness :
  exists out,
    compile
      (H := sampleHelpers [ElementNode (lit "p") [] [TextNode (lit "hi")]])
      (lit "<p>hi</p>") = Ok out /\
    code out =
      lit "function render() { return ( h('p', {}, [ hString(`hi`) ]) ) }".
Proof.
  destruct (compile_without_for
              (H := sampleHelpers
                      [ElementNode (lit "p") [] [TextNode (lit "hi")]])
              (lit "<p>hi</p>") eq_refl)
    as (out & added & Hrun & Hnodes & Hcode).
  exists out. split; [exact Hrun|].
  destruct (Hnodes reset) as (st' & Hwalk & Hlines & _).
  injection Hwalk as <-.
  apply (app_inv_head (lines reset)) in Hlines. subst added.
  rewrite Hcode. reflexivity.
Defined.

(** [<p>hi</p><span show='open'></span>] *)
Lemma compile_without_for_tidy_witness :
  exists out,
    compile
      (H := sampleHelpers
              [ElementNode (lit "p") [] [TextNode (lit "hi")];
               ElementNode (lit "span") [(lit "show", lit "open")] []])
      (lit "<p>hi</p><span show='open'></span>") = Ok out /\
    commaBeforeClosing (code out) = false.
Proof.
  exact (compile_without_for_tidy
           (H := sampleHelpers
                   [ElementNode (lit "p") [] [TextNode (lit "hi")];
                    ElementNode (lit "span") [(lit "show", lit "open")] []])
           (lit "<p>hi</p><span show='open'></span>") eq_refl eq_refl).
Defined.

End MoreCompilerExamples.
